(** * The derivation builder of libstore (unix/build/derivation-builder.cc)

    A shallow embedding of the parts of [DerivationBuilderImpl] that decide
    how scratch output paths are chosen, how a build is prepared, how a
    failed build is classified, how the recursive daemon adds paths, and how
    outputs are registered after the builder has exited.

    Maps and sets of the program ([std::map], [std::set]) are stdpp's [gmap]
    and [gset]; wherever the program iterates over one of them the model
    walks it in ascending key order, as the C++ containers do. *)

From Stdlib Require Import ZArith Ascii String.
From stdpp Require Import gmap strings list sorting relations.

Set Warnings "-clear-no-such-hyp".

Open Scope string_scope.

(** ** Store paths, hashes and the containers' iteration order *)

(** A store path is the base name [<hashPart>-<name>] of an entry of the
    store directory. *)
Record StorePath := mkStorePath { hashPart : string; name : string }.

#[global] Instance StorePath_eq_dec : EqDecision StorePath.
Proof. solve_decision. Defined.

#[global] Instance StorePath_countable : Countable StorePath.
Proof.
  refine (inj_countable' (fun p => (hashPart p, name p))
                         (fun q => mkStorePath q.1 q.2) _).
  by intros [].
Defined.

Definition to_string (p : StorePath) : string := hashPart p ++ "-" ++ name p.

Inductive HashAlgorithm := MD5 | SHA1 | SHA256 | SHA512.

#[global] Instance HashAlgorithm_eq_dec : EqDecision HashAlgorithm.
Proof. solve_decision. Defined.

Definition hashSize (a : HashAlgorithm) : nat :=
  match a with MD5 => 16 | SHA1 => 20 | SHA256 => 32 | SHA512 => 64 end.

(** A hash is its algorithm and its digest bytes. *)
Record Hash := mkHash { algo : HashAlgorithm; digest : string }.

#[global] Instance Hash_eq_dec : EqDecision Hash.
Proof. solve_decision. Defined.

(** [Hash(HashAlgorithm)]: the all-zeroes hash of an algorithm. *)
Fixpoint zeroBytes (n : nat) : string :=
  match n with
  | O => ""
  | S n' => String Ascii.zero (zeroBytes n')
  end.

Definition Hash_zero (a : HashAlgorithm) : Hash := mkHash a (zeroBytes (hashSize a)).

Definition string_le (a b : string) : Prop := String.leb a b = true.

#[global] Instance string_le_dec : RelDecision string_le.
Proof. intros a b. unfold string_le. apply _. Defined.

(** Iteration over a [std::set<std::string>]. *)
Definition ordered (s : gset string) : list string :=
  merge_sort string_le (elements s).

Definition entry_le {V} (a b : string * V) : Prop := string_le a.1 b.1.

#[global] Instance entry_le_dec {V} : RelDecision (@entry_le V).
Proof. intros a b. unfold entry_le. apply _. Defined.

(** Iteration over a [std::map<std::string, V>]. *)
Definition ordered_entries {V} (m : gmap string V) : list (string * V) :=
  merge_sort entry_le (map_to_list m).

Inductive BuildMode := bmNormal | bmRepair | bmCheck.

#[global] Instance BuildMode_eq_dec : EqDecision BuildMode.
Proof. solve_decision. Defined.

(** The host family the file is compiled for ([__linux__], [__APPLE__], or
    another unix). *)
Inductive Platform := Linux | Darwin | OtherUnix.

#[global] Instance Platform_eq_dec : EqDecision Platform.
Proof. solve_decision. Defined.

(** What is known of an output before the build: its final path, whether
    something is present at that path and whether it is a valid store
    object ([status.known->path], [isPresent()], [isValid()]). *)
Record InitialOutputStatus := mkStatus {
  path : StorePath;
  isPresent : bool;
  isValid : bool
}.

Record InitialOutput := mkInitialOutput {
  wanted : bool;
  outputHash : Hash;
  known : option InitialOutputStatus
}.

Record StoreReferences := mkRefs { others : gset StorePath; self : bool }.

Inductive ContentAddressMethod := camFlat | camNixArchive | camGit | camText.

#[global] Instance ContentAddressMethod_eq_dec : EqDecision ContentAddressMethod.
Proof. solve_decision. Defined.

(** The methods of the store the builder calls; the store is a collaborator
    whose code is not part of this file. *)
Record Store := mkStore {
  makeStorePath : string -> Hash -> string -> StorePath;
  makeFixedOutputPathFromCA :
    string -> ContentAddressMethod -> Hash -> StoreReferences -> StorePath;
  printStorePath : StorePath -> string;
  (** [toRealPath] on a printed path *)
  toRealPath : string -> string
}.

(** ** Scratch paths ([startBuilder], the loop over [initialOutputs]) *)

Record ScratchState := mkScratchState {
  scratchOutputs : gmap string StorePath;
  inputRewrites : gmap string string;
  redirectedOutputs : gmap StorePath StorePath;
  (** the paths handed to [deletePath], latest first *)
  deletedPaths : list string
}.

Definition needsHashRewrite (platform : Platform) (useChroot : bool) : bool :=
  match platform with
  | Linux => negb useChroot
  | _ => true
  end.

Section Scratch.
Variable store : Store.
(** [outputPathName] and [hashPlaceholder] of the derivation library. *)
Variable outputPathName : string -> string -> string.
Variable hashPlaceholder : string -> string.

Variable platform : Platform.
Variable useChroot : bool.
Variable buildMode : BuildMode.
Variable drvPath : StorePath.
Variable drvName : string.

Definition makeFallbackPath_output (outputName : string) : StorePath :=
  let pathType := "rewrite:" ++ to_string drvPath ++ ":name:" ++ outputName in
  makeStorePath store pathType (Hash_zero SHA256) (outputPathName drvName outputName).

Definition makeFallbackPath (p : StorePath) : StorePath :=
  let pathType := "rewrite:" ++ to_string drvPath ++ ":" ++ to_string p in
  makeStorePath store pathType (Hash_zero SHA256) (name p).

(** The conditional expression that initialises [scratchPath]. *)
Definition scratchPathOf (outputName : string) (status : InitialOutput) : StorePath :=
  match known status with
  | None => makeFallbackPath_output outputName
  | Some k =>
      if negb (needsHashRewrite platform useChroot) then path k
      else if negb (isPresent k) then path k
      else if bool_decide (buildMode <> bmRepair) && negb (isValid k) then path k
      else makeFallbackPath (path k)
  end.

(** One iteration of [for (auto & [outputName, status] : initialOutputs)]. *)
Definition scratchStep (st : ScratchState) (entry : string * InitialOutput) : ScratchState :=
  let '(outputName, status) := entry in
  let scratchPath := scratchPathOf outputName status in
  let st1 :=
    mkScratchState
      (<[outputName := scratchPath]> (scratchOutputs st))
      (<[hashPlaceholder outputName := printStorePath store scratchPath]> (inputRewrites st))
      (redirectedOutputs st)
      (deletedPaths st) in
  match known status with
  | None => st1
  | Some k =>
      let fixedFinalPath := path k in
      if decide (fixedFinalPath = scratchPath) then st1
      else
        mkScratchState
          (scratchOutputs st1)
          (<[hashPart fixedFinalPath := hashPart scratchPath]> (inputRewrites st1))
          (<[fixedFinalPath := scratchPath]> (redirectedOutputs st1))
          (printStorePath store scratchPath :: deletedPaths st1)
  end.

Definition scratchLoop (st : ScratchState) (entries : list (string * InitialOutput)) : ScratchState :=
  foldl scratchStep st entries.

Definition startBuilder_outputs (st : ScratchState) (initialOutputs : gmap string InitialOutput) : ScratchState :=
  scratchLoop st (ordered_entries initialOutputs).

(** The table of the specification, read row by row: a row is a guard and
    the path it yields; the first row whose guard holds wins. *)
Definition firstRow (rows : list (bool * StorePath)) (otherwise : StorePath) : StorePath :=
  match List.find fst rows with
  | Some row => row.2
  | None => otherwise
  end.

Definition scratchPath_table (outputName : string) (finalPath : option StorePath)
    (present valid : bool) : StorePath :=
  match finalPath with
  | None => makeFallbackPath_output outputName
  | Some final =>
      firstRow
        [ (negb (needsHashRewrite platform useChroot), final);
          (negb present, final);
          (bool_decide (buildMode <> bmRepair) && (present && negb valid), final) ]
        (makeFallbackPath final)
  end.

End Scratch.

(** ** Results of operations that can throw *)

Inductive Outcome (E A : Type) :=
  | Returned (a : A)
  | Threw (e : E).
Arguments Returned {E A} a.
Arguments Threw {E A} e.

Definition bindO {E A B} (m : Outcome E A) (k : A -> Outcome E B) : Outcome E B :=
  match m with
  | Returned a => k a
  | Threw e => Threw e
  end.

Notation "x <- m ;; k" := (bindO m (fun x => k))
  (at level 100, m at next level, right associativity).

(** ** [prepareBuild] *)

Inductive SandboxMode := smEnabled | smRelaxed | smDisabled.

(** The lease on a build user (or on a range of uids). *)
Record UserLock := mkUserLock { getUID : Z; getGID : Z; getUIDCount : Z }.

Inductive PrepareError :=
  | NoChrootNotAllowed (drv : string)
      (* "derivation '%s' has '__noChroot' set, but that's not allowed when 'sandbox' is 'true'" *)
  | SandboxProfileNotAllowed (drv : string)
      (* "derivation '%s' specifies a sandbox profile, but this is only allowed when 'sandbox' is 'relaxed'" *)
  | DivertedStoreUnsupported
      (* "building using a diverted store is not supported on this platform" *)
  | NamespacesUnsupported.
      (* "this system does not support the kernel namespaces that are required for sandboxing; ..." *)

(** Settings, derivation options and host facts read by [prepareBuild]. *)
Record PrepareEnv := mkPrepareEnv {
  pe_platform : Platform;
  pe_sandboxMode : SandboxMode;
  pe_noChroot : bool;
  pe_additionalSandboxProfile : string;
  pe_isSandboxed : bool;              (* derivationType->isSandboxed() *)
  pe_storeDir : string;
  pe_realStoreDir : string;
  pe_namespacesSupported : bool;      (* mountAndPidNamespacesSupported() *)
  pe_sandboxFallback : bool;
  pe_useBuildUsers : bool;            (* useBuildUsers() *)
  pe_useUidRange : bool;              (* drvOptions.useUidRange(drv) *)
  pe_drvPath : string                 (* store.printStorePath(drvPath) *)
}.

(** The members [prepareBuild] assigns. *)
Record PrepareState := mkPrepareState {
  ps_useChroot : bool;
  ps_buildUser : option UserLock
}.

Section Prepare.
(** [acquireUserLock(nrIds, useUserNamespace)], which yields no lock when
    every build user is taken. *)
Variable acquireUserLock : Z -> bool -> option UserLock.
Variable env : PrepareEnv.

(** First block: "Are we doing a chroot build?" *)
Definition chrootFromSandboxMode (st : PrepareState) : Outcome PrepareError PrepareState :=
  match pe_sandboxMode env with
  | smEnabled =>
      if pe_noChroot env then Threw (NoChrootNotAllowed (pe_drvPath env))
      else if bool_decide (pe_platform env = Darwin)
              && negb (bool_decide (pe_additionalSandboxProfile env = ""))
      then Threw (SandboxProfileNotAllowed (pe_drvPath env))
      else Returned (mkPrepareState true (ps_buildUser st))
  | smDisabled => Returned (mkPrepareState false (ps_buildUser st))
  | smRelaxed =>
      Returned (mkPrepareState (pe_isSandboxed env && negb (pe_noChroot env)) (ps_buildUser st))
  end.

(** Second block: a diverted store forces the chroot where there is one. *)
Definition chrootFromDivertedStore (st : PrepareState) : Outcome PrepareError PrepareState :=
  if bool_decide (pe_storeDir env <> pe_realStoreDir env) then
    match pe_platform env with
    | Linux => Returned (mkPrepareState true (ps_buildUser st))
    | _ => Threw DivertedStoreUnsupported
    end
  else Returned st.

(** Third block (Linux only): the namespaces the chroot needs. *)
Definition chrootFromNamespaces (st : PrepareState) : Outcome PrepareError PrepareState :=
  if bool_decide (pe_platform env = Linux) && ps_useChroot st
     && negb (pe_namespacesSupported env)
  then
    if negb (pe_sandboxFallback env) then Threw NamespacesUnsupported
    else Returned (mkPrepareState false (ps_buildUser st))
  else Returned st.

(** Last block: the build user. The state comes back with the result,
    since the lease that was taken stays in [buildUser]. *)
Definition acquireBuildUser (st : PrepareState) : PrepareState * bool :=
  if pe_useBuildUsers env then
    let buildUser :=
      match ps_buildUser st with
      | Some u => Some u
      | None => acquireUserLock (if pe_useUidRange env then 65536 else 1) (ps_useChroot st)
      end in
    let st' := mkPrepareState (ps_useChroot st) buildUser in
    match buildUser with
    | None => (st', false)
    | Some _ => (st', true)
    end
  else (st, true).

(** The three blocks that settle [useChroot], in the order of the text. *)
Definition decideChroot (st : PrepareState) : Outcome PrepareError PrepareState :=
  st1 <- chrootFromSandboxMode st ;;
  st2 <- chrootFromDivertedStore st1 ;;
  chrootFromNamespaces st2.

Definition prepareBuild (st : PrepareState) : Outcome PrepareError (PrepareState * bool) :=
  st3 <- decideChroot st ;;
  Returned (acquireBuildUser st3).

End Prepare.

(** ** Classification of a failed build ([unprepareBuild],
       [cleanupDecideWhetherDiskFull]) *)

(** The [f_bavail] and [f_bsize] fields a successful [statvfs] fills in. *)
Record StatVfs := mkStatVfs { f_bavail : Z; f_bsize : Z }.

Definition uint64 (z : Z) : Z := z mod 2 ^ 64.

Definition required : Z := 8 * 1024 * 1024.

Definition belowRequired (r : option StatVfs) : bool :=
  match r with
  | Some st => (uint64 (uint64 (f_bavail st) * f_bsize st) <? required)%Z
  | None => false
  end.

Section DiskFull.
(** [HAVE_STATVFS], and [statvfs] itself: [None] when the call fails. *)
Variable haveStatvfs : bool.
Variable statvfs : string -> option StatVfs.
Variable realStoreDir tmpDir : string.

Definition cleanupDecideWhetherDiskFull : bool :=
  let diskFull := false in
  if haveStatvfs then
    let diskFull := if belowRequired (statvfs realStoreDir) then true else diskFull in
    let diskFull := if belowRequired (statvfs tmpDir) then true else diskFull in
    diskFull
  else diskFull.
End DiskFull.

(** How the builder process ended, as [statusOk] and [statusToString] read
    the wait status. *)
Inductive ExitStatus := Exited (code : Z) | Signaled (sig : Z).

Definition statusOk (s : ExitStatus) : bool :=
  match s with
  | Exited c => (c =? 0)%Z
  | Signaled _ => false
  end.

Inductive BuildStatus :=
  | Built | NotDeterministicStatus | OutputRejected | TransientFailure | PermanentFailure.

(** The status chosen in the [catch (BuildError & e)] clause. *)
Definition failureStatus (isNotDeterministic : bool) (status : ExitStatus)
    (isSandboxed diskFull : bool) : BuildStatus :=
  if isNotDeterministic then NotDeterministicStatus
  else if statusOk status then OutputRejected
  else if negb isSandboxed || diskFull then TransientFailure
  else PermanentFailure.

(** ** [addDependency] and the allowlist of the restricted store *)

Inductive AddError :=
  | AlreadyExistsInSandbox (p : string)  (* "store path '%s' already exists in the sandbox" *)
  | CouldNotAddToSandbox (p : string)    (* "could not add path '%s' to sandbox" *)
  | DontKnowHowToAdd (p : string).       (* "don't know how to make path '%s' ... appear in the sandbox" *)

Record DaemonState := mkDaemonState {
  addedPaths : gset StorePath;
  (** bind mounts made into the live sandbox: (source, target), latest first *)
  bindMounts : list (string * string)
}.

Section AddDependency.
Variable store : Store.
Variable pathExists : string -> bool.
(** exit status of the helper process that enters the sandbox's
    namespaces and bind-mounts (source, target) *)
Variable bindInSandbox : string -> string -> Z.

Variable platform : Platform.
Variable useChroot : bool.
Variable chrootRootDir : string.
Variable inputPaths : gset StorePath.

Definition isAllowed (st : DaemonState) (p : StorePath) : bool :=
  bool_decide (p ∈ inputPaths) || bool_decide (p ∈ addedPaths st).

Definition addDependency (st : DaemonState) (p : StorePath) : DaemonState * Outcome AddError unit :=
  if isAllowed st p then (st, Returned tt)
  else
    let st1 := mkDaemonState ({[p]} ∪ addedPaths st) (bindMounts st) in
    if useChroot then
      match platform with
      | Linux =>
          let source := toRealPath store (printStorePath store p) in
          let target := chrootRootDir ++ printStorePath store p in
          if pathExists target then (st1, Threw (AlreadyExistsInSandbox (printStorePath store p)))
          else
            let status := bindInSandbox source target in
            if bool_decide (status <> 0%Z)
            then (st1, Threw (CouldNotAddToSandbox (printStorePath store p)))
            else (mkDaemonState (addedPaths st1) ((source, target) :: bindMounts st1), Returned tt)
      | _ => (st1, Threw (DontKnowHowToAdd (printStorePath store p)))
      end
    else (st1, Returned tt).
End AddDependency.

(** ** Data of [registerOutputs] *)

(** The fields of [struct stat] the registrar reads. *)
Record Stat := mkStat { st_mode : Z; st_uid : Z }.

Definition S_IFMT : Z := 0xF000.   (* 0170000 *)
Definition S_IFLNK : Z := 0xA000.  (* 0120000 *)
Definition S_IFREG : Z := 0x8000.  (* 0100000 *)
Definition S_IXUSR : Z := 0x40.    (* 0100 *)
Definition S_IWGRP : Z := 0x10.    (* 020 *)
Definition S_IWOTH : Z := 0x2.     (* 02 *)

Definition S_ISLNK (m : Z) : bool := (Z.land m S_IFMT =? S_IFLNK)%Z.
Definition S_ISREG (m : Z) : bool := (Z.land m S_IFMT =? S_IFREG)%Z.

(** A C condition [(m & mask)], true when some bit of the mask is set. *)
Definition anyBit (m mask : Z) : bool := negb (Z.land m mask =? 0)%Z.

Inductive FileIngestionMethod := Flat | NixArchive | Git.

Definition getFileIngestionMethod (m : ContentAddressMethod) : FileIngestionMethod :=
  match m with
  | camFlat | camText => Flat
  | camNixArchive => NixArchive
  | camGit => Git
  end.

Inductive DerivationOutput :=
  | InputAddressed (p : StorePath)
  | CAFixed (method : ContentAddressMethod) (hash : Hash)
  | CAFloating (method : ContentAddressMethod) (hashAlgo : HashAlgorithm)
  | Deferred
  | Impure (method : ContentAddressMethod) (hashAlgo : HashAlgorithm).

Record ContentAddress := mkCA { ca_method : ContentAddressMethod; ca_hash : Hash }.

#[global] Instance ContentAddress_eq_dec : EqDecision ContentAddress.
Proof. solve_decision. Defined.

Record ValidPathInfo := mkInfo {
  info_path : StorePath;
  narHash : Hash;
  narSize : Z;
  references : gset StorePath;
  ca : option ContentAddress;
  deriver : option StorePath;
  ultimate : bool;
  sigs : list string
}.

Record Realisation := mkRealisation {
  realisation_id : Hash * string;     (* .id: the output hash and the output name *)
  outPath : StorePath;
  signatures : list string
}.

Inductive HashFormat := Base64 | Nix32 | Base16 | SRI.

(** The reference graph entry of an output after the first pass. *)
Inductive OutputReferences :=
  | AlreadyRegistered (p : StorePath)
  | PerhapsNeedToRegister (refs : gset StorePath).

(** The messages of the errors [registerOutputs] throws, by format string. *)
Inductive Message :=
  | NoScratchOutput (drv outputName : string)
      (* "builder for '%s' has no scratch output for '%s'" *)
  | NoInitialOutput (drv outputName : string)
      (* "builder for '%s' has no initial output for '%s'" *)
  | FailedToProduceOutput (drv outputName actualPath : string)
      (* "builder for '%s' failed to produce output path for output '%s' at '%s'" *)
  | SuspiciousOwnership (actualPath outputName : string)
      (* "suspicious ownership or permission on '%s' for output '%s'; rejecting this build output" *)
  | NoOutputReference (outputName drv : string)
      (* "no output reference for '%s' in build of '%s'" *)
  | CycleDetected (drv path parent : string)
      (* "cycle detected in build of '%s' in the references of output '%s' from output '%s'" *)
  | OutputWithoutStats (actualPath : string)
      (* "output path %1% without valid stats info" *)
  | NotRegularFile (actualPath : string)
      (* "output path '%1%' should be a non-executable regular file ..." *)
  | HashMismatch (drv specified got : string)
      (* "hash mismatch in fixed-output derivation '%s':\n  specified: %s\n     got:    %s" *)
  | FixedOutputReferences (drv : string)
      (* "fixed-output derivations must not reference store paths: '%s' references %d distinct
         paths, e.g. '%s'"; the count and the example are read from [newInfo], the variable
         whose initialiser is still running, and are left out here *)
  | MayNotBeDeterministic (drv finalDest : string) (dst : option string)
      (* "derivation '%s' may not be deterministic: output '%s' differs[ from '%s']" *)
  | OutputCheckFailed (msg : string)
      (* any of the errors of checkOutputs *)
  | CannotBuild (drv : string) (status : ExitStatus) (diskFullNote : bool).
      (* "Cannot build '%s'.\nReason: builder %s." and, when the disk looks full,
         "note: build failure may have been caused by lack of free disk space" *)

(** [BuildError], its subclass [NotDeterministic], and a failed [assert]. *)
Inductive Error :=
  | BuildError (m : Message)
  | NotDeterministic (m : Message)
  | AssertionFailure.

(** Calls to the [DerivationBuilderCallbacks] object. *)
Inductive Note :=
  | noteHashMismatch
  | noteCheckMismatch
  | markContentsGood (p : StorePath).

(** What [registerOutputs] changes outside its own locals: the store's
    table of valid paths, every call to [registerValidPaths] (latest
    first), the realisations registered, the notes sent back to the
    scheduler, and the paths whose metadata was canonicalised. *)
Record World := mkWorld {
  validPaths : gmap StorePath ValidPathInfo;
  commits : list (gmap StorePath ValidPathInfo);
  drvOutputsRegistered : list Realisation;
  notes : list Note;
  canonicalised : list string
}.

Definition registerValidPaths (batch : gmap StorePath ValidPathInfo) (w : World) : World :=
  mkWorld
    (batch ∪ validPaths w)
    (batch :: commits w)
    (drvOutputsRegistered w) (notes w) (canonicalised w).

Definition addNote (n : Note) (w : World) : World :=
  mkWorld (validPaths w) (commits w) (drvOutputsRegistered w) (n :: notes w) (canonicalised w).

Definition canonicalisePathMetaData (p : string) (w : World) : World :=
  mkWorld (validPaths w) (commits w) (drvOutputsRegistered w) (notes w) (p :: canonicalised w).

Definition registerDrvOutput (r : Realisation) (w : World) : World :=
  mkWorld (validPaths w) (commits w) (r :: drvOutputsRegistered w) (notes w) (canonicalised w).

(** The locals of [registerOutputs] that outlive one loop iteration. *)
Record Locals := mkLocals {
  initialOutputs : gmap string InitialOutput;
  outputsToSort : gset string;
  outputReferencesIfUnregistered : gmap string OutputReferences;
  outputStats : gmap string Stat;
  outputRewrites : gmap string string;
  finalOutputs : gmap string StorePath;
  infos : gmap string ValidPathInfo;
  delayedException : option Error
}.

(** ** [topoSort] *)

Inductive TopoFailure (E : Type) :=
  | Raised (e : E)
  | Undefined.
Arguments Raised {E} e.
Arguments Undefined {E}.

Record Dfs := mkDfs {
  visited : gset string;
  parents : gset string;
  sorted : list string
}.

Section TopoSort.
Context {E : Type}.
Variable items : gset string.
Variable getChildren : string -> Outcome E (gset string).
Variable makeCycleError : string -> string -> E.

(** The loop over the references of [path] inside [dfsVisit]. *)
Fixpoint dfsChildren
    (visit : Dfs -> string -> option string -> Outcome (TopoFailure E) Dfs)
    (path : string) (refs : list string) (st : Dfs) : Outcome (TopoFailure E) Dfs :=
  match refs with
  | [] => Returned st
  | i :: rest =>
      if bool_decide (i <> path) && bool_decide (i ∈ items) then
        st' <- visit st i (Some path) ;;
        dfsChildren visit path rest st'
      else dfsChildren visit path rest st
  end.

(** Modelled from the spec: [topoSort] (nix/util/topo-sort.hh) is not in
    this file. The specification asks for a topological sort of the
    outputs that detects cycles and fails on them with an error built from
    the two items involved; this is the depth-first sort that does so:
    an item met again while it is still on the path from the root
    ([parents]) closes a cycle, an item already [visited] is skipped,
    references to the item itself or to items outside [items] are not
    followed, and an item is appended to [sorted] once all its references
    are. The recursion depth is bounded by [fuel]; a null [parent] cannot
    be dereferenced. *)
Fixpoint dfsVisit (fuel : nat) (st : Dfs) (path : string) (parent : option string)
    : Outcome (TopoFailure E) Dfs :=
  match fuel with
  | O => Threw Undefined
  | S fuel' =>
      if bool_decide (path ∈ parents st) then
        match parent with
        | Some p => Threw (Raised (makeCycleError path p))
        | None => Threw Undefined
        end
      else if bool_decide (path ∈ visited st) then Returned st
      else
        let st1 := mkDfs ({[path]} ∪ visited st) ({[path]} ∪ parents st) (sorted st) in
        match getChildren path with
        | Threw e => Threw (Raised e)
        | Returned refs =>
            st2 <- dfsChildren (dfsVisit fuel') path (ordered refs) st1 ;;
            Returned (mkDfs (visited st2) (parents st2 ∖ {[path]}) (sorted st2 ++ [path]))
        end
  end.

Fixpoint dfsAll (fuel : nat) (todo : list string) (st : Dfs) : Outcome (TopoFailure E) Dfs :=
  match todo with
  | [] => Returned st
  | i :: rest =>
      st' <- dfsVisit fuel st i None ;;
      dfsAll fuel rest st'
  end.

Definition topoSort : Outcome (TopoFailure E) (list string) :=
  st <- dfsAll (S (size items)) (ordered items) (mkDfs ∅ ∅ []) ;;
  Returned (reverse (sorted st)).
End TopoSort.

(** ** [scanForReferences] *)

Fixpoint occursIn (needle hay : string) : bool :=
  String.prefix needle hay ||
  match hay with
  | EmptyString => false
  | String _ rest => occursIn needle rest
  end.

(** Modelled from the spec: [scanForReferences] (nix/store/path-references)
    is not in this file. The reference set of a tree is found by scanning
    its bytes for the hash parts of the candidate paths: a candidate is a
    reference when its hash part occurs in the bytes. *)
Definition scanForReferences (bytes : string) (refs : gset StorePath) : gset StorePath :=
  filter (fun p => occursIn (hashPart p) bytes = true) refs.

(** ** [registerOutputs] *)

(** The host the build runs on: what the file system holds when the builder
    has exited, the hashing and rewriting sinks, and the callbacks of the
    scheduler. None of this is code of this file. *)
Record Host := mkHost {
  (** [maybeLstat] *)
  maybeLstat : string -> option Stat;
  (** the serialised tree at a path, as the builder left it *)
  fileContents : string -> string;
  (** the effect of a [RewritingSink] on a serialised tree *)
  rewriteStrings : gmap string string -> string -> string;
  (** [HashModuloSink] over the dump of a tree *)
  hashModulo : HashAlgorithm -> string -> FileIngestionMethod -> string -> Hash;
  (** [git::dumpHash] *)
  gitDumpHash : HashAlgorithm -> string -> Hash;
  (** [hashPath] with the archive serialisation and SHA-256: hash and size *)
  hashPath : string -> Hash * Z;
  Hash_to_string : Hash -> HashFormat -> bool -> string;
  outputPathName : string -> string -> string;
  (** the signatures [signPathInfo] and [signRealisation] add *)
  pathInfoSignatures : ValidPathInfo -> list string;
  realisationSignatures : Realisation -> list string;
  (** [miscMethods->assertPathValidity()] *)
  assertPathValidity : World -> Outcome Error (gmap string Realisation)
}.

(** The parameters of the build and the members of the builder that
    [registerOutputs] reads. *)
Record Build := mkBuild {
  platform : Platform;
  cygwin : bool;                       (* __CYGWIN__ *)
  useChroot : bool;
  chrootRootDir : string;
  buildMode : BuildMode;
  drvPath : StorePath;
  drvName : string;
  drvOutputs : gmap string DerivationOutput;     (* drv.outputs *)
  drvIsImpure : bool;                            (* drv.type().isImpure() *)
  inputPaths : gset StorePath;
  addedPathsAtExit : gset StorePath;             (* addedPaths *)
  buildScratchOutputs : gmap string StorePath;   (* scratchOutputs *)
  buildUser : option UserLock;
  unsafeDiscardReferences : gmap string bool;
  runDiffHook : bool;
  keepFailed : bool;
  caDerivationsEnabled : bool     (* experimentalFeatureSettings.isEnabled(Xp::CaDerivations) *)
}.

(** The state of a loop after an iteration, or the exception that ended it. *)
Inductive Step :=
  | Continue (l : Locals) (w : World)
  | Raise (e : Error) (l : Locals) (w : World).

Fixpoint forEach (body : Locals -> World -> string -> Step)
    (l : Locals) (w : World) (names : list string) : Step :=
  match names with
  | [] => Continue l w
  | n :: rest =>
      match body l w n with
      | Continue l' w' => forEach body l' w' rest
      | raised => raised
      end
  end.

Definition setInitialOutputs v (l : Locals) : Locals :=
  mkLocals v (outputsToSort l) (outputReferencesIfUnregistered l) (outputStats l)
    (outputRewrites l) (finalOutputs l) (infos l) (delayedException l).
Definition setOutputsToSort v (l : Locals) : Locals :=
  mkLocals (initialOutputs l) v (outputReferencesIfUnregistered l) (outputStats l)
    (outputRewrites l) (finalOutputs l) (infos l) (delayedException l).
Definition setOutputReferences v (l : Locals) : Locals :=
  mkLocals (initialOutputs l) (outputsToSort l) v (outputStats l)
    (outputRewrites l) (finalOutputs l) (infos l) (delayedException l).
Definition setOutputStats v (l : Locals) : Locals :=
  mkLocals (initialOutputs l) (outputsToSort l) (outputReferencesIfUnregistered l) v
    (outputRewrites l) (finalOutputs l) (infos l) (delayedException l).
Definition setOutputRewrites v (l : Locals) : Locals :=
  mkLocals (initialOutputs l) (outputsToSort l) (outputReferencesIfUnregistered l)
    (outputStats l) v (finalOutputs l) (infos l) (delayedException l).
Definition setFinalOutputs v (l : Locals) : Locals :=
  mkLocals (initialOutputs l) (outputsToSort l) (outputReferencesIfUnregistered l)
    (outputStats l) (outputRewrites l) v (infos l) (delayedException l).
Definition setInfos v (l : Locals) : Locals :=
  mkLocals (initialOutputs l) (outputsToSort l) (outputReferencesIfUnregistered l)
    (outputStats l) (outputRewrites l) (finalOutputs l) v (delayedException l).
Definition setDelayedException v (l : Locals) : Locals :=
  mkLocals (initialOutputs l) (outputsToSort l) (outputReferencesIfUnregistered l)
    (outputStats l) (outputRewrites l) (finalOutputs l) (infos l) v.

(** [std::map::emplace]: the entry is added unless the key is taken. *)
Definition emplace {K V} `{Countable K} (k : K) (v : V) (m : gmap K V) : gmap K V :=
  match m !! k with
  | Some _ => m
  | None => <[k := v]> m
  end.

Section Register.
Variable store : Store.
Variable host : Host.
(** [checkOutputs] is taken by its verdict: the message of the [BuildError]
    it throws, if any. *)
Variable checkOutputs : World -> gmap string ValidPathInfo -> option string.
Variable b : Build.

Definition drvPathS : string := printStorePath store (drvPath b).

(** "The paths that can be referenced are the input closures, the output
    paths, and any paths that have been built via recursive Nix calls." *)
Definition referenceablePaths : gset StorePath :=
  inputPaths b ∪ map_img (buildScratchOutputs b) ∪ addedPathsAtExit b.

Definition toRealPathChroot (p : string) : string :=
  if useChroot b && negb (needsHashRewrite (platform b) (useChroot b))
  then chrootRootDir b ++ p
  else toRealPath store p.

(** The ownership and permission test on the [lstat] of an output. *)
Definition suspicious (st : Stat) : bool :=
  negb (cygwin b) &&
  ((negb (S_ISLNK (st_mode st)) && anyBit (st_mode st) (Z.lor S_IWGRP S_IWOTH))
   || match buildUser b with
      | Some u => bool_decide (st_uid st <> getUID u)
      | None => false
      end).

(** First pass, one output: existence, ownership, canonicalisation and
    the reference scan of an output that may need registering. *)
Definition checkOutput (l : Locals) (w : World) (outputName : string) : Step :=
  match buildScratchOutputs b !! outputName with
  | None => Raise (BuildError (NoScratchOutput drvPathS outputName)) l w
  | Some scratchOutput =>
      let actualPath := toRealPathChroot (printStorePath store scratchOutput) in
      let l1 := setOutputsToSort ({[outputName]} ∪ outputsToSort l) l in
      match initialOutputs l1 !! outputName with
      | None => Raise (BuildError (NoInitialOutput drvPathS outputName)) l1 w
      | Some initialInfo =>
          let wanted' :=
            bool_decide (buildMode b = bmCheck)
            || negb (match known initialInfo with Some k => isValid k | None => false end) in
          let l2 :=
            setInitialOutputs
              (<[outputName := mkInitialOutput wanted' (outputHash initialInfo) (known initialInfo)]>
                 (initialOutputs l1)) l1 in
          let inspect :=
            match maybeLstat host actualPath with
            | None =>
                Raise (BuildError (FailedToProduceOutput drvPathS outputName actualPath)) l2 w
            | Some st =>
                if suspicious st
                then Raise (BuildError (SuspiciousOwnership actualPath outputName)) l2 w
                else
                  let w1 := canonicalisePathMetaData actualPath w in
                  let discardReferences :=
                    match unsafeDiscardReferences b !! outputName with
                    | Some udr => udr
                    | None => false
                    end in
                  let refs :=
                    if discardReferences then ∅
                    else scanForReferences (fileContents host actualPath) referenceablePaths in
                  let l3 :=
                    setOutputReferences
                      (<[outputName := PerhapsNeedToRegister refs]>
                         (outputReferencesIfUnregistered l2)) l2 in
                  Continue (setOutputStats (<[outputName := st]> (outputStats l3)) l3) w1
            end in
          match known initialInfo with
          | Some k =>
              if negb wanted'
              then Continue
                     (setOutputReferences
                        (<[outputName := AlreadyRegistered (path k)]>
                           (outputReferencesIfUnregistered l2)) l2) w
              else inspect
          | None => inspect
          end
      end
  end.

(** The edges of the reference graph on outputs. *)
Definition getChildren (l : Locals) (outputName : string) : Outcome Error (gset string) :=
  match outputReferencesIfUnregistered l !! outputName with
  | None => Threw (BuildError (NoOutputReference outputName drvPathS))
  | Some (AlreadyRegistered _) => Returned ∅
  | Some (PerhapsNeedToRegister refs) =>
      Returned (dom (filter (fun op => op.2 ∈ refs) (buildScratchOutputs b)))
  end.

Definition makeCycleError (path parent : string) : Error :=
  BuildError (CycleDetected drvPathS path parent).

Definition finish (outputName : string) (scratchPath finalStorePath : StorePath)
    (l : Locals) : Locals :=
  let l1 := setFinalOutputs (<[outputName := finalStorePath]> (finalOutputs l)) l in
  if decide (scratchPath <> finalStorePath)
  then setOutputRewrites
         (<[hashPart scratchPath := hashPart finalStorePath]> (outputRewrites l1)) l1
  else l1.

Definition rewriteOutput (rewrites : gmap string string) (actualPath : string)
    (tree : string) (w : World) : string * World :=
  if decide (rewrites = ∅) then (tree, w)
  else (rewriteStrings host rewrites tree, canonicalisePathMetaData actualPath w).

Definition rewriteRefs (refs : gset StorePath) (scratchPath : StorePath)
    (rewrites : gmap string string) : StoreReferences :=
  foldl
    (fun res r =>
       if decide (r = scratchPath) then mkRefs (others res) true
       else
         match rewrites !! hashPart r with
         | Some outputRewrite =>
             mkRefs ({[mkStorePath outputRewrite (name r)]} ∪ others res) (self res)
         | None => mkRefs ({[r]} ∪ others res) (self res)
         end)
    (mkRefs ∅ false) (elements refs).

(** Modelled from the spec: the [ValidPathInfo] constructor for a content
    address (nix/store/path-info) is not in this file. The path is made
    by the store from the name, the method, the hash and the references;
    a self-reference, flagged apart, is put back once the path is known. *)
Definition ValidPathInfo_fromCA (pathName : string) (method : ContentAddressMethod)
    (h : Hash) (refs : StoreReferences) (nar : Hash) : ValidPathInfo :=
  let p := makeFixedOutputPathFromCA store pathName method h refs in
  mkInfo p nar 0
    (if self refs then {[p]} ∪ others refs else others refs)
    (Some (mkCA method h)) None false [].

(** [Hash::dummy] *)
Definition Hash_dummy : Hash := Hash_zero SHA256.

Definition newInfoFromCA (l : Locals) (w : World) (outputName : string)
    (scratchPath : StorePath) (actualPath : string) (refs : gset StorePath)
    (method : ContentAddressMethod) (hashAlgo : HashAlgorithm)
    : Outcome Error (ValidPathInfo * World) :=
  match outputStats l !! outputName with
  | None => Threw (BuildError (OutputWithoutStats actualPath))
  | Some st =>
      let fim := getFileIngestionMethod method in
      if match fim with Flat => true | _ => false end
         && (negb (S_ISREG (st_mode st)) || anyBit (st_mode st) S_IXUSR)
      then Threw (BuildError (NotRegularFile actualPath))
      else
        let '(tree1, w1) :=
          rewriteOutput (outputRewrites l) actualPath (fileContents host actualPath) w in
        let oldHashPart := hashPart scratchPath in
        let got :=
          match fim with
          | Flat | NixArchive => hashModulo host hashAlgo oldHashPart fim tree1
          | Git => gitDumpHash host hashAlgo tree1
          end in
        let newInfo0 :=
          ValidPathInfo_fromCA (outputPathName host (drvName b) outputName) method got
            (rewriteRefs refs scratchPath (outputRewrites l)) Hash_dummy in
        let '(tree2, w2) :=
          if decide (scratchPath <> info_path newInfo0)
          then rewriteOutput {[oldHashPart := hashPart (info_path newInfo0)]} actualPath tree1 w1
          else (tree1, w1) in
        let narHashAndSize := hashPath host tree2 in
        Returned
          (mkInfo (info_path newInfo0) narHashAndSize.1 narHashAndSize.2
             (references newInfo0) (ca newInfo0) (deriver newInfo0)
             (ultimate newInfo0) (sigs newInfo0), w2)
  end.

(** The [std::visit] over the addressing mode of the output. *)
Definition makeInfo (l : Locals) (w : World) (outputName : string)
    (output : DerivationOutput) (scratchPath : StorePath) (actualPath : string)
    (refs : gset StorePath) : Outcome Error (ValidPathInfo * Locals * World) :=
  match output with
  | InputAddressed requiredFinalPath =>
      let l1 :=
        if decide (scratchPath <> requiredFinalPath)
        then setOutputRewrites
               (<[hashPart scratchPath := hashPart requiredFinalPath]> (outputRewrites l)) l
        else l in
      let '(tree1, w1) :=
        rewriteOutput (outputRewrites l1) actualPath (fileContents host actualPath) w in
      let narHashAndSize := hashPath host tree1 in
      let rr := rewriteRefs refs scratchPath (outputRewrites l1) in
      let newInfo0 :=
        mkInfo requiredFinalPath narHashAndSize.1 narHashAndSize.2
          (if self rr then {[requiredFinalPath]} ∪ others rr else others rr)
          None None false [] in
      Returned (newInfo0, l1, w1)
  | CAFixed method wantedHash =>
      r <- newInfoFromCA l w outputName scratchPath actualPath refs method (algo wantedHash) ;;
      let '(newInfo0, w1) := r in
      match ca newInfo0 with
      | None => Threw AssertionFailure
      | Some c =>
          let got := ca_hash c in
          let '(l1, w2) :=
            if decide (wantedHash <> got)
            then (setDelayedException
                    (Some (BuildError
                             (HashMismatch drvPathS
                                (Hash_to_string host wantedHash SRI true)
                                (Hash_to_string host got SRI true)))) l,
                  addNote noteHashMismatch w1)
            else (l, w1) in
          let l2 :=
            if decide (references newInfo0 <> ∅)
            then setDelayedException (Some (BuildError (FixedOutputReferences drvPathS))) l1
            else l1 in
          Returned (newInfo0, l2, w2)
      end
  | CAFloating method hashAlgo =>
      r <- newInfoFromCA l w outputName scratchPath actualPath refs method hashAlgo ;;
      Returned (r.1, l, r.2)
  | Deferred => Threw AssertionFailure
  | Impure method hashAlgo =>
      r <- newInfoFromCA l w outputName scratchPath actualPath refs method hashAlgo ;;
      Returned (r.1, l, r.2)
  end.

Definition signPathInfo (i : ValidPathInfo) : ValidPathInfo :=
  mkInfo (info_path i) (narHash i) (narSize i) (references i) (ca i) (deriver i)
    (ultimate i) (sigs i ++ pathInfoSignatures host i).

Definition checkSuffix : string := ".check".

(** Second pass, one output. The lock on the final path and the moves of
    the tree to its destination touch the file system only and are left
    out. *)
Definition finalizeOutput (l : Locals) (w : World) (outputName : string) : Step :=
  match drvOutputs b !! outputName, buildScratchOutputs b !! outputName with
  | Some output, Some scratchPath =>
      let actualPath := toRealPathChroot (printStorePath store scratchPath) in
      match outputReferencesIfUnregistered l !! outputName with
      | None => Raise AssertionFailure l w
      | Some (AlreadyRegistered skippedFinalPath) =>
          Continue (finish outputName scratchPath skippedFinalPath l) w
      | Some (PerhapsNeedToRegister refs) =>
          match makeInfo l w outputName output scratchPath actualPath refs with
          | Threw e => Raise e l w
          | Returned (newInfo, l1, w1) =>
              let w2 := canonicalisePathMetaData actualPath w1 in
              let finalDestPath := printStorePath store (info_path newInfo) in
              if decide (buildMode b = bmCheck) then
                match validPaths w2 !! info_path newInfo with
                | None => Continue l1 w2
                | Some oldInfo =>
                    if decide (narHash newInfo <> narHash oldInfo) then
                      let w3 := addNote noteCheckMismatch w2 in
                      let dst := toRealPath store (finalDestPath ++ checkSuffix) in
                      Raise (NotDeterministic
                               (MayNotBeDeterministic drvPathS (toRealPath store finalDestPath)
                                  (if runDiffHook b || keepFailed b then Some dst else None)))
                        l1 w3
                    else if negb (ultimate oldInfo) then
                      let oldInfo' :=
                        signPathInfo
                          (mkInfo (info_path oldInfo) (narHash oldInfo) (narSize oldInfo)
                             (references oldInfo) (ca oldInfo) (deriver oldInfo) true
                             (sigs oldInfo)) in
                      Continue l1 (registerValidPaths {[info_path oldInfo' := oldInfo']} w2)
                    else Continue l1 w2
                end
              else
                let w3 := addNote (markContentsGood (info_path newInfo)) w2 in
                let newInfo' :=
                  signPathInfo
                    (mkInfo (info_path newInfo) (narHash newInfo) (narSize newInfo)
                       (references newInfo) (ca newInfo) (Some (drvPath b)) true
                       (sigs newInfo)) in
                let l2 := finish outputName scratchPath (info_path newInfo') l1 in
                let w4 :=
                  match ca newInfo' with
                  | Some _ => registerValidPaths {[info_path newInfo' := newInfo']} w3
                  | None => w3
                  end in
                Continue (setInfos (emplace outputName newInfo' (infos l2)) l2) w4
          end
      end
  | _, _ => Raise AssertionFailure l w
  end.

(** [infos2]: the new infos keyed by path ([insert_or_assign] in the order
    of the output names). *)
Definition infosByPath (m : gmap string ValidPathInfo) : gmap StorePath ValidPathInfo :=
  foldl (fun acc e => <[info_path e.2 := e.2]> acc) ∅ (ordered_entries m).

Definition signRealisation (r : Realisation) : Realisation :=
  mkRealisation (realisation_id r) (outPath r) (signatures r ++ realisationSignatures host r).

(** One iteration of the loop that builds [builtOutputs]. *)
Definition realise (l : Locals) (acc : gmap string Realisation * World)
    (e : string * ValidPathInfo) : Outcome Error (gmap string Realisation * World) :=
  let '(builtOutputs, w) := acc in
  let '(outputName, newInfo) := e in
  match initialOutputs l !! outputName with
  | None => Threw AssertionFailure
  | Some oldinfo =>
      let thisRealisation := mkRealisation (outputHash oldinfo, outputName) (info_path newInfo) [] in
      if caDerivationsEnabled b && negb (drvIsImpure b) then
        let signed := signRealisation thisRealisation in
        Returned (emplace outputName signed builtOutputs, registerDrvOutput signed w)
      else Returned (emplace outputName thisRealisation builtOutputs, w)
  end.

Fixpoint realiseAll (l : Locals) (acc : gmap string Realisation * World)
    (es : list (string * ValidPathInfo)) : Outcome Error (gmap string Realisation * World) :=
  match es with
  | [] => Returned acc
  | e :: rest => acc' <- realise l acc e ;; realiseAll l acc' rest
  end.

(** What follows the second pass: the output checks, the registration of
    all new infos in one call, the delayed exception, the realisations. *)
Definition commitOutputs (l : Locals) (w : World)
    : World * Outcome Error (gmap string Realisation) :=
  if decide (buildMode b = bmCheck) then
    match delayedException l with
    | Some e => (w, Threw e)
    | None => (w, assertPathValidity host w)
    end
  else
    match checkOutputs w (infos l) with
    | Some msg => (w, Threw (BuildError (OutputCheckFailed msg)))
    | None =>
        let w1 := registerValidPaths (infosByPath (infos l)) w in
        match delayedException l with
        | Some e => (w1, Threw e)
        | None =>
            match realiseAll l (∅, w1) (ordered_entries (infos l)) with
            | Threw e => (w1, Threw e)
            | Returned (builtOutputs, w2) => (w2, Returned builtOutputs)
            end
        end
    end.

Definition emptyLocals (initial : gmap string InitialOutput) : Locals :=
  mkLocals initial ∅ ∅ ∅ ∅ ∅ ∅ None.

(** The order in which the second pass takes the outputs. *)
Definition sortedOutputNames (l : Locals) : Outcome (TopoFailure Error) (list string) :=
  names <- topoSort (outputsToSort l) (getChildren l) makeCycleError ;;
  Returned (reverse names).

Definition registerOutputs (initial : gmap string InitialOutput) (w : World)
    : World * Outcome Error (gmap string Realisation) :=
  match forEach checkOutput (emptyLocals initial) w (ordered (dom (drvOutputs b))) with
  | Raise e _ w1 => (w1, Threw e)
  | Continue l1 w1 =>
      match sortedOutputNames l1 with
      | Threw (Raised e) => (w1, Threw e)
      | Threw Undefined => (w1, Threw AssertionFailure)
      | Returned names =>
          match forEach finalizeOutput l1 w1 names with
          | Raise e _ w2 => (w2, Threw e)
          | Continue l2 w2 => commitOutputs l2 w2
          end
      end
  end.

(** [unprepareBuild]: the result handed back to the scheduler. Killing
    the sandbox, stopping the daemon, deleting the temporary directory and
    the redirected outputs and releasing the build user are left out. *)

Inductive BuildOutcome :=
  | Success (builtOutputs : gmap string Realisation)
  | Failure (st : BuildStatus) (e : Error)
  | Uncaught (e : Error).

Definition isNotDeterministic (e : Error) : bool :=
  match e with NotDeterministic _ => true | _ => false end.

Variable haveStatvfs : bool.
Variable statvfs : string -> option StatVfs.
Variable realStoreDir tmpDir : string.
Variable isSandboxed : bool.       (* derivationType->isSandboxed() *)

Definition unprepareBuild (status : ExitStatus) (initial : gmap string InitialOutput)
    (w : World) : World * BuildOutcome :=
  let diskFull := false in
  if negb (statusOk status) then
    let diskFull := diskFull || cleanupDecideWhetherDiskFull haveStatvfs statvfs realStoreDir tmpDir in
    let e := BuildError (CannotBuild drvPathS status diskFull) in
    (w, Failure (failureStatus (isNotDeterministic e) status isSandboxed diskFull) e)
  else
    match registerOutputs initial w with
    | (w', Returned builtOutputs) => (w', Success builtOutputs)
    | (w', Threw AssertionFailure) => (w', Uncaught AssertionFailure)
    | (w', Threw e) =>
        (w', Failure (failureStatus (isNotDeterministic e) status isSandboxed diskFull) e)
    end.
End Register.


(** ** A small store and host on which the model runs *)

Fixpoint dropString (n : nat) (s : string) : string :=
  match n, s with
  | S n', String _ rest => dropString n' rest
  | _, _ => s
  end.

(** Replace every occurrence of [from] by [to], left to right. *)
Fixpoint replaceAll (fuel : nat) (from to s : string) : string :=
  match fuel with
  | O => s
  | S fuel' =>
      match s with
      | EmptyString => EmptyString
      | String c rest =>
          if negb (String.eqb from "") && String.prefix from s
          then to ++ replaceAll fuel' from to (dropString (String.length from) s)
          else String c (replaceAll fuel' from to rest)
      end
  end.

Definition exampleRewriteStrings (rewrites : gmap string string) (tree : string) : string :=
  foldl (fun t kv => replaceAll (String.length t) kv.1 kv.2 t) tree (ordered_entries rewrites).

Definition printHashAlgo (a : HashAlgorithm) : string :=
  match a with MD5 => "md5" | SHA1 => "sha1" | SHA256 => "sha256" | SHA512 => "sha512" end.

(** Store paths are printed under [/nix/store] and the store is not
    diverted; the hash part of a made path spells out what it was made
    from. *)
Definition exampleStore : Store :=
  mkStore
    (fun type _ nm => mkStorePath ("<" ++ type ++ ">") nm)
    (fun nm _ h _ => mkStorePath ("<ca:" ++ digest h ++ ">") nm)
    (fun p => "/nix/store/" ++ to_string p)
    (fun p => p).

Record File := mkFile { file_stat : Stat; file_tree : string }.

(** A host whose file system holds [files]; the digest of a tree is the
    tree itself (with the modulus blanked out by the modulo sink). *)
Definition exampleHost (files : gmap string File) : Host :=
  mkHost
    (fun p => file_stat <$> files !! p)
    (fun p => from_option file_tree "" (files !! p))
    exampleRewriteStrings
    (fun a modulus _ tree => mkHash a (replaceAll (String.length tree) modulus "_" tree))
    (fun a tree => mkHash a tree)
    (fun tree => (mkHash SHA256 tree, Z.of_nat (String.length tree)))
    (fun h _ _ => printHashAlgo (algo h) ++ "-" ++ digest h)
    (fun drvName outputName =>
       if String.eqb outputName "out" then drvName else drvName ++ "-" ++ outputName)
    (fun _ => [])
    (fun _ => [])
    (fun _ => Returned ∅).

Definition emptyWorld : World := mkWorld ∅ [] [] [] [].

(** A regular file with mode 0444, a regular file with mode 0755, and a
    symbolic link with mode 0777, all owned by uid 30001. *)
Definition regularFile : Stat := mkStat 0x8124 30001.
Definition executableFile : Stat := mkStat 0x81ED 30001.
Definition symlinkFile : Stat := mkStat 0xA1FF 30001.

Definition exampleDrvPath : StorePath := mkStorePath "drvhash" "hello.drv".

(** ** Relations and invariants of the sort, for the facts below *)

(** [before l v u]: [v] stands before [u] in [l]. *)
Definition before (l : list string) (v u : string) : Prop :=
  exists i j, l !! i = Some v /\ l !! j = Some u /\ (i < j)%nat.

Section TopoSortSpec.
Context {E : Type}.
Variable items : gset string.
Variable getChildren : string -> Outcome E (gset string).
Variable makeCycleError : string -> string -> E.

(** [edge u v]: the sort follows a reference from [u] to [v]. *)
Definition edge (u v : string) : Prop :=
  exists refs, getChildren u = Returned refs /\ v ∈ refs /\ v <> u /\ v ∈ items.

Record GoodDfs (st : Dfs) : Prop := {
  good_sorted : forall x, x ∈ sorted st <-> x ∈ visited st /\ x ∉ parents st;
  good_nodup : NoDup (sorted st);
  good_order : forall u v, u ∈ sorted st -> edge u v -> before (sorted st) v u;
  good_items : visited st ⊆ items
}.

(** What a call that returns has done to the state. *)
Record Visited (st st' : Dfs) : Prop := {
  vis_good : GoodDfs st';
  vis_parents : parents st' = parents st;
  vis_visited : visited st ⊆ visited st';
  vis_sorted : exists ext, sorted st' = (sorted st ++ ext)%list
}.

Definition VisitSpec (visit : Dfs -> string -> option string -> Outcome (TopoFailure E) Dfs) : Prop :=
  forall st path parent st',
    GoodDfs st -> path ∈ items -> visit st path parent = Returned st' ->
    Visited st st' /\ path ∈ sorted st'.

(** A call is well placed when the items on the path from the root all
    reach the item the call comes from, and the fuel covers what is left
    of the items. *)
Definition reach (u v : string) : Prop := rtc edge u v.

Record Placed (fuel : nat) (st : Dfs) (path : string) (parent : option string) : Prop := {
  placed_items : parents st ⊆ items;
  placed_fuel : (size items < fuel + size (parents st))%nat;
  placed_root : parent = None -> parents st = ∅;
  placed_chain : forall p, parent = Some p -> edge p path /\ forall x, x ∈ parents st -> reach x p
}.

(** The failures of a well placed call: an error of [getChildren], or the
    cycle error for an edge [parent -> path] where [path] reaches [parent]. *)
Inductive Failed : TopoFailure E -> Prop :=
  | Failed_children u e : u ∈ items -> getChildren u = Threw e -> Failed (Raised e)
  | Failed_cycle path parent :
      edge parent path -> reach path parent -> Failed (Raised (makeCycleError path parent)).

Definition FailSpec (fuel : nat)
    (visit : Dfs -> string -> option string -> Outcome (TopoFailure E) Dfs) : Prop :=
  forall st path parent f,
    GoodDfs st -> path ∈ items -> Placed fuel st path parent ->
    visit st path parent = Threw f -> Failed f.

End TopoSortSpec.

(** ** What the first pass of [registerOutputs] leaves behind *)

Section RegisterSpec.
Variable store : Store.
Variable host : Host.
Variable b : Build.

Definition actualPathOf (sp : StorePath) : string :=
  toRealPathChroot store b (printStorePath store sp).

(** An output is wanted unless it was valid before the build and the build
    is no check. *)
Definition wantedOf (io : InitialOutput) : bool :=
  bool_decide (buildMode b = bmCheck) || negb (from_option isValid false (known io)).

Definition discardsReferences (o : string) : bool :=
  from_option (fun udr => udr) false (unsafeDiscardReferences b !! o).

Definition scannedReferences (o : string) (sp : StorePath) : gset StorePath :=
  if discardsReferences o then ∅
  else scanForReferences (fileContents host (actualPathOf sp)) (referenceablePaths b).

(** The state of the locals for one output after the first pass. *)
Definition FirstPassEntry (initial : gmap string InitialOutput) (l : Locals) (o : string) : Prop :=
  exists sp io,
    buildScratchOutputs b !! o = Some sp /\ initial !! o = Some io /\
    initialOutputs l !! o = Some (mkInitialOutput (wantedOf io) (outputHash io) (known io)) /\
    if wantedOf io then
      exists st, maybeLstat host (actualPathOf sp) = Some st /\ suspicious b st = false /\
        outputReferencesIfUnregistered l !! o = Some (PerhapsNeedToRegister (scannedReferences o sp)) /\
        outputStats l !! o = Some st
    else
      exists k, known io = Some k /\ isValid k = true /\
        outputReferencesIfUnregistered l !! o = Some (AlreadyRegistered (path k)).

(** The locals after the first pass over the outputs [done]. *)
Record FirstPass (initial : gmap string InitialOutput) (done : list string) (l : Locals) : Prop := {
  fp_sort : outputsToSort l = list_to_set done;
  fp_entry : forall o, o ∈ done -> FirstPassEntry initial l o;
  fp_todo : forall o, o ∉ done ->
    initialOutputs l !! o = initial !! o /\ outputReferencesIfUnregistered l !! o = None;
  fp_rewrites : outputRewrites l = ∅;
  fp_final : finalOutputs l = ∅;
  fp_infos : infos l = ∅;
  fp_delayed : delayedException l = None
}.

(** Two worlds with the same store: nothing was registered in between. *)
Definition sameStore (w w' : World) : Prop :=
  validPaths w' = validPaths w /\ commits w' = commits w
  /\ drvOutputsRegistered w' = drvOutputsRegistered w.



End RegisterSpec.

(** ** Builds on which the model is run *)

Definition exampleHashPlaceholder (outputName : string) : string :=
  "/placeholder-" ++ outputName.

Definition emptyScratchState : ScratchState := mkScratchState ∅ ∅ ∅ [].

Definition exampleUser : UserLock := mkUserLock 30001 30000 1.

(** A derivation [hello] with the input-addressed outputs [out] and [dev],
    built in a chroot on Linux under a build user; [dev] is valid in the
    store already, [out] is not there yet. *)
Definition helloOut : StorePath := mkStorePath "aaaa" "hello".
Definition helloDev : StorePath := mkStorePath "bbbb" "hello-dev".

Definition helloInitial : gmap string InitialOutput :=
  {[ "out" := mkInitialOutput true (Hash_zero SHA256) (Some (mkStatus helloOut false false));
     "dev" := mkInitialOutput true (Hash_zero SHA256) (Some (mkStatus helloDev true true)) ]}.

Definition helloBuild (mode : BuildMode) : Build :=
  mkBuild Linux false true "/chroot" mode exampleDrvPath "hello"
    {[ "out" := InputAddressed helloOut; "dev" := InputAddressed helloDev ]}
    false ∅ ∅ {[ "out" := helloOut; "dev" := helloDev ]} (Some exampleUser)
    ∅ false false false.

(** The builder wrote [out] and nothing else. *)
Definition helloFiles : gmap string File :=
  {[ "/chroot/nix/store/aaaa-hello" := mkFile regularFile "hello" ]}.

(** A derivation with the floating content-addressed outputs [out] and
    [dev], built without a chroot; the tree of [out] mentions the scratch
    path of [dev]. What [hasExecutable] says is the mode of [dev]. *)
Definition caOut : StorePath :=
  makeFallbackPath_output exampleStore (outputPathName (exampleHost ∅)) exampleDrvPath "hello" "out".
Definition caDev : StorePath :=
  makeFallbackPath_output exampleStore (outputPathName (exampleHost ∅)) exampleDrvPath "hello" "dev".

Definition caInitial : gmap string InitialOutput :=
  {[ "out" := mkInitialOutput true (Hash_zero SHA256) None;
     "dev" := mkInitialOutput true (Hash_zero SHA256) None ]}.

Definition caBuild (mode : BuildMode) (outMethod : ContentAddressMethod) : Build :=
  mkBuild Linux false false "" mode exampleDrvPath "hello"
    {[ "out" := CAFloating outMethod SHA256; "dev" := CAFloating camNixArchive SHA256 ]}
    false ∅ ∅ {[ "out" := caOut; "dev" := caDev ]} None ∅ false false true.

Definition caFiles (outStat : Stat) : gmap string File :=
  {[ printStorePath exampleStore caOut := mkFile outStat ("see " ++ hashPart caDev);
     printStorePath exampleStore caDev := mkFile regularFile "lib" ]}.


Definition noOutputChecks : World -> gmap string ValidPathInfo -> option string :=
  fun _ _ => None.

(** A file system with 4 KiB blocks of which [blocks] are free. *)
Definition freeBlocks (blocks : Z) : string -> option StatVfs :=
  fun _ => Some (mkStatVfs blocks 4096).

(** ** What the second pass of [registerOutputs] does, for the facts below *)

(** A reference after hash rewriting. *)
Definition rewriteRef (rewrites : gmap string string) (r : StorePath) : StorePath :=
  match rewrites !! hashPart r with
  | Some h => mkStorePath h (name r)
  | None => r
  end.

(** The references of an info: the rewritten ones, and the path itself when
    the output refers to itself. *)
Definition withSelf (rr : StoreReferences) (p : StorePath) : gset StorePath :=
  if self rr then {[p]} ∪ others rr else others rr.

(** The two errors that [registerOutputs] keeps in [delayedException]. *)
Definition isDelayedKind (e : Error) : bool :=
  match e with
  | BuildError (HashMismatch _ _ _) | BuildError (FixedOutputReferences _) => true
  | _ => false
  end.

(** The tables of the first pass are the same in both states. *)
Definition sameTables (l l' : Locals) : Prop :=
  initialOutputs l' = initialOutputs l /\ outputsToSort l' = outputsToSort l
  /\ outputReferencesIfUnregistered l' = outputReferencesIfUnregistered l
  /\ outputStats l' = outputStats l.

Section SecondPassSpec.
Variable store : Store.
Variable host : Host.
Variable b : Build.

(** The info [makeInfo] returns for the output [o] in the state [l], and the
    state [l1] it leaves. *)
Definition MadeInfo (l : Locals) (o : string) (output : DerivationOutput) (sp : StorePath)
    (refs : gset StorePath) (info : ValidPathInfo) (l1 : Locals) : Prop :=
  references info = withSelf (rewriteRefs refs sp (outputRewrites l1)) (info_path info)
  /\ sameTables l l1 /\ finalOutputs l1 = finalOutputs l /\ infos l1 = infos l
  /\ match output with
     | InputAddressed p =>
         info_path info = p /\ ca info = None
         /\ outputRewrites l1 =
              (if decide (sp <> p) then <[hashPart sp := hashPart p]> (outputRewrites l)
               else outputRewrites l)
         /\ delayedException l1 = delayedException l
     | CAFixed m wantedHash =>
         exists got, ca info = Some (mkCA m got)
         /\ outputRewrites l1 = outputRewrites l
         /\ delayedException l1 =
              (if decide (references info <> ∅)
               then Some (BuildError (FixedOutputReferences (drvPathS store b)))
               else if decide (wantedHash <> got)
               then Some (BuildError
                            (HashMismatch (drvPathS store b)
                               (Hash_to_string host wantedHash SRI true)
                               (Hash_to_string host got SRI true)))
               else delayedException l)
     | CAFloating m _ | Impure m _ =>
         exists got, ca info = Some (mkCA m got)
         /\ outputRewrites l1 = outputRewrites l
         /\ delayedException l1 = delayedException l
     | Deferred => False
     end.

(** The info that is registered for [newInfo]: with its deriver, trusted
    and signed. *)
Definition finalInfo (newInfo : ValidPathInfo) : ValidPathInfo :=
  signPathInfo host
    (mkInfo (info_path newInfo) (narHash newInfo) (narSize newInfo) (references newInfo)
       (ca newInfo) (Some (drvPath b)) true (sigs newInfo)).


(** [info] is what the second pass made for the output [o] from the
    references the first pass scanned. *)
Definition Registered (l1 : Locals) (o : string) (info : ValidPathInfo) : Prop :=
  exists output sp refs made l0 l0',
    drvOutputs b !! o = Some output /\ buildScratchOutputs b !! o = Some sp /\
    outputReferencesIfUnregistered l1 !! o = Some (PerhapsNeedToRegister refs) /\
    MadeInfo l0 o output sp refs made l0' /\ info = finalInfo made.

(** [e] is the delayed error of a fixed output whose info is in [infos]. *)
Definition Delayed (infos : gmap string ValidPathInfo) (e : Error) : Prop :=
  exists o m wantedHash made got,
    drvOutputs b !! o = Some (CAFixed m wantedHash) /\
    infos !! o = Some (finalInfo made) /\ ca made = Some (mkCA m got) /\
    ((references made <> ∅ /\ e = BuildError (FixedOutputReferences (drvPathS store b)))
     \/ (references made = ∅ /\ wantedHash <> got /\
         e = BuildError
               (HashMismatch (drvPathS store b)
                  (Hash_to_string host wantedHash SRI true)
                  (Hash_to_string host got SRI true)))).

(** The state of the second pass, outside a check build, after the outputs
    [seen], having started from [l1] and [w1]. *)
Record SecondPass (l1 : Locals) (w1 : World) (seen : list string) (l : Locals) (w : World)
    : Prop := {
  s2_tables : sameTables l1 l;
  s2_keys : forall o, is_Some (infos l !! o) -> o ∈ seen;
  s2_infos : forall o info, infos l !! o = Some info -> Registered l1 o info;
  s2_all : forall o refs, o ∈ seen ->
    outputReferencesIfUnregistered l1 !! o = Some (PerhapsNeedToRegister refs) ->
    is_Some (infos l !! o);
  s2_final : forall o, o ∈ seen ->
    exists sp final, buildScratchOutputs b !! o = Some sp /\ finalOutputs l !! o = Some final
      /\ (sp <> final -> is_Some (outputRewrites l !! hashPart sp));
  s2_commits : exists new,
    commits w = (new ++ commits w1)%list /\ validPaths w = ⋃ new ∪ validPaths w1
    /\ forall batch, batch ∈ new ->
         exists o info, infos l !! o = Some info /\ ca info <> None
           /\ batch = {[info_path info := info]};
  s2_drv : drvOutputsRegistered w = drvOutputsRegistered w1;
  s2_delayed : forall e, delayedException l = Some e -> Delayed (infos l) e
}.

End SecondPassSpec.

(** ** The reference graph on outputs *)

Section OutputGraph.
Variable store : Store.
Variable b : Build.

(** [references l u v]: the output [u], which may need registering, refers
    to the scratch path of another output [v] of the derivation. *)
Definition outputRefersTo (l : Locals) (u v : string) : Prop :=
  exists refs spv,
    outputReferencesIfUnregistered l !! u = Some (PerhapsNeedToRegister refs)
    /\ buildScratchOutputs b !! v = Some spv /\ spv ∈ refs
    /\ v <> u /\ v ∈ outputsToSort l.

End OutputGraph.

(** ** The ways in which [registerOutputs] ends outside a check build *)

Section RegisterTrace.
Variable store : Store.
Variable host : Host.
Variable b : Build.

Inductive RegisterTrace (initial : gmap string InitialOutput) (w w' : World)
    (res : Outcome Error (gmap string Realisation)) : Prop :=
  (** the first pass or the sort threw *)
  | Trace_rejected (e : Error) :
      res = Threw e -> isDelayedKind e = false -> sameStore w w' ->
      RegisterTrace initial w w' res
  (** the second pass or the output checks threw, after the outputs [seen] *)
  | Trace_stopped (e : Error) (l1 : Locals) (w1 : World) (seen : list string)
      (l0 : Locals) (w0 : World) :
      res = Threw e -> isDelayedKind e = false ->
      FirstPass store host b initial (ordered (dom (drvOutputs b))) l1 -> sameStore w w1 ->
      SecondPass store host b l1 w1 seen l0 w0 -> sameStore w0 w' ->
      RegisterTrace initial w w' res
  (** the infos were registered; then the delayed error, if any, was thrown *)
  | Trace_committed (l1 : Locals) (w1 : World) (names : list string)
      (l2 : Locals) (w2 : World) :
      FirstPass store host b initial (ordered (dom (drvOutputs b))) l1 -> sameStore w w1 ->
      (forall o, o ∈ names <-> o ∈ dom (drvOutputs b)) ->
      SecondPass store host b l1 w1 names l2 w2 ->
      validPaths w' = infosByPath (infos l2) ∪ validPaths w2 ->
      commits w' = infosByPath (infos l2) :: commits w2 ->
      match delayedException l2 with
      | Some e => res = Threw e
      | None => exists builtOutputs, res = Returned builtOutputs
      end ->
      RegisterTrace initial w w' res.

End RegisterTrace.

(** A fixed-output derivation with the one output [out], declared with the
    hash [expected] of its archive and built at its final path; the build
    has one input. What the builder wrote is [tree]. *)
Definition fixedInput : StorePath := mkStorePath "cccc" "source".
Definition fixedHash : Hash := mkHash SHA256 "expected".
Definition fixedOut : StorePath :=
  makeFixedOutputPathFromCA exampleStore "hello" camNixArchive fixedHash (mkRefs ∅ false).

Definition fixedInitial (valid : bool) : gmap string InitialOutput :=
  {[ "out" := mkInitialOutput true (Hash_zero SHA256) (Some (mkStatus fixedOut valid valid)) ]}.

Definition fixedBuild (mode : BuildMode) : Build :=
  mkBuild Linux false false "" mode exampleDrvPath "hello"
    {[ "out" := CAFixed camNixArchive fixedHash ]}
    false {[ fixedInput ]} ∅ {[ "out" := fixedOut ]} None ∅ false false false.

Definition fixedFiles (tree : string) : gmap string File :=
  {[ printStorePath exampleStore fixedOut := mkFile regularFile tree ]}.


(** ** Readers of a loop state and of an outcome, for the example builds *)

Definition stepLocals (s : Step) : Locals :=
  match s with Continue l _ | Raise _ l _ => l end.

Definition stepWorld (s : Step) : World :=
  match s with Continue _ w | Raise _ _ w => w end.

Definition continues (s : Step) : bool :=
  match s with Continue _ _ => true | Raise _ _ _ => false end.

Definition returned {E A : Type} (o : Outcome E A) : option A :=
  match o with Returned a => Some a | Threw _ => None end.

(** ** [checkOutputs] *)

(** Iteration over a [std::set<StorePath>]: store paths compare by their
    base names. *)
Definition path_le (p q : StorePath) : Prop := string_le (to_string p) (to_string q).

#[global] Instance path_le_dec : RelDecision path_le.
Proof. intros p q. unfold path_le. apply _. Defined.

Definition orderedPaths (s : gset StorePath) : list StorePath :=
  merge_sort path_le (elements s).

(** [DerivationOptions::OutputChecks], by the members [checkOutputs] reads;
    the struct itself is declared outside this file. *)
Record OutputChecks := mkOutputChecks {
  ignoreSelfRefs : bool;
  maxSize : option Z;
  maxClosureSize : option Z;
  allowedReferences : option (gset string);
  allowedRequisites : option (gset string);
  disallowedReferences : gset string;
  disallowedRequisites : gset string
}.

(** [drvOptions.outputChecks]: one set of checks for all outputs, or checks
    per output name. *)
Inductive OutputChecksOption :=
  | ChecksForAll (checks : OutputChecks)
  | ChecksPerOutput (checksPerOutput : gmap string OutputChecks).

Inductive CheckError :=
  | PathTooLarge (path : string) (size limit : Z)
      (* "path '%s' is too large at %d bytes; limit is %d bytes" *)
  | ClosureTooLarge (path : string) (closureSize limit : Z)
      (* "closure of path '%s' is too large at %d bytes; limit is %d bytes" *)
  | IllegalReferenceSpecifier (drv outputName specifier outputsListing : string)
      (* "derivation '%s' output check for '%s' contains an illegal reference specifier '%s',
         expected store path or output name (one of [%s])" *)
  | NotAllowedToRefer (path badPathsStr : string)
      (* "output '%s' is not allowed to refer to the following paths:%s" *)
  | InvalidPath (path : StorePath).
      (* thrown by [queryPathInfo] on a path that is not valid *)

(** A computation that is cut off when its fuel is used up ([None]). *)
Definition bindR {E A B} (m : option (Outcome E A)) (k : A -> option (Outcome E B))
    : option (Outcome E B) :=
  match m with
  | Some (Returned a) => k a
  | Some (Threw e) => Some (Threw e)
  | None => None
  end.

(** [closureSize += narSize] on [uint64_t]. *)
Definition uint64_add (a b : Z) : Z := (a + b) mod 2 ^ 64.

Section CheckOutputs.

Variable store : Store.
Variable isStorePath : string -> bool.
Variable parseStorePath : string -> StorePath.
Variable drvPath : StorePath.
Variable outputChecks : OutputChecksOption.
(** the store, read through [queryPathInfo] *)
Variable w : World.
Variable outputs : gmap string ValidPathInfo.

Definition outputsByPath : gmap string ValidPathInfo :=
  foldl (fun acc e => emplace (printStorePath store (info_path e.2)) e.2 acc) ∅
    (ordered_entries outputs).

(** The info [getClosure] reads for a path: the one of an output of this
    build, or else the one of the store. *)
Definition closureInfo (path : StorePath) : option ValidPathInfo :=
  match outputsByPath !! printStorePath store path with
  | Some i => Some i
  | None => validPaths w !! path
  end.

(** The [while (!pathsLeft.empty())] loop of [getClosure]. *)
Fixpoint closureLoop (fuel : nat) (pathsLeft : list StorePath) (pathsDone : gset StorePath)
    (closureSize : Z) : option (Outcome CheckError (gset StorePath * Z)) :=
  match fuel with
  | O => None
  | S fuel' =>
      match pathsLeft with
      | [] => Some (Returned (pathsDone, closureSize))
      | path :: rest =>
          if decide (path ∈ pathsDone) then closureLoop fuel' rest pathsDone closureSize
          else
            match closureInfo path with
            | Some i =>
                closureLoop fuel' (rest ++ orderedPaths (references i))%list
                  ({[path]} ∪ pathsDone) (uint64_add closureSize (narSize i))
            | None => Some (Threw (InvalidPath path))
            end
      end
  end.

(** Every path the loop can meet: the start and the references of the
    infos of the outputs and of the store. *)
Definition closureUniverse (path : StorePath) : gset StorePath :=
  {[path]} ∪ ⋃ (references <$> ((map_to_list outputs).*2 ++ (map_to_list (validPaths w)).*2)%list).

(** Iterations that are enough for the loop to end. *)
Definition closureFuel (path : StorePath) : nat :=
  S (S (size (closureUniverse path) * S (size (closureUniverse path)))).

Definition getClosure (path : StorePath) : option (Outcome CheckError (gset StorePath * Z)) :=
  closureLoop (closureFuel path) [path] ∅ 0.

Definition outputsListing : string :=
  String.concat ", " (ordered (dom outputs)).

(** The specifiers of a check, each a store path or the name of an output. *)
Definition parseSpecifiers (outputName : string) (value : gset string)
    : Outcome CheckError (gset StorePath) :=
  foldl
    (fun acc i =>
       spec <- acc ;;
       if isStorePath i then Returned ({[parseStorePath i]} ∪ spec)
       else
         match outputs !! i with
         | Some output => Returned ({[info_path output]} ∪ spec)
         | None =>
             Threw (IllegalReferenceSpecifier (printStorePath store drvPath) outputName i
                      outputsListing)
         end)
    (Returned ∅) (ordered value).

Definition badPathsStr (badPaths : gset StorePath) : string :=
  foldl (fun s i => s ++ String (Ascii.ascii_of_nat 10) "  " ++ printStorePath store i) "" (orderedPaths badPaths).

Definition checkRefs (outputName : string) (info : ValidPathInfo) (checks : OutputChecks)
    (value : gset string) (allowed recursive : bool) : option (Outcome CheckError unit) :=
  match parseSpecifiers outputName value with
  | Threw e => Some (Threw e)
  | Returned spec =>
      bindR (if recursive then bindR (getClosure (info_path info)) (fun c => Some (Returned c.1))
             else Some (Returned (references info)))
        (fun used0 =>
           let used :=
             if recursive && ignoreSelfRefs checks then used0 ∖ {[info_path info]} else used0 in
           let badPaths :=
             filter (fun i => (if allowed then negb (bool_decide (i ∈ spec))
                               else bool_decide (i ∈ spec)) = true) used in
           if decide (badPaths <> ∅)
           then Some (Threw (NotAllowedToRefer (printStorePath store (info_path info))
                               (badPathsStr badPaths)))
           else Some (Returned tt))
  end.

Definition applyChecks (outputName : string) (info : ValidPathInfo) (checks : OutputChecks)
    : option (Outcome CheckError unit) :=
  bindR (match maxSize checks with
         | Some limit =>
             if (limit <? narSize info)%Z
             then Some (Threw (PathTooLarge (printStorePath store (info_path info))
                                 (narSize info) limit))
             else Some (Returned tt)
         | None => Some (Returned tt)
         end) (fun _ =>
  bindR (match maxClosureSize checks with
         | Some limit =>
             bindR (getClosure (info_path info)) (fun c =>
               if (limit <? c.2)%Z
               then Some (Threw (ClosureTooLarge (printStorePath store (info_path info))
                                   c.2 limit))
               else Some (Returned tt))
         | None => Some (Returned tt)
         end) (fun _ =>
  bindR (match allowedReferences checks with
         | Some refs => checkRefs outputName info checks refs true false
         | None => Some (Returned tt)
         end) (fun _ =>
  bindR (match allowedRequisites checks with
         | Some refs => checkRefs outputName info checks refs true true
         | None => Some (Returned tt)
         end) (fun _ =>
  bindR (if decide (disallowedReferences checks <> ∅)
         then checkRefs outputName info checks (disallowedReferences checks) false false
         else Some (Returned tt)) (fun _ =>
  if decide (disallowedRequisites checks <> ∅)
  then checkRefs outputName info checks (disallowedRequisites checks) false true
  else Some (Returned tt)))))).

(** The checks that apply to an output ([std::visit] over the option). *)
Definition checksOf (outputName : string) : option OutputChecks :=
  match outputChecks with
  | ChecksForAll checks => Some checks
  | ChecksPerOutput checksPerOutput => checksPerOutput !! outputName
  end.

Definition checkOutput1 (e : string * ValidPathInfo) : option (Outcome CheckError unit) :=
  match checksOf e.1 with
  | Some checks => applyChecks e.1 e.2 checks
  | None => Some (Returned tt)
  end.

Fixpoint checkEach (es : list (string * ValidPathInfo)) : option (Outcome CheckError unit) :=
  match es with
  | [] => Some (Returned tt)
  | e :: rest => bindR (checkOutput1 e) (fun _ => checkEach rest)
  end.

Definition checkOutputs : option (Outcome CheckError unit) :=
  checkEach (ordered_entries outputs).

(** [q] is a reference of [p], as [getClosure] reads the references. *)
Definition closureEdge (p q : StorePath) : Prop :=
  exists i, closureInfo p = Some i /\ q ∈ references i.

(** The sizes of the paths of [s], added up. *)
Definition sizeOfPaths (s : gset StorePath) : Z :=
  foldr (fun p acc => (from_option narSize 0 (closureInfo p) + acc)%Z) 0%Z (elements s).

(** What the loop of [getClosure] keeps: the paths done have an info and
    their references are done or queued, everything done or queued is
    reached from the start, and the size is the one of the paths done. *)
Record ClosureInv (start : StorePath) (pathsLeft : list StorePath)
    (pathsDone : gset StorePath) (closureSize : Z) : Prop := {
  ci_closed : forall p q, p ∈ pathsDone -> closureEdge p q -> q ∈ pathsDone \/ q ∈ pathsLeft;
  ci_info : forall p, p ∈ pathsDone -> is_Some (closureInfo p);
  ci_reached : forall q, q ∈ pathsDone \/ q ∈ pathsLeft -> rtc closureEdge start q;
  ci_start : start ∈ pathsDone \/ start ∈ pathsLeft;
  ci_size : closureSize = (sizeOfPaths pathsDone mod 2 ^ 64)%Z
}.

(** What [getClosure] hands back for [start]. *)
Definition ClosurePost (start : StorePath)
    (res : Outcome CheckError (gset StorePath * Z)) : Prop :=
  match res with
  | Returned (pathsDone, closureSize) =>
      (forall q, q ∈ pathsDone <-> rtc closureEdge start q)
      /\ (forall q, q ∈ pathsDone -> is_Some (closureInfo q))
      /\ closureSize = (sizeOfPaths pathsDone mod 2 ^ 64)%Z
  | Threw e =>
      exists q, e = InvalidPath q /\ rtc closureEdge start q /\ closureInfo q = None
  end.

(** The path a reference specifier stands for, if it is a legal one. *)
Definition specifierPath (i : string) : option StorePath :=
  if isStorePath i then Some (parseStorePath i) else info_path <$> outputs !! i.

Definition namedBy (value : gset string) (p : StorePath) : Prop :=
  exists i, i ∈ value /\ specifierPath i = Some p.

(** The paths a check on references looks at: the references of the
    output, or its closure (without the output itself when self-references
    are ignored). *)
Definition usedBy (info : ValidPathInfo) (checks : OutputChecks) (recursive : bool)
    (q : StorePath) : Prop :=
  if recursive
  then rtc closureEdge (info_path info) q
       /\ (ignoreSelfRefs checks = true -> q <> info_path info)
  else q ∈ references info.

(** A check on references is met. *)
Definition RefsHold (info : ValidPathInfo) (checks : OutputChecks) (value : gset string)
    (allowed recursive : bool) : Prop :=
  (forall i, i ∈ value -> is_Some (specifierPath i))
  /\ (recursive = true ->
      forall q, rtc closureEdge (info_path info) q -> is_Some (closureInfo q))
  /\ forall q, usedBy info checks recursive q ->
       if allowed then namedBy value q else ~ namedBy value q.

(** All checks on an output are met. *)
Definition ChecksHold (info : ValidPathInfo) (checks : OutputChecks) : Prop :=
  (forall limit, maxSize checks = Some limit -> (narSize info <= limit)%Z)
  /\ (forall limit, maxClosureSize checks = Some limit ->
        exists closure,
          (forall q, q ∈ closure <-> rtc closureEdge (info_path info) q)
          /\ (forall q, q ∈ closure -> is_Some (closureInfo q))
          /\ (sizeOfPaths closure mod 2 ^ 64 <= limit)%Z)
  /\ (forall refs, allowedReferences checks = Some refs -> RefsHold info checks refs true false)
  /\ (forall refs, allowedRequisites checks = Some refs -> RefsHold info checks refs true true)
  /\ (disallowedReferences checks <> ∅ ->
      RefsHold info checks (disallowedReferences checks) false false)
  /\ (disallowedRequisites checks <> ∅ ->
      RefsHold info checks (disallowedRequisites checks) false true).

End CheckOutputs.
(** ** What a check build may change in the store *)

(** Every info is filed under its own path. *)
Definition WellKeyed (w : World) : Prop :=
  forall p i, validPaths w !! p = Some i -> info_path i = p.

(** [w'] has the valid paths of [w], with the same contents; an info may
    have become ultimately trusted and have gained signatures. *)
Definition CheckKept (w w' : World) : Prop :=
  (forall p, is_Some (validPaths w' !! p) <-> is_Some (validPaths w !! p))
  /\ (forall p i', validPaths w' !! p = Some i' ->
        exists i, validPaths w !! p = Some i
          /\ info_path i' = info_path i /\ narHash i' = narHash i /\ narSize i' = narSize i
          /\ references i' = references i /\ ca i' = ca i /\ deriver i' = deriver i
          /\ (i' = i \/ (ultimate i = false /\ ultimate i' = true)))
  /\ drvOutputsRegistered w' = drvOutputsRegistered w.

(** The delayed exception is never [NotDeterministic]. *)
Definition delayedIsBuildError (l : Locals) : Prop :=
  forall e, delayedException l = Some e -> isNotDeterministic e = false.

(** ** Strings: the first occurrence of a character *)

(** [s.find(c)], as the part before and the part after the character. *)
Fixpoint splitFirst (c : Ascii.ascii) (s : string) : option (string * string) :=
  match s with
  | EmptyString => None
  | String a rest =>
      if Ascii.eqb a c then Some (EmptyString, rest)
      else
        match splitFirst c rest with
        | Some (before, after) => Some (String a before, after)
        | None => None
        end
  end.

(** ** Output checks on the example build *)

(** The store paths under [/nix/store], as [exampleStore] prints them. *)
Definition exampleIsStorePath (s : string) : bool := String.prefix "/nix/store/" s.

Definition exampleParseStorePath (s : string) : StorePath :=
  let base := dropString 11 s in
  match splitFirst "-"%char base with
  | Some (h, n) => mkStorePath h n
  | None => mkStorePath base ""
  end.

Definition helloInfo (p : StorePath) (refs : gset StorePath) (size : Z) : ValidPathInfo :=
  mkInfo p (mkHash SHA256 (name p)) size refs None (Some exampleDrvPath) true [].

(** [out] refers to itself and to [dev]. *)
Definition helloOutputs : gmap string ValidPathInfo :=
  {[ "out" := helloInfo helloOut {[helloOut; helloDev]} 100;
     "dev" := helloInfo helloDev ∅ 20 ]}.

Definition helloChecks : OutputChecks :=
  mkOutputChecks false (Some 1000%Z) (Some 1000%Z)
    (Some {["out"; "dev"]}) (Some {["out"; "/nix/store/bbbb-hello-dev"]})
    ∅ {["/nix/store/cccc-source"]}.

(** The store in which the declared path of the fixed output is valid
    with another archive hash than the one of the tree [expected]. *)
Definition staleWorld : World :=
  mkWorld
    {[ fixedOut := mkInfo fixedOut (mkHash SHA256 "older") 5 ∅
                     (Some (mkCA camNixArchive fixedHash)) (Some exampleDrvPath) false [] ]}
    [] [] [] [].

(** The store in which the declared path of the fixed output is valid with
    the archive hash of the tree [expected], but not ultimately trusted. *)
Definition untrustedWorld : World :=
  mkWorld
    {[ fixedOut := mkInfo fixedOut (mkHash SHA256 "expected") 8 ∅
                     (Some (mkCA camNixArchive fixedHash)) (Some exampleDrvPath) false [] ]}
    [] [] [] [].

(** ** The paths of the sandbox ([startBuilder]) *)

(** [ChrootPath]: where a path of the sandbox comes from, and whether it
    may be missing. *)
Record ChrootPath := mkChrootPath { source : string; optional : bool }.

#[global] Instance ChrootPath_eq_dec : EqDecision ChrootPath.
Proof. solve_decision. Defined.

(** The mark of an optional entry: a last character [?], taken off. *)
Fixpoint stripOptional (i : string) : string * bool :=
  match i with
  | EmptyString => (EmptyString, false)
  | String a rest =>
      match rest with
      | EmptyString => if Ascii.eqb a "?" then (EmptyString, true) else (i, false)
      | String _ _ => let r := stripOptional rest in (String a r.1, r.2)
      end
  end.

(** One entry of the [sandbox-paths] setting: [target], [target=source],
    either with a [?] at its end. *)
Definition sandboxPathEntry (i : string) : string * ChrootPath :=
  let '(i1, isOptional) := stripOptional i in
  match splitFirst "=" i1 with
  | None => (i1, mkChrootPath i1 isOptional)
  | Some (target, src) => (target, mkChrootPath src isOptional)
  end.

Definition addSandboxPaths (sandboxPaths : gset string) : gmap string ChrootPath :=
  foldl
    (fun acc i =>
       if String.eqb i "" then acc
       else let e := sandboxPathEntry i in <[e.1 := e.2]> acc)
    ∅ (ordered sandboxPaths).

(** What [computeFSClosure] did to the set it was given: it added the
    closure, or it threw [InvalidPath] or another error after having added
    a part of it. *)
Inductive ClosureResult :=
  | ClosureAdded (paths : gset StorePath)
  | ClosureInvalidPath (partial : gset StorePath)
  | ClosureFailed (msg : string).

Inductive BuildHookState := stBegin | stExtraChrootDirs.

Inductive SandboxError :=
  | BuildDirContainsStoreDir
      (* "`sandbox-build-dir` must not contain the storeDir" *)
  | SandboxPathsFailed (msg : string)
      (* an error of the closure computation, "while processing 'sandbox-paths'" *)
  | ImpurePathNotAllowed (drv path : string)
      (* "derivation '%s' requested impure path '%s', but it was not in allowed-impure-host-deps" *)
  | UidRangeNeedsAutoAllocate
      (* "feature 'uid-range' requires the setting '%s' to be enabled" *)
  | UidRangeUnsupported
      (* "feature 'uid-range' is not supported on this platform" *)
  | SandboxingUnsupported
      (* "sandboxing builds is not supported on this platform" *)
  | UidRangeNeedsSandbox
      (* "feature 'uid-range' is only supported in sandboxed builds" *)
  | HomeDirExists
      (* "home directory '%1%' exists; please remove it to assure purity of builds without sandboxing" *)
  | UnknownHookCommand (line : string).
      (* "unknown pre-build hook command '%1%'" *)

Definition newline : Ascii.ascii := Ascii.ascii_of_nat 10.

(** The lines of the output of the pre-build hook: each ends at a newline;
    what follows the last newline is no line. [cur] is the line so far. *)
Fixpoint hookLines (cur s : string) : list string :=
  match s with
  | EmptyString => []
  | String c rest =>
      if Ascii.eqb c newline then cur :: hookLines EmptyString rest
      else hookLines (cur ++ String c EmptyString) rest
  end.

(** One line of the hook's output. *)
Definition hookStep (acc : BuildHookState * gmap string ChrootPath) (line : string)
    : Outcome SandboxError (BuildHookState * gmap string ChrootPath) :=
  match acc.1 with
  | stBegin =>
      if String.eqb line "extra-sandbox-paths" || String.eqb line "extra-chroot-dirs"
      then Returned (stExtraChrootDirs, acc.2)
      else Threw (UnknownHookCommand line)
  | stExtraChrootDirs =>
      if String.eqb line "" then Returned (stBegin, acc.2)
      else
        match splitFirst "=" line with
        | None => Returned (stExtraChrootDirs, <[line := mkChrootPath line false]> acc.2)
        | Some (target, src) =>
            Returned (stExtraChrootDirs, <[target := mkChrootPath src false]> acc.2)
        end
  end.

Fixpoint hookLoop (lines : list string) (acc : BuildHookState * gmap string ChrootPath)
    : Outcome SandboxError (BuildHookState * gmap string ChrootPath) :=
  match lines with
  | [] => Returned acc
  | line :: rest => acc' <- hookStep acc line ;; hookLoop rest acc'
  end.

(** Settings, derivation options and host facts read while the paths of
    the sandbox are put together. *)
Record SandboxEnv := mkSandboxEnv {
  sandboxPaths : gset string;                 (* settings.sandboxPaths *)
  storeDir : string;
  tmpDirInSandbox : string;
  tmpDir : string;
  allowedImpureHostPrefixes : gset string;
  impureHostDeps : gset string;               (* drvOptions.impureHostDeps *)
  useUidRange : bool;                         (* drvOptions.useUidRange(drv) *)
  homeDirExists : bool;                       (* pathExists(homeDir) *)
  preBuildHook : string                       (* settings.preBuildHook *)
}.

Section SandboxPaths.

Variable store : Store.
Variable b : Build.
Variable env : SandboxEnv.
Variable isInStore : string -> bool.
Variable toStorePath : string -> StorePath.
Variable computeFSClosure : StorePath -> ClosureResult.
Variable canonPath : string -> string.
Variable isDirOrInDir : string -> string -> bool.
(** [DerivationOutput::path]: the path of an output that is known before
    the build. *)
Variable outputPath : string -> DerivationOutput -> option StorePath.
(** the output of the pre-build hook, run on these arguments *)
Variable runPreBuildHook : list string -> string.

(** "Add the closure of store paths to the chroot." *)
Definition sandboxClosure (pathsInChroot : gmap string ChrootPath)
    : Outcome SandboxError (gset StorePath) :=
  foldl
    (fun acc i =>
       closure <- acc ;;
       if isInStore (source i.2) then
         match computeFSClosure (toStorePath (source i.2)) with
         | ClosureAdded paths => Returned (paths ∪ closure)
         | ClosureInvalidPath partial => Returned (partial ∪ closure)
         | ClosureFailed msg => Threw (SandboxPathsFailed msg)
         end
       else Returned closure)
    (Returned ∅) (ordered_entries pathsInChroot).

Definition addClosure (closure : gset StorePath) (pathsInChroot : gmap string ChrootPath)
    : gmap string ChrootPath :=
  foldl
    (fun acc i =>
       <[printStorePath store i := mkChrootPath (printStorePath store i) false]> acc)
    pathsInChroot (orderedPaths closure).

Definition impurePathAllowed (i : string) : bool :=
  existsb (fun a => isDirOrInDir (canonPath i) (canonPath a))
    (ordered (allowedImpureHostPrefixes env)).

(** "This works like the above, except on a per-derivation level." *)
Definition addImpurePaths (pathsInChroot : gmap string ChrootPath)
    : Outcome SandboxError (gmap string ChrootPath) :=
  foldl
    (fun acc i =>
       paths <- acc ;;
       if impurePathAllowed i then Returned (<[i := mkChrootPath i true]> paths)
       else Threw (ImpurePathNotAllowed (printStorePath store (drvPath b)) i))
    (Returned pathsInChroot) (ordered (impureHostDeps env)).

Definition addInputPaths (pathsInChroot : gmap string ChrootPath) : gmap string ChrootPath :=
  foldl
    (fun acc i =>
       let p := printStorePath store i in
       <[p := mkChrootPath (toRealPath store p) false]> acc)
    pathsInChroot (orderedPaths (inputPaths b)).

(** "it's possible that we're rebuilding a path that is in
    settings.sandbox-paths ... Throw them out." *)
Definition eraseOutputs (pathsInChroot : gmap string ChrootPath) : gmap string ChrootPath :=
  foldl
    (fun acc i =>
       match outputPath i.1 i.2 with
       | Some p => delete (printStorePath store p) acc
       | None => acc
       end)
    pathsInChroot (ordered_entries (drvOutputs b)).

(** The block [if (useChroot)] of [startBuilder]. The directories and
    files it makes in the chroot are left out. *)
Definition chrootPaths : Outcome SandboxError (gmap string ChrootPath) :=
  let paths1 := addSandboxPaths (sandboxPaths env) in
  if String.prefix (tmpDirInSandbox env) (storeDir env) then Threw BuildDirContainsStoreDir
  else
    let paths2 := <[tmpDirInSandbox env := mkChrootPath (tmpDir env) false]> paths1 in
    closure <- sandboxClosure paths2 ;;
    paths4 <- addImpurePaths (addClosure closure paths2) ;;
    match platform b with
    | Linux =>
        if useUidRange env
           && match buildUser b with
              | Some u => (getUIDCount u <? 65536)%Z
              | None => true
              end
        then Threw UidRangeNeedsAutoAllocate
        else Returned (eraseOutputs (addInputPaths paths4))
    | Darwin => if useUidRange env then Threw UidRangeUnsupported else Returned paths4
    | OtherUnix =>
        if useUidRange env then Threw UidRangeUnsupported else Threw SandboxingUnsupported
    end.

(** The pre-build hook, which may name more paths for the sandbox. *)
Definition preBuildHookPaths (pathsInChroot : gmap string ChrootPath)
    : Outcome SandboxError (gmap string ChrootPath) :=
  let lines :=
    hookLines EmptyString
      (runPreBuildHook [printStorePath store (drvPath b); chrootRootDir b]) in
  r <- hookLoop lines (stBegin, pathsInChroot) ;;
  Returned r.2.

(** [startBuilder], from the paths of the sandbox to the pre-build hook.
    [pathsInChroot] is the member as it is before. *)
Definition startBuilder_sandbox (pathsInChroot : gmap string ChrootPath)
    : Outcome SandboxError (gmap string ChrootPath) :=
  paths <- (if useChroot b then chrootPaths
            else if useUidRange env then Threw UidRangeNeedsSandbox
            else Returned pathsInChroot) ;;
  if needsHashRewrite (platform b) (useChroot b) && homeDirExists env then Threw HomeDirExists
  else if useChroot b && negb (String.eqb (preBuildHook env) "") then preBuildHookPaths paths
  else Returned paths.

(** [k] is the printed path of an output whose path is known before the
    build. *)
Definition knownOutput (k : string) : Prop :=
  exists o output p,
    drvOutputs b !! o = Some output /\ outputPath o output = Some p
    /\ printStorePath store p = k.

End SandboxPaths.


(** The path a line of a block of the pre-build hook names. *)
Definition hookEntry (line : string) : string * ChrootPath :=
  match splitFirst "=" line with
  | None => (line, mkChrootPath line false)
  | Some (target, src) => (target, mkChrootPath src false)
  end.

(** A block of the hook's output: the command, the lines, a blank line. *)
Definition hookBlock (lines : list string) : string :=
  "extra-sandbox-paths" ++ String newline
    (foldr (fun line rest => line ++ String newline rest) (String newline EmptyString) lines).

(** ** A sandbox for the example build *)

(** The shell of the sandbox comes from the store, and so does the output
    [out] of the build itself; [/etc/hosts] may be missing. The derivation
    asks for one impure path under [/usr/lib]. *)
Definition exampleSandboxEnv (hook : string) : SandboxEnv :=
  mkSandboxEnv
    {[ "/bin/sh=/nix/store/cccc-source/bin/sh"; "/nix/store/aaaa-hello"; "/etc/hosts?" ]}
    "/nix/store" "/build" "/tmp/nix-build-hello/build"
    {[ "/usr/lib" ]} {[ "/usr/lib/libSystem.dylib" ]}
    false false hook.

Definition exampleIsInStore (s : string) : bool := String.prefix "/nix/store/" s.

(** The store path a path inside the store lies in. *)
Definition exampleToStorePath (s : string) : StorePath :=
  let base := dropString 11 s in
  let top := match splitFirst "/" base with Some (t, _) => t | None => base end in
  match splitFirst "-" top with
  | Some (h, n) => mkStorePath h n
  | None => mkStorePath top ""
  end.

(** Every path is its own closure. *)
Definition exampleFSClosure (p : StorePath) : ClosureResult := ClosureAdded {[p]}.

Definition exampleIsDirOrInDir (path dir : string) : bool :=
  String.eqb path dir || String.prefix (dir ++ "/") path.

(** [DerivationOutput::path] for the outputs of the example builds. *)
Definition exampleOutputPath (outputName : string) (output : DerivationOutput)
    : option StorePath :=
  match output with
  | InputAddressed p => Some p
  | CAFixed m h =>
      Some (makeFixedOutputPathFromCA exampleStore
              (outputPathName (exampleHost ∅) "hello" outputName) m h (mkRefs ∅ false))
  | _ => None
  end.

(** The build of [hello] with the input [source]. *)
Definition helloBuildWithInput : Build :=
  mkBuild Linux false true "/nix/store/drvhash-hello.drv.chroot/root" bmNormal exampleDrvPath
    "hello"
    {[ "out" := InputAddressed helloOut; "dev" := InputAddressed helloDev ]}
    false {[ fixedInput ]} ∅ {[ "out" := helloOut; "dev" := helloDev ]} (Some exampleUser)
    ∅ false false false.

Definition exampleSandbox (hookOutput : string) : Outcome SandboxError (gmap string ChrootPath) :=
  startBuilder_sandbox exampleStore helloBuildWithInput
    (exampleSandboxEnv (if String.eqb hookOutput "" then "" else "/etc/nix/pre-build-hook"))
    exampleIsInStore exampleToStorePath exampleFSClosure (fun p => p) exampleIsDirOrInDir
    exampleOutputPath (fun _ => hookOutput) ∅.

(** * Facts *)

Open Scope list_scope.

(** ** Iteration order *)

Lemma elem_of_ordered (s : gset string) (x : string) : x ∈ ordered s <-> x ∈ s.
Proof.
  unfold ordered. rewrite merge_sort_Permutation. apply elem_of_elements.
Qed.

Lemma NoDup_ordered (s : gset string) : NoDup (ordered s).
Proof.
  unfold ordered. rewrite merge_sort_Permutation. apply NoDup_elements.
Qed.

Lemma elem_of_ordered_entries {V} (m : gmap string V) (k : string) (v : V) :
  (k, v) ∈ ordered_entries m <-> m !! k = Some v.
Proof.
  unfold ordered_entries. rewrite merge_sort_Permutation. apply elem_of_map_to_list.
Qed.

Lemma NoDup_ordered_entries {V} (m : gmap string V) : NoDup (ordered_entries m).*1.
Proof.
  unfold ordered_entries. rewrite merge_sort_Permutation. apply NoDup_fst_map_to_list.
Qed.

(** ** Scratch paths *)

Section ScratchFacts.
Variable store : Store.
Variable outputPathName : string -> string -> string.
Variable hashPlaceholder : string -> string.
Variable platform : Platform.
Variable useChroot : bool.
Variable buildMode : BuildMode.
Variable drvPath : StorePath.
Variable drvName : string.

Abbreviation scratchPathOf' := (scratchPathOf store outputPathName platform useChroot buildMode drvPath drvName).
Abbreviation scratchStep' := (scratchStep store outputPathName hashPlaceholder platform useChroot buildMode drvPath drvName).
Abbreviation scratchLoop' := (scratchLoop store outputPathName hashPlaceholder platform useChroot buildMode drvPath drvName).
Abbreviation fallback := (makeFallbackPath store drvPath).

Lemma scratchPathOf_table (outputName : string) (status : InitialOutput) :
  scratchPathOf' outputName status =
  scratchPath_table store outputPathName platform useChroot buildMode drvPath drvName
    outputName (path <$> known status)
    (from_option isPresent false (known status))
    (from_option isValid false (known status)).
Proof.
  unfold scratchPathOf, scratchPath_table, firstRow.
  destruct (known status) as [k|]; simpl; [|done].
  destruct (needsHashRewrite platform useChroot); simpl; [|done].
  destruct (isPresent k); simpl; [|done].
  destruct (bool_decide (buildMode <> bmRepair)), (isValid k); done.
Qed.

(** A scratch path that is not the known final path is the fallback path
    made from that final path. *)
Lemma scratchPathOf_redirected (outputName : string) (status : InitialOutput) (k : InitialOutputStatus) :
  known status = Some k ->
  path k <> scratchPathOf' outputName status ->
  scratchPathOf' outputName status = fallback (path k).
Proof.
  unfold scratchPathOf. intros -> Hne.
  repeat case_match; try done.
Qed.

Lemma scratchStep_scratchOutputs_other st e (n : string) :
  e.1 <> n -> scratchOutputs (scratchStep' st e) !! n = scratchOutputs st !! n.
Proof.
  destruct e as [o status]; simpl. intros Hne. unfold scratchStep.
  destruct (known status) as [k|]; [case_decide|]; simpl; by rewrite lookup_insert_ne.
Qed.

Lemma scratchLoop_scratchOutputs_other es st (n : string) :
  n ∉ es.*1 -> scratchOutputs (scratchLoop' st es) !! n = scratchOutputs st !! n.
Proof.
  revert st. induction es as [|e es IH]; intros st Hn; [done|].
  rewrite fmap_cons, not_elem_of_cons in Hn. destruct Hn as [Hne Hn].
  unfold scratchLoop in *. simpl. rewrite IH by done.
  by apply scratchStep_scratchOutputs_other.
Qed.

Lemma scratchStep_scratchOutputs st (o : string) status :
  scratchOutputs (scratchStep' st (o, status)) !! o = Some (scratchPathOf' o status).
Proof.
  unfold scratchStep.
  destruct (known status) as [k|]; [case_decide|]; simpl; by rewrite lookup_insert_eq.
Qed.

(** Every entry of [redirectedOutputs] maps a final path to its fallback. *)
Definition redirectsToFallback (st : ScratchState) : Prop :=
  forall f s, redirectedOutputs st !! f = Some s -> s = fallback f.

Lemma scratchStep_redirect_stable st e f :
  redirectedOutputs st !! f = Some (fallback f) ->
  redirectedOutputs (scratchStep' st e) !! f = Some (fallback f).
Proof.
  destruct e as [o status]. intros Hf. unfold scratchStep.
  destruct (known status) as [k|] eqn:Hk; [case_decide as Hd|]; simpl; try done.
  destruct (decide (path k = f)) as [<-|Hne].
  - rewrite lookup_insert_eq. f_equal. by eapply scratchPathOf_redirected.
  - by rewrite lookup_insert_ne.
Qed.

Lemma scratchLoop_redirect_stable es st f :
  redirectedOutputs st !! f = Some (fallback f) ->
  redirectedOutputs (scratchLoop' st es) !! f = Some (fallback f).
Proof.
  revert st. induction es as [|e es IH]; intros st Hf; [done|].
  simpl. apply IH. by apply scratchStep_redirect_stable.
Qed.

Lemma scratchStep_installs st (o : string) status k :
  known status = Some k ->
  path k <> scratchPathOf' o status ->
  let st' := scratchStep' st (o, status) in
  inputRewrites st' !! hashPart (path k) = Some (hashPart (scratchPathOf' o status))
  /\ redirectedOutputs st' !! path k = Some (scratchPathOf' o status)
  /\ deletedPaths st' = printStorePath store (scratchPathOf' o status) :: deletedPaths st.
Proof.
  intros Hk Hne. unfold scratchStep. rewrite Hk.
  case_decide; [done|]. simpl. by rewrite !lookup_insert_eq.
Qed.

(** C1. For every output of the derivation the scratch path is the one the
    table yields (first matching row: final path unknown, no hash rewriting
    needed, final path not present, not repairing and present but invalid,
    otherwise the fallback made from the final path), and it is what
    [scratchOutputs] holds for the output when the loop is over. When the
    scratch path differs from a known final path, the iteration for that
    output leaves [inputRewrites] mapping the final hash part to the scratch
    hash part and [redirectedOutputs] mapping the final path to the scratch
    path, and [redirectedOutputs] still does so when the loop is over. *)
Theorem scratch_path_chosen_by_table
    (st0 : ScratchState) (initialOutputs : gmap string InitialOutput)
    (outputName : string) (status : InitialOutput) :
  initialOutputs !! outputName = Some status ->
  let scratch := scratchPathOf' outputName status in
  let final :=
    startBuilder_outputs store outputPathName hashPlaceholder platform useChroot buildMode
      drvPath drvName st0 initialOutputs in
  scratch =
    scratchPath_table store outputPathName platform useChroot buildMode drvPath drvName
      outputName (path <$> known status)
      (from_option isPresent false (known status))
      (from_option isValid false (known status))
  /\ scratchOutputs final !! outputName = Some scratch
  /\ exists before later,
       ordered_entries initialOutputs = (before ++ (outputName, status) :: later)%list
       /\ let after := scratchStep' (scratchLoop' st0 before) (outputName, status) in
          final = scratchLoop' after later
          /\ forall k, known status = Some k -> path k <> scratch ->
               inputRewrites after !! hashPart (path k) = Some (hashPart scratch)
               /\ redirectedOutputs after !! path k = Some scratch
               /\ redirectedOutputs final !! path k = Some scratch.
Proof.
  intros Hin scratch final.
  split; [apply scratchPathOf_table|].
  apply elem_of_ordered_entries in Hin.
  destruct (list_elem_of_split _ _ Hin) as (before & later & Hsplit).
  pose proof (NoDup_ordered_entries initialOutputs) as Hnd.
  rewrite Hsplit, fmap_app, fmap_cons in Hnd.
  apply NoDup_app in Hnd as (_ & _ & Hnd).
  apply NoDup_cons in Hnd as [Hlater _]. simpl in Hlater.
  assert (Hfinal : final =
            scratchLoop' (scratchStep' (scratchLoop' st0 before) (outputName, status)) later).
  { subst final. unfold startBuilder_outputs, scratchLoop. rewrite Hsplit.
    by rewrite foldl_app. }
  split.
  - rewrite Hfinal, scratchLoop_scratchOutputs_other by done.
    apply scratchStep_scratchOutputs.
  - exists before, later. split; [done|]. split; [done|].
    intros k Hk Hne.
    destruct (scratchStep_installs (scratchLoop' st0 before) outputName status k Hk Hne)
      as (Hrw & Hred & _).
    split; [done|]. split; [done|].
    rewrite Hfinal.
    assert (Hfb : scratch = fallback (path k)) by by eapply scratchPathOf_redirected.
    fold scratch in Hred. rewrite Hfb in Hred |- *. by apply scratchLoop_redirect_stable.
Qed.

End ScratchFacts.

(** ** [prepareBuild] *)

Lemma decideChroot_buildUser env st st3 :
  decideChroot env st = Returned st3 -> ps_buildUser st3 = ps_buildUser st.
Proof.
  unfold decideChroot, chrootFromSandboxMode, chrootFromDivertedStore, chrootFromNamespaces.
  intros H.
  repeat (case_match; simpl in *; simplify_eq); done.
Qed.

(** C7. [prepareBuild] returns [false] exactly when build users are in use,
    the [buildUser] slot is empty and [acquireUserLock], called once the
    sandbox decision has gone through, hands out no lock. Every other way
    in which preparation does not succeed is an exception, and the
    exceptions are those of the sandbox decision: among them a derivation
    with [__noChroot] under an enforced sandbox, and a diverted store on a
    platform other than Linux. *)
Theorem prepareBuild_false_iff_no_build_user
    (acquireUserLock : Z -> bool -> option UserLock) (env : PrepareEnv) (st : PrepareState) :
  (forall st', prepareBuild acquireUserLock env st = Returned (st', false) <->
     pe_useBuildUsers env = true /\ ps_buildUser st = None /\
     exists st3, decideChroot env st = Returned st3
       /\ acquireUserLock (if pe_useUidRange env then 65536 else 1)%Z (ps_useChroot st3) = None
       /\ st' = mkPrepareState (ps_useChroot st3) None)
  /\ (forall e, prepareBuild acquireUserLock env st = Threw e <-> decideChroot env st = Threw e)
  /\ (pe_sandboxMode env = smEnabled -> pe_noChroot env = true ->
      prepareBuild acquireUserLock env st = Threw (NoChrootNotAllowed (pe_drvPath env)))
  /\ (pe_sandboxMode env <> smEnabled -> pe_storeDir env <> pe_realStoreDir env ->
      pe_platform env <> Linux ->
      prepareBuild acquireUserLock env st = Threw DivertedStoreUnsupported).
Proof.
  split; [|split; [|split]].
  - intros st'. unfold prepareBuild.
    destruct (decideChroot env st) as [st3|e] eqn:Hd; simpl.
    + pose proof (decideChroot_buildUser _ _ _ Hd) as Hu.
      unfold acquireBuildUser. rewrite Hu.
      destruct (pe_useBuildUsers env); simpl.
      * destruct (ps_buildUser st) as [u|] eqn:Hst; simpl.
        { split; [intros [=]|]. intros (_ & [=] & _). }
        destruct (acquireUserLock _ _) as [u|] eqn:Hacq; simpl.
        { split; [intros [=]|]. intros (_ & _ & st3' & [= <-] & Hn & _). congruence. }
        split.
        { intros [= <-]. repeat split; try done. by exists st3. }
        { intros (_ & _ & st3' & [= <-] & _ & ->). done. }
      * split; [intros [=]|]. intros ([=] & _).
    + split; [intros [=]|]. intros (_ & _ & st3 & [=] & _).
  - intros e. unfold prepareBuild.
    destruct (decideChroot env st) as [st3|e'] eqn:Hd; simpl; split; intros [=]; by subst.
  - intros Hmode HnoChroot. unfold prepareBuild, decideChroot, chrootFromSandboxMode.
    by rewrite Hmode, HnoChroot.
  - intros Hmode Hdiv Hplat. unfold prepareBuild, decideChroot, chrootFromSandboxMode,
      chrootFromDivertedStore.
    destruct (pe_sandboxMode env); try done; simpl;
      rewrite bool_decide_eq_true_2 by done; by destruct (pe_platform env).
Qed.

(** ** Classification of a failed build *)

Lemma belowRequired_spec (r : option StatVfs) :
  belowRequired r = true <->
  exists st, r = Some st /\ (uint64 (uint64 (f_bavail st) * f_bsize st) < 8 * 1024 * 1024)%Z.
Proof.
  unfold belowRequired, required. destruct r as [st|].
  - rewrite Z.ltb_lt. split; [intros H; by exists st|]. by intros (st' & [= <-] & H).
  - split; [done|]. by intros (st' & [=] & _).
Qed.

Section FailureFacts.
Variable store : Store.
Variable host : Host.
Variable checkOutputs : World -> gmap string ValidPathInfo -> option string.
Variable b : Build.
Variable haveStatvfs : bool.
Variable statvfs : string -> option StatVfs.
Variable realStoreDir tmpDir : string.
Variable isSandboxed : bool.

(** C6, as amended. When the builder has not exited with status 0 the
    build fails with [TransientFailure] if the derivation is not sandboxed,
    or if [statvfs] is available and a successful call on the real store
    directory or on the temporary directory reports less than 8 MiB free
    (the product [f_bavail * f_bsize] taken in 64 bits); it fails with
    [PermanentFailure] otherwise. Nothing is registered. *)
Theorem failed_builder_status
    (status : ExitStatus) (initial : gmap string InitialOutput) (w : World) :
  statusOk status = false ->
  let lowDisk :=
    haveStatvfs && (belowRequired (statvfs realStoreDir) || belowRequired (statvfs tmpDir)) in
  unprepareBuild store host checkOutputs b haveStatvfs statvfs realStoreDir tmpDir isSandboxed
    status initial w =
  (w, Failure (if negb isSandboxed || lowDisk then TransientFailure else PermanentFailure)
        (BuildError (CannotBuild (drvPathS store b) status lowDisk))).
Proof.
  intros Hst lowDisk. unfold unprepareBuild. rewrite Hst. simpl.
  assert (Hfull : cleanupDecideWhetherDiskFull haveStatvfs statvfs realStoreDir tmpDir = lowDisk).
  { unfold cleanupDecideWhetherDiskFull, lowDisk.
    destruct haveStatvfs; [|done]. simpl.
    by destruct (belowRequired (statvfs realStoreDir)), (belowRequired (statvfs tmpDir)). }
  rewrite Hfull. unfold failureStatus. by rewrite Hst.
Qed.

End FailureFacts.

(** ** [addDependency] *)

Section AddDependencyFacts.
Variable store : Store.
Variable pathExists : string -> bool.
Variable bindInSandbox : string -> string -> Z.
Variable platform : Platform.
Variable useChroot : bool.
Variable chrootRootDir : string.
Variable inputPaths : gset StorePath.

Abbreviation addDependency' :=
  (addDependency store pathExists bindInSandbox platform useChroot chrootRootDir inputPaths).

(** C9, as amended. A request for a path that is already allowed (an input
    path or a path added before) returns at once: no error, no change of
    [addedPaths], no mount. The error "store path ... already exists in the
    sandbox" is thrown exactly for a path that is not yet allowed, in a
    chroot build on Linux, when its target exists inside the chroot. *)
Theorem addDependency_allowed_is_noop (st : DaemonState) (p : StorePath) :
  (isAllowed inputPaths st p = true -> addDependency' st p = (st, Returned tt))
  /\ (forall st' s, addDependency' st p = (st', Threw (AlreadyExistsInSandbox s)) <->
        isAllowed inputPaths st p = false /\ useChroot = true /\ platform = Linux
        /\ pathExists (chrootRootDir ++ printStorePath store p)%string = true
        /\ st' = mkDaemonState ({[p]} ∪ addedPaths st) (bindMounts st)
        /\ s = printStorePath store p).
Proof.
  split.
  - intros Ha. unfold addDependency. by rewrite Ha.
  - intros st' s. unfold addDependency.
    destruct (isAllowed inputPaths st p).
    { split; [intros [=]|intros ([=] & _)]. }
    destruct useChroot.
    2: { split; [intros [=]|intros (_ & [=] & _)]. }
    destruct platform.
    2, 3: split; [intros [=]|intros (_ & _ & [=] & _)].
    destruct (pathExists _) eqn:Hex.
    { split; [by intros [= <- <-] | by intros (_ & _ & _ & _ & -> & ->)]. }
    case_bool_decide; (split; [intros [=] | intros (_ & _ & _ & [=] & _)]).
Qed.

End AddDependencyFacts.
(** ** The topological sort *)

Section TopoSortFacts.
Context {E : Type}.
Variable items : gset string.
Variable getChildren : string -> Outcome E (gset string).
Variable makeCycleError : string -> string -> E.

Abbreviation edge' := (edge items getChildren).
Abbreviation reach' := (reach items getChildren).
Abbreviation GoodDfs' := (GoodDfs items getChildren).
Abbreviation Visited' := (Visited items getChildren).
Abbreviation VisitSpec' := (VisitSpec items getChildren).
Abbreviation Placed' := (Placed items getChildren).
Abbreviation Failed' := (Failed items getChildren makeCycleError).
Abbreviation FailSpec' := (FailSpec items getChildren makeCycleError).
Abbreviation dfsVisit' := (dfsVisit items getChildren makeCycleError).





Lemma Visited_refl st : GoodDfs' st -> Visited' st st.
Proof. intros H. split; [done|done|done|]. exists []. by rewrite app_nil_r. Qed.

Lemma Visited_trans st1 st2 st3 : Visited' st1 st2 -> Visited' st2 st3 -> Visited' st1 st3.
Proof.
  intros [? Hp1 Hv1 [e1 Hs1]] [? Hp2 Hv2 [e2 Hs2]]. split; [done|congruence|set_solver|].
  exists (e1 ++ e2)%list. by rewrite Hs2, Hs1, app_assoc.
Qed.

Lemma before_app l ext v u : before l v u -> before (l ++ ext) v u.
Proof.
  intros (i & j & Hi & Hj & Hlt). exists i, j.
  split; [by apply lookup_app_l_Some|]. split; [by apply lookup_app_l_Some|done].
Qed.

Lemma before_snoc l v u : v ∈ l -> before (l ++ [u]) v u.
Proof.
  intros Hv. apply list_elem_of_lookup in Hv as [i Hi].
  exists i, (length l). split; [by apply lookup_app_l_Some|].
  split; [by rewrite list_lookup_middle|]. by eapply lookup_lt_Some.
Qed.


Lemma dfsChildren_spec visit path refs st st' :
  VisitSpec' visit -> GoodDfs' st ->
  dfsChildren items visit path refs st = Returned st' ->
  Visited' st st' /\ forall i, i ∈ refs -> i <> path -> i ∈ items -> i ∈ sorted st'.
Proof.
  intros Hvisit. revert st. induction refs as [|i rest IH]; intros st Hgood Hrun; simpl in Hrun.
  - simplify_eq. split; [by apply Visited_refl|]. intros i Hi. by apply elem_of_nil in Hi.
  - destruct (bool_decide (i <> path) && bool_decide (i ∈ items)) eqn:Hfollow.
    + apply andb_true_iff in Hfollow as [Hne Hin].
      apply bool_decide_eq_true in Hne. apply bool_decide_eq_true in Hin.
      destruct (visit st i (Some path)) as [st1|e] eqn:Hv; simpl in Hrun; [|done].
      destruct (Hvisit _ _ _ _ Hgood Hin Hv) as [Hvis1 Hi1].
      destruct (IH st1 (vis_good _ _ _ _ Hvis1) Hrun) as [Hvis2 Hrest].
      split; [by eapply Visited_trans|].
      intros k Hk Hkne Hkin. apply elem_of_cons in Hk as [->|Hk]; [|by apply Hrest].
      destruct (vis_sorted _ _ _ _ Hvis2) as [ext ->]. apply elem_of_app. by left.
    + destruct (IH st Hgood Hrun) as [Hvis Hrest]. split; [done|].
      intros k Hk Hkne Hkin. apply elem_of_cons in Hk as [->|Hk]; [|by apply Hrest].
      apply andb_false_iff in Hfollow as [Hf|Hf]; apply bool_decide_eq_false in Hf; done.
Qed.

Lemma dfsVisit_spec fuel : VisitSpec' (dfsVisit' fuel).
Proof.
  induction fuel as [|fuel IH]; intros st path parent st' Hgood Hin Hrun; simpl in Hrun; [done|].
  case_bool_decide as Hpar; [by destruct parent|].
  case_bool_decide as Hvis.
  { simplify_eq. split; [by apply Visited_refl|]. by apply (good_sorted _ _ _ Hgood). }
  destruct (getChildren path) as [refs|e] eqn:Hch; [|done].
  set (st1 := mkDfs ({[path]} ∪ visited st) ({[path]} ∪ parents st) (sorted st)) in *.
  assert (Hgood1 : GoodDfs' st1).
  { split; simpl.
    - intros x. rewrite (good_sorted _ _ _ Hgood). set_solver.
    - apply (good_nodup _ _ _ Hgood).
    - apply (good_order _ _ _ Hgood).
    - pose proof (good_items _ _ _ Hgood). set_solver. }
  destruct (dfsChildren items (dfsVisit' fuel) path (ordered refs) st1)
    as [st2|e] eqn:Hkids; simpl in Hrun; [|done].
  simplify_eq.
  destruct (dfsChildren_spec _ _ _ _ _ IH Hgood1 Hkids) as [[Hgood2 Hp2 Hv2 [ext Hs2]] Hdone].
  simpl in *.
  assert (Hnotin : path ∉ sorted st2).
  { rewrite (good_sorted _ _ _ Hgood2), Hp2. set_solver. }
  split; [|simpl; apply elem_of_app; right; by apply list_elem_of_singleton].
  split; simpl.
  - split; simpl.
    + intros x. rewrite elem_of_app, list_elem_of_singleton, (good_sorted _ _ _ Hgood2), Hp2.
      destruct (decide (x = path)) as [->|Hne]; set_solver.
    + apply NoDup_app. split; [apply (good_nodup _ _ _ Hgood2)|].
      split; [|apply NoDup_singleton].
      intros x Hx Hx'. apply list_elem_of_singleton in Hx'. by subst.
    + intros u v Hu Hedge. apply elem_of_app in Hu as [Hu|Hu].
      * apply before_app. by apply (good_order _ _ _ Hgood2).
      * apply list_elem_of_singleton in Hu as ->. apply before_snoc.
        destruct Hedge as (refs' & Hch' & Hv & Hne & Hvin).
        rewrite Hch in Hch'. injection Hch' as <-.
        apply Hdone; [by apply elem_of_ordered|done..].
    + apply (good_items _ _ _ Hgood2).
  - rewrite Hp2. set_solver.
  - set_solver.
  - exists (ext ++ [path])%list. by rewrite Hs2, app_assoc.
Qed.




Lemma dfsChildren_fails fuel visit path refs0 refs st f :
  VisitSpec' visit -> FailSpec' fuel visit ->
  getChildren path = Returned refs0 -> (forall i, i ∈ refs -> i ∈ refs0) ->
  GoodDfs' st -> path ∈ parents st -> parents st ⊆ items ->
  (size items < fuel + size (parents st))%nat ->
  (forall x, x ∈ parents st -> reach' x path) ->
  dfsChildren items visit path refs st = Threw f -> Failed' f.
Proof.
  intros Hvisit Hfail Hch. revert st.
  induction refs as [|i rest IH]; intros st Hsub Hgood Hpath Hitems Hfuel Hchain Hrun;
    simpl in Hrun; [done|].
  assert (Hsub' : forall k, k ∈ rest -> k ∈ refs0).
  { intros k Hk. apply Hsub. by apply elem_of_cons; right. }
  destruct (bool_decide (i <> path) && bool_decide (i ∈ items)) eqn:Hfollow.
  - apply andb_true_iff in Hfollow as [Hne Hin].
    apply bool_decide_eq_true in Hne. apply bool_decide_eq_true in Hin.
    destruct (visit st i (Some path)) as [st1|e] eqn:Hv; simpl in Hrun.
    + destruct (Hvisit _ _ _ _ Hgood Hin Hv) as [[Hgood1 Hp1 _ _] _].
      apply (IH st1); try done; rewrite ?Hp1; done.
    + simplify_eq. eapply Hfail; [done|done| |done].
      split; [done|done|done|].
      intros p [= <-]. split; [|done].
      exists refs0. split; [done|]. split; [|done]. apply Hsub. by apply elem_of_cons; left.
  - by apply (IH st).
Qed.

Lemma dfsVisit_fails fuel : FailSpec' fuel (dfsVisit' fuel).
Proof.
  induction fuel as [|fuel IH]; intros st path parent f Hgood Hin [Hitems Hfuel Hroot Hchain] Hrun.
  - pose proof (subseteq_size _ _ Hitems). lia.
  - simpl in Hrun. case_bool_decide as Hpar.
    { destruct parent as [p|].
      - simplify_eq. destruct (Hchain p eq_refl) as [Hedge Hreach].
        apply Failed_cycle; [done|by apply Hreach].
      - rewrite Hroot in Hpar by done. set_solver. }
    case_bool_decide as Hvis; [done|].
    destruct (getChildren path) as [refs|e] eqn:Hch.
    2: { simplify_eq. by eapply Failed_children. }
    set (st1 := mkDfs ({[path]} ∪ visited st) ({[path]} ∪ parents st) (sorted st)) in *.
    assert (Hgood1 : GoodDfs' st1).
    { split; simpl.
      - intros x. rewrite (good_sorted _ _ _ Hgood). set_solver.
      - apply (good_nodup _ _ _ Hgood).
      - apply (good_order _ _ _ Hgood).
      - pose proof (good_items _ _ _ Hgood). set_solver. }
    destruct (dfsChildren items (dfsVisit' fuel) path (ordered refs) st1)
      as [st2|e] eqn:Hkids; simpl in Hrun; [done|].
    simplify_eq.
    eapply (dfsChildren_fails fuel); [apply dfsVisit_spec|apply IH|done| |done| | | | |done]; simpl.
    + intros i. by rewrite elem_of_ordered.
    + set_solver.
    + set_solver.
    + rewrite size_union by set_solver. rewrite size_singleton. lia.
    + intros x Hx. apply elem_of_union in Hx as [Hx|Hx].
      * apply elem_of_singleton in Hx as ->. apply rtc_refl.
      * destruct parent as [p|].
        -- destruct (Hchain p eq_refl) as [Hedge Hreach].
           eapply rtc_r; [by apply Hreach|done].
        -- rewrite Hroot in Hx by done. set_solver.
Qed.

Lemma GoodDfs_empty : GoodDfs' (mkDfs ∅ ∅ []).
Proof.
  split; simpl.
  - intros x. split; [by intros ?%elem_of_nil|set_solver].
  - apply NoDup_nil_2.
  - intros u v Hu. by apply elem_of_nil in Hu.
  - set_solver.
Qed.

Lemma dfsAll_spec fuel todo st st' :
  GoodDfs' st -> (forall i, i ∈ todo -> i ∈ items) ->
  dfsAll items getChildren makeCycleError fuel todo st = Returned st' ->
  Visited' st st' /\ forall i, i ∈ todo -> i ∈ sorted st'.
Proof.
  revert st. induction todo as [|i rest IH]; intros st Hgood Hin Hrun; simpl in Hrun.
  - simplify_eq. split; [by apply Visited_refl|]. by intros i ?%elem_of_nil.
  - destruct (dfsVisit' fuel st i None) as [st1|e] eqn:Hv;
      simpl in Hrun; [|done].
    destruct (dfsVisit_spec fuel _ _ _ _ Hgood (Hin i ltac:(by apply elem_of_cons; left)) Hv)
      as [Hvis1 Hi1].
    destruct (IH st1 (vis_good _ _ _ _ Hvis1)
                ltac:(intros k Hk; apply Hin; by apply elem_of_cons; right) Hrun)
      as [Hvis2 Hrest].
    split; [by eapply Visited_trans|].
    intros k Hk. apply elem_of_cons in Hk as [->|Hk]; [|by apply Hrest].
    destruct (vis_sorted _ _ _ _ Hvis2) as [ext ->]. apply elem_of_app. by left.
Qed.

Lemma dfsAll_fails fuel todo st f :
  GoodDfs' st -> (forall i, i ∈ todo -> i ∈ items) -> parents st = ∅ ->
  (size items < fuel)%nat ->
  dfsAll items getChildren makeCycleError fuel todo st = Threw f -> Failed' f.
Proof.
  revert st. induction todo as [|i rest IH]; intros st Hgood Hin Hpar Hfuel Hrun;
    simpl in Hrun; [done|].
  assert (Hi : i ∈ items) by (apply Hin; by apply elem_of_cons; left).
  destruct (dfsVisit' fuel st i None) as [st1|e] eqn:Hv;
    simpl in Hrun.
  - destruct (dfsVisit_spec fuel _ _ _ _ Hgood Hi Hv) as [[Hgood1 Hp1 _ _] _].
    apply (IH st1); try done.
    + intros k Hk. apply Hin. by apply elem_of_cons; right.
    + by rewrite Hp1.
  - simplify_eq. eapply dfsVisit_fails; [done|done| |done].
    split; [set_solver|rewrite Hpar, size_empty; lia|done|done].
Qed.


Lemma before_reverse (l : list string) (u v : string) :
  before l v u -> before (reverse l) u v.
Proof.
  intros (i & j & Hi & Hj & Hlt).
  pose proof (lookup_lt_Some _ _ _ Hi). pose proof (lookup_lt_Some _ _ _ Hj).
  exists (length l - S j)%nat, (length l - S i)%nat.
  split; [|split; [|lia]].
  - rewrite reverse_lookup by lia. rewrite <- Hj. f_equal. lia.
  - rewrite reverse_lookup by lia. rewrite <- Hi. f_equal. lia.
Qed.



(** [topoSort] never runs out of fuel and never dereferences a null
    parent: when it fails, it fails with an error of [getChildren] or with
    the cycle error of an edge [parent -> path] whose target reaches its
    source again. *)
Lemma topoSort_fails (f : TopoFailure E) :
  topoSort items getChildren makeCycleError = Threw f -> Failed' f.
Proof.
  unfold topoSort.
  destruct (dfsAll items getChildren makeCycleError (S (size items)) (ordered items)
              (mkDfs ∅ ∅ [])) as [st|e] eqn:Hrun; simpl; [done|].
  intros [= <-]. eapply dfsAll_fails; [apply GoodDfs_empty| | |apply Nat.lt_succ_diag_r|done].
  - intros i. by rewrite elem_of_ordered.
  - done.
Qed.

(** When [topoSort] returns, it returns the items, each once, every item
    before the items it refers to. *)
Lemma topoSort_returns (names : list string) :
  topoSort items getChildren makeCycleError = Returned names ->
  NoDup names /\ (forall x, x ∈ names <-> x ∈ items)
  /\ forall u v, u ∈ items -> edge' u v -> before names u v.
Proof.
  unfold topoSort.
  destruct (dfsAll items getChildren makeCycleError (S (size items)) (ordered items)
              (mkDfs ∅ ∅ [])) as [st|e] eqn:Hrun; simpl; [|done].
  intros [= <-].
  destruct (dfsAll_spec _ _ _ _ GoodDfs_empty
              ltac:(intros i; by rewrite elem_of_ordered) Hrun) as [[Hgood Hp _ _] Hall].
  simpl in Hp.
  assert (Hmem : forall x, x ∈ sorted st <-> x ∈ items).
  { intros x. split.
    - intros Hx. apply (good_sorted _ _ _ Hgood) in Hx as [Hx _].
      by apply (good_items _ _ _ Hgood).
    - intros Hx. apply Hall. by apply elem_of_ordered. }
  split; [rewrite reverse_Permutation; apply (good_nodup _ _ _ Hgood)|].
  split; [intros x; by rewrite elem_of_reverse|].
  intros u v Hu Hedge. apply before_reverse.
  apply (good_order _ _ _ Hgood); [by apply Hmem|done].
Qed.


End TopoSortFacts.
(** ** The first pass of [registerOutputs] *)

Lemma forEach_app body l w xs ys :
  forEach body l w (xs ++ ys) =
  match forEach body l w xs with
  | Continue l' w' => forEach body l' w' ys
  | raised => raised
  end.
Proof.
  revert l w. induction xs as [|x xs IH]; intros l w; simpl; [done|].
  destruct (body l w x); [apply IH|done].
Qed.

(** Induction over a loop that runs to its end, with the names already
    seen. *)
Lemma forEach_prefix_ind body (P : list string -> Locals -> World -> Prop) :
  (forall seen l w n l' w',
     P seen l w -> n ∉ seen -> body l w n = Continue l' w' -> P (seen ++ [n]) l' w') ->
  forall names seen l w l' w',
    NoDup (seen ++ names) -> P seen l w ->
    forEach body l w names = Continue l' w' -> P (seen ++ names) l' w'.
Proof.
  intros Hstep names. induction names as [|n names IH]; intros seen l w l' w' Hnd HP Hrun;
    simpl in Hrun.
  - simplify_eq. by rewrite app_nil_r.
  - destruct (body l w n) as [l1 w1|] eqn:Hb; [|done].
    replace (seen ++ n :: names) with ((seen ++ [n]) ++ names) in * by by rewrite <- app_assoc.
    apply (IH (seen ++ [n]) l1 w1); [done| |done].
    eapply Hstep; [done| |done].
    apply NoDup_app in Hnd as (Hnd & _ & _). apply NoDup_app in Hnd as (_ & Hnd & _).
    intros Hin. apply (Hnd n Hin). by apply list_elem_of_singleton.
Qed.


Section FirstPassFacts.
Variable store : Store.
Variable host : Host.
Variable b : Build.

Abbreviation checkOutput' := (checkOutput store host b).
Abbreviation actualPathOf' := (actualPathOf store b).
Abbreviation wantedOf' := (wantedOf b).
Abbreviation scannedReferences' := (scannedReferences store host b).

(** What an iteration of the first pass that goes through has done. *)
Lemma checkOutput_Continue l w o l' w' :
  checkOutput' l w o = Continue l' w' ->
  exists sp io,
    buildScratchOutputs b !! o = Some sp /\ initialOutputs l !! o = Some io /\
    outputsToSort l' = {[o]} ∪ outputsToSort l /\
    initialOutputs l' =
      <[o := mkInitialOutput (wantedOf' io) (outputHash io) (known io)]> (initialOutputs l) /\
    outputRewrites l' = outputRewrites l /\ finalOutputs l' = finalOutputs l /\
    infos l' = infos l /\ delayedException l' = delayedException l /\
    if wantedOf' io then
      exists st, maybeLstat host (actualPathOf' sp) = Some st /\ suspicious b st = false /\
        outputReferencesIfUnregistered l' =
          <[o := PerhapsNeedToRegister (scannedReferences' o sp)]> (outputReferencesIfUnregistered l) /\
        outputStats l' = <[o := st]> (outputStats l) /\
        w' = canonicalisePathMetaData (actualPathOf' sp) w
    else
      exists k, known io = Some k /\ isValid k = true /\
        outputReferencesIfUnregistered l' =
          <[o := AlreadyRegistered (path k)]> (outputReferencesIfUnregistered l) /\
        outputStats l' = outputStats l /\ w' = w.
Proof.
  unfold checkOutput, wantedOf, scannedReferences, discardsReferences, actualPathOf.
  destruct (buildScratchOutputs b !! o) as [sp|]; [|done]. simpl.
  destruct (initialOutputs l !! o) as [io|]; [|done].
  intros Hrun. exists sp, io. split; [done|]. split; [done|].
  destruct (known io) as [k|] eqn:Hk; simpl in *.
  - destruct (bool_decide (buildMode b = bmCheck) || negb (isValid k)) eqn:Hw; simpl in *.
    + destruct (maybeLstat host _) as [st|] eqn:Hst; [|done].
      destruct (suspicious b st) eqn:Hsus; [done|]. simplify_eq. simpl.
      repeat split; try done. exists st. repeat split; try done.
    + simplify_eq. simpl. repeat split; try done. exists k.
      apply orb_false_iff in Hw as [_ Hv]. apply negb_false_iff in Hv. done.
  - rewrite orb_true_r in *.
    destruct (maybeLstat host _) as [st|] eqn:Hst; [|done].
    destruct (suspicious b st) eqn:Hsus; [done|]. simplify_eq. simpl.
    repeat split; try done. exists st. repeat split; try done.
Qed.




Lemma sameStore_refl w : sameStore w w.
Proof. by repeat split. Qed.

Lemma sameStore_canonicalise p w w' :
  sameStore w w' -> sameStore w (canonicalisePathMetaData p w').
Proof. by intros (? & ? & ?). Qed.

Lemma FirstPass_empty initial : FirstPass store host b initial [] (emptyLocals initial).
Proof.
  split; try done. intros o Ho. by apply elem_of_nil in Ho.
Qed.

Lemma checkOutput_FirstPass initial seen l w n l' w' :
  FirstPass store host b initial seen l -> n ∉ seen ->
  checkOutput' l w n = Continue l' w' ->
  FirstPass store host b initial (seen ++ [n]) l' /\ sameStore w w'.
Proof.
  intros [Hsort Hentry Htodo Hrw Hfin Hinfos Hdel] Hn Hrun.
  destruct (checkOutput_Continue _ _ _ _ _ Hrun)
    as (sp & io & Hsp & Hio & Hsort' & Hinit' & Hrw' & Hfin' & Hinfos' & Hdel' & Hcase).
  destruct (Htodo n Hn) as [Hn_init Hn_refs]. rewrite Hio in Hn_init.
  assert (Hother : forall o, o <> n ->
            initialOutputs l' !! o = initialOutputs l !! o /\
            outputReferencesIfUnregistered l' !! o = outputReferencesIfUnregistered l !! o /\
            outputStats l' !! o = outputStats l !! o).
  { intros o Hne. rewrite Hinit', lookup_insert_ne by done.
    destruct (wantedOf' io).
    - destruct Hcase as (st & _ & _ & -> & -> & _). by rewrite !lookup_insert_ne.
    - destruct Hcase as (k & _ & _ & -> & -> & _). by rewrite !lookup_insert_ne. }
  split.
  - split.
    + rewrite Hsort', Hsort, list_to_set_app_L. set_solver.
    + intros o Ho. apply elem_of_app in Ho as [Ho|Ho].
      * assert (Hne : o <> n) by (intros ->; done).
        destruct (Hother o Hne) as (Hi & Hr & Hs).
        destruct (Hentry o Ho) as (sp' & io' & ? & ? & Hio' & Hc).
        exists sp', io'. rewrite Hi. repeat split; try done.
        destruct (wantedOf' io').
        -- destruct Hc as (st & ? & ? & ? & ?). exists st. by rewrite Hr, Hs.
        -- destruct Hc as (k & ? & ? & ?). exists k. by rewrite Hr.
      * apply list_elem_of_singleton in Ho as ->.
        exists sp, io. rewrite Hinit', lookup_insert_eq. repeat split; try done.
        destruct (wantedOf' io).
        -- destruct Hcase as (st & ? & ? & -> & -> & _). exists st.
           by rewrite !lookup_insert_eq.
        -- destruct Hcase as (k & ? & ? & -> & _). exists k. by rewrite lookup_insert_eq.
    + intros o Ho. rewrite elem_of_app, list_elem_of_singleton in Ho.
      assert (Hne : o <> n) by (intros ->; apply Ho; by right).
      destruct (Hother o Hne) as (-> & -> & _). apply Htodo. intros ?. apply Ho. by left.
    + congruence.
    + congruence.
    + congruence.
    + congruence.
  - destruct (wantedOf' io).
    + destruct Hcase as (st & _ & _ & _ & _ & ->). apply sameStore_canonicalise, sameStore_refl.
    + destruct Hcase as (k & _ & _ & _ & _ & ->). apply sameStore_refl.
Qed.

Lemma sameStore_trans w1 w2 w3 : sameStore w1 w2 -> sameStore w2 w3 -> sameStore w1 w3.
Proof. intros (? & ? & ?) (? & ? & ?). repeat split; congruence. Qed.

(** The first pass, when it goes through, has recorded every output of the
    derivation and has registered nothing. *)
Lemma firstPass_done initial w l1 w1 :
  forEach checkOutput' (emptyLocals initial) w (ordered (dom (drvOutputs b))) = Continue l1 w1 ->
  FirstPass store host b initial (ordered (dom (drvOutputs b))) l1 /\ sameStore w w1.
Proof.
  intros Hrun.
  apply (forEach_prefix_ind checkOutput'
           (fun seen l w' => FirstPass store host b initial seen l /\ sameStore w w')
           ltac:(intros seen l w' n l' w'' [HP HS] Hn Hb;
                 destruct (checkOutput_FirstPass _ _ _ _ _ _ _ HP Hn Hb);
                 split; [done|by eapply sameStore_trans])
           (ordered (dom (drvOutputs b))) [] (emptyLocals initial) w l1 w1);
    [apply NoDup_ordered| |done].
  split; [apply FirstPass_empty|apply sameStore_refl].
Qed.



Variable checkOutputs : World -> gmap string ValidPathInfo -> option string.


End FirstPassFacts.
(** ** The second pass of [registerOutputs] *)

Lemma rewriteRefs_fold (rewrites : gmap string string) (sp : StorePath)
    (rs : list StorePath) (acc : StoreReferences) :
  let res :=
    foldl
      (fun res r =>
         if decide (r = sp) then mkRefs (others res) true
         else
           match rewrites !! hashPart r with
           | Some outputRewrite =>
               mkRefs ({[mkStorePath outputRewrite (name r)]} ∪ others res) (self res)
           | None => mkRefs ({[r]} ∪ others res) (self res)
           end) acc rs in
  self res = self acc || bool_decide (sp ∈ rs)
  /\ forall r, r ∈ others res <->
       r ∈ others acc \/ exists r0, r0 ∈ rs /\ r0 <> sp /\ r = rewriteRef rewrites r0.
Proof.
  revert acc. induction rs as [|x rs IH]; intros acc; cbn [foldl].
  - split.
    + rewrite bool_decide_eq_false_2 by apply not_elem_of_nil. by rewrite orb_false_r.
    + intros r. split; [by left|]. intros [?|(r0 & Hr0 & _)]; [done|].
      by apply elem_of_nil in Hr0.
  - match goal with |- context [foldl ?f ?a rs] => destruct (IH a) as [Hself Hothers] end.
    split.
    + rewrite Hself. destruct (decide (x = sp)) as [->|Hne]; simpl.
      * rewrite (bool_decide_eq_true_2 (sp ∈ sp :: rs)) by (by left).
        by rewrite orb_true_r.
      * assert (bool_decide (sp ∈ x :: rs) = bool_decide (sp ∈ rs)) as ->.
        { apply bool_decide_ext. rewrite elem_of_cons. naive_solver. }
        by destruct (rewrites !! hashPart x).
    + intros r. rewrite Hothers. unfold rewriteRef.
      destruct (decide (x = sp)) as [->|Hne]; simpl.
      * split.
        -- intros [?|(r0 & ? & ? & ?)]; [by left|right]. exists r0.
           split; [by right|done].
        -- intros [?|(r0 & Hr0 & ? & ?)]; [by left|right]. exists r0.
           apply elem_of_cons in Hr0 as [->|?]; done.
      * destruct (rewrites !! hashPart x) as [h|] eqn:Hx; simpl.
        -- rewrite elem_of_union, elem_of_singleton. split.
           ++ intros [[->|?]|(r0 & ? & ? & ?)].
              ** right. exists x. rewrite Hx. split; [by left|done].
              ** by left.
              ** right. exists r0. split; [by right|done].
           ++ intros [?|(r0 & Hr0 & ? & ->)]; [left; by right|].
              apply elem_of_cons in Hr0 as [->|?].
              ** rewrite Hx. left. by left.
              ** right. by exists r0.
        -- rewrite elem_of_union, elem_of_singleton. split.
           ++ intros [[->|?]|(r0 & ? & ? & ?)].
              ** right. exists x. rewrite Hx. split; [by left|done].
              ** by left.
              ** right. exists r0. split; [by right|done].
           ++ intros [?|(r0 & Hr0 & ? & ->)]; [left; by right|].
              apply elem_of_cons in Hr0 as [->|?].
              ** rewrite Hx. left. by left.
              ** right. by exists r0.
Qed.

(** [rewriteRefs] flags the reference to the scratch path itself and
    rewrites the others. *)
Lemma rewriteRefs_spec (refs : gset StorePath) (sp : StorePath) (rewrites : gmap string string) :
  self (rewriteRefs refs sp rewrites) = bool_decide (sp ∈ refs)
  /\ forall r, r ∈ others (rewriteRefs refs sp rewrites) <->
       exists r0, r0 ∈ refs /\ r0 <> sp /\ r = rewriteRef rewrites r0.
Proof.
  unfold rewriteRefs.
  destruct (rewriteRefs_fold rewrites sp (elements refs) (mkRefs ∅ false)) as [Hself Hothers].
  split.
  - rewrite Hself. simpl. apply bool_decide_ext, elem_of_elements.
  - intros r. rewrite Hothers. simpl. split.
    + intros [?|(r0 & Hr0 & ?)]; [set_solver|]. exists r0. by rewrite <- elem_of_elements.
    + intros (r0 & Hr0 & ?). right. exists r0. by rewrite elem_of_elements.
Qed.

Lemma withSelf_rewriteRefs (refs : gset StorePath) (sp p : StorePath)
    (rewrites : gmap string string) (r : StorePath) :
  r ∈ withSelf (rewriteRefs refs sp rewrites) p <->
  (r = p /\ sp ∈ refs) \/ exists r0, r0 ∈ refs /\ r0 <> sp /\ r = rewriteRef rewrites r0.
Proof.
  unfold withSelf. destruct (rewriteRefs_spec refs sp rewrites) as [Hself Hothers].
  rewrite Hself. case_bool_decide as Hsp.
  - rewrite elem_of_union, elem_of_singleton, Hothers. naive_solver.
  - rewrite Hothers. naive_solver.
Qed.

Lemma withSelf_empty (sp p : StorePath) (rewrites : gmap string string) :
  withSelf (rewriteRefs ∅ sp rewrites) p = ∅.
Proof.
  apply set_eq. intros r. rewrite withSelf_rewriteRefs. set_solver.
Qed.

Section SecondPassFacts.
Variable store : Store.
Variable host : Host.
Variable b : Build.

Abbreviation finalizeOutput' := (finalizeOutput store host b).
Abbreviation makeInfo' := (makeInfo store host b).
Abbreviation MadeInfo' := (MadeInfo store host b).
Abbreviation finalInfo' := (finalInfo host b).

Lemma rewriteOutput_sameStore rewrites actualPath tree w :
  sameStore w (rewriteOutput host rewrites actualPath tree w).2
  /\ notes (rewriteOutput host rewrites actualPath tree w).2 = notes w.
Proof. unfold rewriteOutput. case_decide; by repeat split. Qed.

Lemma newInfoFromCA_spec l w o sp actualPath refs m a info w' :
  newInfoFromCA store host b l w o sp actualPath refs m a = Returned (info, w') ->
  exists got, ca info = Some (mkCA m got)
    /\ references info = withSelf (rewriteRefs refs sp (outputRewrites l)) (info_path info)
    /\ sameStore w w' /\ notes w' = notes w.
Proof.
  unfold newInfoFromCA, ValidPathInfo_fromCA.
  destruct (outputStats l !! o) as [st|]; [|done].
  case_match; [done|].
  destruct (rewriteOutput host (outputRewrites l) actualPath _ w) as [tree1 w1] eqn:Hrw1.
  pose proof (rewriteOutput_sameStore (outputRewrites l) actualPath
                (fileContents host actualPath) w) as [Hs1 Hn1].
  rewrite Hrw1 in Hs1, Hn1. simpl in Hs1, Hn1.
  intros Hret. case_decide as Hd.
  - match type of Hret with
    | context [rewriteOutput host ?rw actualPath tree1 w1] =>
        pose proof (rewriteOutput_sameStore rw actualPath tree1 w1) as [Hs2 Hn2];
        destruct (rewriteOutput host rw actualPath tree1 w1) as [tree2 w2] eqn:Hrw2
    end.
    simpl in *. simplify_eq. eexists. simpl.
    split; [exact eq_refl|]. split; [exact eq_refl|].
    split; [by eapply sameStore_trans|congruence].
  - simplify_eq. eexists. simpl. split; [exact eq_refl|]. split; [exact eq_refl|]. done.
Qed.

Lemma newInfoFromCA_throws l w o sp actualPath refs m a e :
  newInfoFromCA store host b l w o sp actualPath refs m a = Threw e -> isDelayedKind e = false.
Proof.
  unfold newInfoFromCA.
  destruct (outputStats l !! o) as [st|]; [|by intros [= <-]].
  case_match; [by intros [= <-]|].
  repeat case_match; done.
Qed.

Lemma sameTables_refl l : sameTables l l.
Proof. by repeat split. Qed.

Lemma sameTables_trans l1 l2 l3 : sameTables l1 l2 -> sameTables l2 l3 -> sameTables l1 l3.
Proof. intros (?&?&?&?) (?&?&?&?). repeat split; congruence. Qed.

Lemma makeInfo_spec l w o output sp actualPath refs info l1 w1 :
  makeInfo' l w o output sp actualPath refs = Returned (info, l1, w1) ->
  MadeInfo' l o output sp refs info l1 /\ sameStore w w1.
Proof.
  unfold makeInfo, MadeInfo. destruct output as [p|m wantedHash|m a| |m a].
  - destruct (rewriteOutput host _ actualPath _ w) as [tree1 w1'] eqn:Hrw.
    match type of Hrw with
    | rewriteOutput host ?rw _ ?t _ = _ =>
        pose proof (rewriteOutput_sameStore rw actualPath t w) as [Hs _]
    end.
    rewrite Hrw in Hs. simpl in Hs.
    intros ?; simplify_eq. simpl. split; [|done].
    case_decide; simpl; repeat split; try done.
  - destruct (newInfoFromCA store host b l w o sp actualPath refs m (algo wantedHash))
      as [[info0 w0]|e] eqn:Hnew; simpl; [|done].
    destruct (newInfoFromCA_spec _ _ _ _ _ _ _ _ _ _ Hnew) as (got & Hca & Hrefs & Hs & Hn).
    rewrite Hca.
    destruct (decide (wantedHash <> ca_hash (mkCA m got))) as [Hmis|Hok]; simpl in *.
    + destruct (decide (references info0 <> ∅)) as [Hr|Hr]; intros ?; simplify_eq; simpl.
      * split; [|by destruct Hs as (?&?&?)].
        split; [done|]. split; [by repeat split|]. split; [done|]. split; [done|].
        exists got. repeat split; try done. by rewrite !decide_True.
      * split; [|by destruct Hs as (?&?&?)].
        split; [done|]. split; [by repeat split|]. split; [done|]. split; [done|].
        exists got. repeat split; try done. rewrite decide_False by done. by rewrite decide_True.
    + destruct (decide (references info0 <> ∅)) as [Hr|Hr]; intros ?; simplify_eq; simpl.
      * split; [|done].
        split; [done|]. split; [by repeat split|]. split; [done|]. split; [done|].
        exists got. repeat split; try done. by rewrite !decide_True.
      * split; [|done].
        split; [done|]. split; [by repeat split|]. split; [done|]. split; [done|].
        exists got. repeat split; try done. by rewrite !decide_False.
  - destruct (newInfoFromCA store host b l w o sp actualPath refs m a)
      as [[info0 w0]|e] eqn:Hnew; simpl; [|done].
    destruct (newInfoFromCA_spec _ _ _ _ _ _ _ _ _ _ Hnew) as (got & Hca & Hrefs & Hs & Hn).
    intros ?; simplify_eq. split; [|done].
    split; [done|]. split; [by repeat split|]. split; [done|]. split; [done|].
    by exists got.
  - done.
  - destruct (newInfoFromCA store host b l w o sp actualPath refs m a)
      as [[info0 w0]|e] eqn:Hnew; simpl; [|done].
    destruct (newInfoFromCA_spec _ _ _ _ _ _ _ _ _ _ Hnew) as (got & Hca & Hrefs & Hs & Hn).
    intros ?; simplify_eq. split; [|done].
    split; [done|]. split; [by repeat split|]. split; [done|]. split; [done|].
    by exists got.
Qed.

Lemma makeInfo_throws l w o output sp actualPath refs e :
  makeInfo' l w o output sp actualPath refs = Threw e -> isDelayedKind e = false.
Proof.
  unfold makeInfo. destruct output as [p|m wantedHash|m a| |m a].
  - by destruct (rewriteOutput host _ actualPath _ w).
  - destruct (newInfoFromCA store host b l w o sp actualPath refs m (algo wantedHash))
      as [[info0 w0]|e'] eqn:Hnew; simpl.
    + destruct (ca info0); [|by intros [= <-]]. by repeat case_match.
    + intros [= <-]. by eapply newInfoFromCA_throws.
  - destruct (newInfoFromCA store host b l w o sp actualPath refs m a)
      as [[info0 w0]|e'] eqn:Hnew; simpl; [done|].
    intros [= <-]. by eapply newInfoFromCA_throws.
  - by intros [= <-].
  - destruct (newInfoFromCA store host b l w o sp actualPath refs m a)
      as [[info0 w0]|e'] eqn:Hnew; simpl; [done|].
    intros [= <-]. by eapply newInfoFromCA_throws.
Qed.


Lemma finish_frame o sp p l :
  sameTables l (finish o sp p l) /\ infos (finish o sp p l) = infos l
  /\ delayedException (finish o sp p l) = delayedException l
  /\ finalOutputs (finish o sp p l) = <[o := p]> (finalOutputs l)
  /\ outputRewrites (finish o sp p l) =
       (if decide (sp <> p) then <[hashPart sp := hashPart p]> (outputRewrites l)
        else outputRewrites l).
Proof. unfold finish. case_decide; simpl; by repeat split. Qed.

(** An iteration of the second pass that raises has registered nothing,
    and what it raises is none of the delayed errors. *)
Lemma finalizeOutput_Raise l w o e l' w' :
  finalizeOutput' l w o = Raise e l' w' -> isDelayedKind e = false /\ sameStore w w'.
Proof.
  unfold finalizeOutput.
  destruct (drvOutputs b !! o) as [output|]; [|intros ?; simplify_eq; by split].
  destruct (buildScratchOutputs b !! o) as [sp|]; [|intros ?; simplify_eq; by split].
  destruct (outputReferencesIfUnregistered l !! o) as [[p|refs]|];
    [done| |intros ?; simplify_eq; by split].
  destruct (makeInfo' l w o output sp _ refs) as [[[info l1] w1]|e'] eqn:Hmake.
  2: { intros ?; simplify_eq. split; [by eapply makeInfo_throws|done]. }
  destruct (makeInfo_spec _ _ _ _ _ _ _ _ _ _ Hmake) as [_ Hs].
  case_decide; [|by repeat case_match].
  destruct (validPaths _ !! info_path info) as [oldInfo|]; [|done].
  case_decide; [|by case_match].
  intros ?; simplify_eq. split; [done|]. by destruct Hs as (?&?&?).
Qed.

(** An iteration of the second pass that goes through, outside a check
    build. *)
Lemma finalizeOutput_Continue l w o l' w' :
  buildMode b <> bmCheck -> finalizeOutput' l w o = Continue l' w' ->
  exists output sp,
    drvOutputs b !! o = Some output /\ buildScratchOutputs b !! o = Some sp /\
    ((exists p, outputReferencesIfUnregistered l !! o = Some (AlreadyRegistered p)
        /\ l' = finish o sp p l /\ w' = w)
     \/ (exists refs made l1 w1,
           outputReferencesIfUnregistered l !! o = Some (PerhapsNeedToRegister refs)
           /\ MadeInfo' l o output sp refs made l1 /\ sameStore w w1
           /\ l' = setInfos (emplace o (finalInfo' made)
                               (infos (finish o sp (info_path made) l1)))
                     (finish o sp (info_path made) l1)
           /\ drvOutputsRegistered w' = drvOutputsRegistered w
           /\ match ca made with
              | Some _ =>
                  validPaths w' = {[info_path made := finalInfo' made]} ∪ validPaths w
                  /\ commits w' = {[info_path made := finalInfo' made]} :: commits w
              | None => validPaths w' = validPaths w /\ commits w' = commits w
              end)).
Proof.
  intros Hmode. unfold finalizeOutput.
  destruct (drvOutputs b !! o) as [output|]; [|done].
  destruct (buildScratchOutputs b !! o) as [sp|]; [|done].
  destruct (outputReferencesIfUnregistered l !! o) as [[p|refs]|] eqn:Hentry; [| |done].
  { intros ?; simplify_eq. exists output, sp. split; [done|]. split; [done|]. left. by exists p. }
  destruct (makeInfo' l w o output sp _ refs) as [[[made l1] w1]|e'] eqn:Hmake; [|done].
  destruct (makeInfo_spec _ _ _ _ _ _ _ _ _ _ Hmake) as [Hmade Hs].
  rewrite decide_False by done.
  intros ?; simplify_eq. exists output, sp. split; [done|]. split; [done|]. right.
  exists refs, made, l1, w1. split; [done|]. split; [done|]. split; [done|].
  split; [done|]. destruct Hs as (Hv & Hc & Hd). simpl.
  destruct (ca made) as [c|] eqn:Hca; simpl; rewrite ?Hv, ?Hc, ?Hd;
    unfold finalInfo; rewrite ?Hca; by repeat split.
Qed.


Abbreviation SecondPass' := (SecondPass store host b).

Lemma SecondPass_start l1 w1 :
  infos l1 = ∅ -> delayedException l1 = None -> SecondPass' l1 w1 [] l1 w1.
Proof.
  intros Hinfos Hdel. split.
  - apply sameTables_refl.
  - intros o. rewrite Hinfos, lookup_empty. by intros [? ?].
  - intros o info. by rewrite Hinfos, lookup_empty.
  - intros o refs Ho. by apply elem_of_nil in Ho.
  - intros o Ho. by apply elem_of_nil in Ho.
  - exists []. simpl. split; [done|]. split; [by rewrite (left_id_L ∅ (∪))|].
    intros batch Hb. by apply elem_of_nil in Hb.
  - done.
  - intros e. by rewrite Hdel.
Qed.

Lemma Delayed_mono (m1 m2 : gmap string ValidPathInfo) e :
  (forall o info, m1 !! o = Some info -> m2 !! o = Some info) ->
  Delayed store host b m1 e -> Delayed store host b m2 e.
Proof.
  intros Hsub (o & m & wantedHash & made & got & Hout & Hinfo & Hca & He).
  exists o, m, wantedHash, made, got. split; [done|]. split; [by apply Hsub|]. done.
Qed.

Lemma finalizeOutput_SecondPass l1 w1 seen l w n l' w' :
  buildMode b <> bmCheck ->
  SecondPass' l1 w1 seen l w -> n ∉ seen ->
  finalizeOutput' l w n = Continue l' w' ->
  SecondPass' l1 w1 (seen ++ [n]) l' w'.
Proof.
  intros Hmode [Htab Hkeys Hinfos Hall Hfinal Hcommits Hdrv Hdel] Hn Hrun.
  destruct (finalizeOutput_Continue _ _ _ _ _ Hmode Hrun)
    as (output & sp & Hout & Hsp & [(p & Hentry & -> & ->)|Hreg]).
  - (* an output that was valid already *)
    destruct (finish_frame n sp p l) as (Hft & Hfi & Hfd & Hff & Hfr).
    split.
    + by eapply sameTables_trans.
    + intros o. rewrite Hfi. intros Ho. apply elem_of_app. left. by apply Hkeys.
    + intros o info. rewrite Hfi. apply Hinfos.
    + intros o refs Ho Hr. rewrite Hfi. apply elem_of_app in Ho as [Ho|Ho]; [by eapply Hall|].
      apply list_elem_of_singleton in Ho as ->.
      destruct Htab as (_ & _ & Hrefs & _). rewrite Hrefs in Hentry. congruence.
    + intros o Ho. rewrite Hff, Hfr. apply elem_of_app in Ho as [Ho|Ho].
      * destruct (Hfinal o Ho) as (sp' & final & Hsp' & Hfin & Hrw).
        exists sp', final. split; [done|].
        assert (o <> n) by (intros ->; done).
        rewrite lookup_insert_ne by done. split; [done|].
        intros Hne. specialize (Hrw Hne). case_decide; [|done].
        destruct (decide (hashPart sp = hashPart sp')) as [->|?].
        -- rewrite lookup_insert_eq. by eexists.
        -- by rewrite lookup_insert_ne.
      * apply list_elem_of_singleton in Ho as ->. exists sp, p. split; [done|].
        rewrite lookup_insert_eq. split; [done|]. intros Hne.
        rewrite decide_True by done. rewrite lookup_insert_eq. by eexists.
    + destruct Hcommits as (new & Hc & Hv & Hb). exists new. split; [done|]. split; [done|].
      intros batch Hbatch. rewrite Hfi. by apply Hb.
    + done.
    + intros e. rewrite Hfd, Hfi. apply Hdel.
  - (* an output that is registered *)
    destruct Hreg as (refs & made & l0 & w0 & Hentry & Hmade & Hs & -> & Hdrv' & Hw').
    pose proof Hmade as (Hrefs & Hmt & Hmf & Hmi & Hkind).
    destruct (finish_frame n sp (info_path made) l0) as (Hft & Hfi & Hfd & Hff & Hfr).
    assert (Hfresh : infos l !! n = None).
    { destruct (infos l !! n) eqn:Hl; [|done]. exfalso. apply Hn, Hkeys. by eexists. }
    assert (Hemplace : emplace n (finalInfo' made) (infos (finish n sp (info_path made) l0))
                       = <[n := finalInfo' made]> (infos l)).
    { unfold emplace. by rewrite Hfi, Hmi, Hfresh. }
    assert (Hkeep : forall o info, infos l !! o = Some info ->
              (<[n := finalInfo' made]> (infos l)) !! o = Some info).
    { intros o info Ho. rewrite lookup_insert_ne; [done|]. intros <-. congruence. }
    assert (Hrw_mono : forall k, is_Some (outputRewrites l !! k) ->
              is_Some (outputRewrites (finish n sp (info_path made) l0) !! k)).
    { intros k Hk. rewrite Hfr.
      assert (Hk0 : is_Some (outputRewrites l0 !! k)).
      { destruct output as [p|m wh|m a| |m a]; simpl in Hkind.
        - destruct Hkind as (_ & _ & -> & _).
          destruct (decide (sp <> p)); [|done].
          destruct (decide (hashPart sp = k)) as [->|?].
          + rewrite lookup_insert_eq. by eexists.
          + by rewrite lookup_insert_ne.
        - destruct Hkind as (got & _ & -> & _). done.
        - destruct Hkind as (got & _ & -> & _). done.
        - done.
        - destruct Hkind as (got & _ & -> & _). done. }
      destruct (decide (sp <> info_path made)); [|done].
      destruct (decide (hashPart sp = k)) as [->|?].
      - rewrite lookup_insert_eq. by eexists.
      - by rewrite lookup_insert_ne. }
    split; simpl.
    + eapply sameTables_trans; [done|]. eapply sameTables_trans; [done|]. done.
    + intros o. rewrite Hemplace. intros Ho. apply elem_of_app.
      destruct (decide (o = n)) as [->|Hne]; [right; by apply list_elem_of_singleton|].
      left. apply Hkeys. by rewrite lookup_insert_ne in Ho.
    + intros o info. rewrite Hemplace.
      destruct (decide (o = n)) as [->|Hne].
      * rewrite lookup_insert_eq. intros [= <-].
        exists output, sp, refs, made, l, l0. split; [done|]. split; [done|].
        split; [|done]. destruct Htab as (_ & _ & Hr & _). by rewrite <- Hr.
      * rewrite lookup_insert_ne by done. apply Hinfos.
    + intros o refs' Ho Hr. rewrite Hemplace.
      destruct (decide (o = n)) as [->|Hne]; [rewrite lookup_insert_eq; by eexists|].
      rewrite lookup_insert_ne by done.
      apply elem_of_app in Ho as [Ho|Ho]; [by eapply Hall|].
      by apply list_elem_of_singleton in Ho.
    + intros o Ho. rewrite Hff. apply elem_of_app in Ho as [Ho|Ho].
      * destruct (Hfinal o Ho) as (sp' & final & Hsp' & Hfin & Hrw).
        exists sp', final. split; [done|].
        assert (o <> n) by (intros ->; done).
        rewrite lookup_insert_ne by done. rewrite Hmf. split; [done|].
        intros Hne. by apply Hrw_mono, Hrw.
      * apply list_elem_of_singleton in Ho as ->. exists sp, (info_path made).
        split; [done|]. rewrite lookup_insert_eq. split; [done|]. intros Hne.
        rewrite Hfr, decide_True by done. rewrite lookup_insert_eq. by eexists.
    + destruct Hcommits as (new & Hc & Hv & Hb). destruct Hs as (Hsv & Hsc & Hsd).
      destruct (ca made) as [c|] eqn:Hca.
      * destruct Hw' as [Hv' Hc'].
        exists ({[info_path made := finalInfo' made]} :: new).
        split; [by rewrite Hc', Hc|].
        split; [rewrite Hv', Hv; simpl; by rewrite (assoc_L (∪))|].
        intros batch Hbatch. rewrite Hemplace.
        apply elem_of_cons in Hbatch as [->|Hbatch].
        -- exists n, (finalInfo' made). rewrite lookup_insert_eq. split; [done|].
           split; [|done]. unfold finalInfo. simpl. by rewrite Hca.
        -- destruct (Hb batch Hbatch) as (o & info & Ho & Hcao & ->).
           exists o, info. split; [by apply Hkeep|done].
      * destruct Hw' as [Hv' Hc']. exists new.
        split; [by rewrite Hc'|]. split; [by rewrite Hv'|].
        intros batch Hbatch. rewrite Hemplace.
        destruct (Hb batch Hbatch) as (o & info & Ho & Hcao & ->).
        exists o, info. split; [by apply Hkeep|done].
    + by rewrite Hdrv'.
    + intros e. rewrite Hfd, Hemplace. intros He.
      assert (Hold : delayedException l = Some e -> Delayed store host b
                        (<[n := finalInfo' made]> (infos l)) e).
      { intros Hl. eapply Delayed_mono; [apply Hkeep|by apply Hdel]. }
      destruct output as [p|m wh|m a| |m a]; simpl in Hkind.
      * destruct Hkind as (_ & _ & _ & Hd). apply Hold. congruence.
      * destruct Hkind as (got & Hca & _ & Hd). rewrite Hd in He.
        case_decide as Hr.
        { simplify_eq. exists n, m, wh, made, got. rewrite lookup_insert_eq.
          split; [done|]. split; [done|]. split; [done|]. by left. }
        case_decide as Hm.
        { simplify_eq. exists n, m, wh, made, got. rewrite lookup_insert_eq.
          split; [done|]. split; [done|]. split; [done|]. right.
          split; [|done]. by destruct (decide (references made = ∅)). }
        by apply Hold.
      * destruct Hkind as (got & _ & _ & Hd). apply Hold. congruence.
      * done.
      * destruct Hkind as (got & _ & _ & Hd). apply Hold. congruence.
Qed.

End SecondPassFacts.
(** ** Registration as a whole *)

(** A loop that raises: the state it was in when the raising iteration
    began. *)
Lemma forEach_prefix_raise body (P : list string -> Locals -> World -> Prop) :
  (forall seen l w n l' w',
     P seen l w -> n ∉ seen -> body l w n = Continue l' w' -> P (seen ++ [n]) l' w') ->
  forall names seen l w e l' w',
    NoDup (seen ++ names) -> P seen l w ->
    forEach body l w names = Raise e l' w' ->
    exists seen' l0 w0 n, P seen' l0 w0 /\ n ∈ names /\ body l0 w0 n = Raise e l' w'.
Proof.
  intros Hstep names. induction names as [|n names IH]; intros seen l w e l' w' Hnd HP Hrun;
    simpl in Hrun; [done|].
  destruct (body l w n) as [l1 w1|e1 l1 w1] eqn:Hb.
  - replace (seen ++ n :: names) with ((seen ++ [n]) ++ names) in Hnd by by rewrite <- app_assoc.
    destruct (IH (seen ++ [n]) l1 w1 e l' w' Hnd) as (seen' & l0 & w0 & k & ? & ? & ?); [|done|].
    + eapply Hstep; [done| |done].
      apply NoDup_app in Hnd as (Hnd & _ & _). apply NoDup_app in Hnd as (_ & Hnd & _).
      intros Hin. apply (Hnd n Hin). by apply list_elem_of_singleton.
    + exists seen', l0, w0, k. split; [done|]. split; [by right|done].
  - simplify_eq. exists seen, l, w, n. split; [done|]. split; [by left|done].
Qed.

Lemma infosByPath_fold (es : list (string * ValidPathInfo)) (acc : gmap StorePath ValidPathInfo) :
  let acc' := foldl (fun acc e => <[info_path e.2 := e.2]> acc) acc es in
  (forall p i, acc' !! p = Some i -> acc !! p = Some i \/ exists o, (o, i) ∈ es /\ info_path i = p)
  /\ (forall o i, (o, i) ∈ es -> exists i', acc' !! info_path i = Some i' /\ info_path i' = info_path i)
  /\ (forall p i, acc !! p = Some i -> info_path i = p ->
        exists i', acc' !! p = Some i' /\ info_path i' = p).
Proof.
  revert acc. induction es as [|[o1 i1] es IH]; intros acc; simpl.
  - split; [by left|]. split; [by intros ? ? ?%elem_of_nil|]. by eauto.
  - destruct (IH (<[info_path i1 := i1]> acc)) as (H1 & H2 & H3). simpl in *.
    split; [|split].
    + intros p i Hp. destruct (H1 p i Hp) as [Hacc|(o & Ho & ?)].
      * destruct (decide (info_path i1 = p)) as [<-|Hne].
        -- rewrite lookup_insert_eq in Hacc. simplify_eq. right. exists o1. split; [by left|done].
        -- rewrite lookup_insert_ne in Hacc by done. by left.
      * right. exists o. split; [by right|done].
    + intros o i Ho. apply elem_of_cons in Ho as [Heq|Ho]; [|by eapply H2].
      simplify_eq. apply (H3 _ i1); [by rewrite lookup_insert_eq|done].
    + intros p i Hp Hpi. destruct (decide (info_path i1 = p)) as [<-|Hne].
      * apply (H3 _ i1); [by rewrite lookup_insert_eq|done].
      * apply (H3 _ i); [by rewrite lookup_insert_ne|done].
Qed.

(** [infos2] holds infos of [infos] only, each under its path, and one
    for the path of each of them. *)
Lemma infosByPath_spec (m : gmap string ValidPathInfo) :
  (forall p i, infosByPath m !! p = Some i -> exists o, m !! o = Some i /\ info_path i = p)
  /\ (forall o i, m !! o = Some i ->
        exists i', infosByPath m !! info_path i = Some i' /\ info_path i' = info_path i).
Proof.
  unfold infosByPath.
  destruct (infosByPath_fold (ordered_entries m) ∅) as (H1 & H2 & _). simpl in *.
  split.
  - intros p i Hp. destruct (H1 p i Hp) as [Hacc|(o & Ho & ?)]; [by rewrite lookup_empty in Hacc|].
    exists o. split; [by apply elem_of_ordered_entries|done].
  - intros o i Ho. apply (H2 o). by apply elem_of_ordered_entries.
Qed.

Section RegisterFacts.
Variable store : Store.
Variable host : Host.
Variable checkOutputs : World -> gmap string ValidPathInfo -> option string.
Variable b : Build.

Abbreviation registerOutputs' := (registerOutputs store host checkOutputs b).
Abbreviation refersTo := (outputRefersTo b).

Lemma realiseAll_spec l es acc :
  (forall e, e ∈ es -> is_Some (initialOutputs l !! e.1)) ->
  exists builtOutputs w',
    realiseAll host b l acc es = Returned (builtOutputs, w')
    /\ validPaths w' = validPaths acc.2 /\ commits w' = commits acc.2.
Proof.
  revert acc. induction es as [|[o i] es IH]; intros [built w] Hall; simpl.
  - by exists built, w.
  - destruct (Hall (o, i)) as [oldinfo Hold]; [by left|]. simpl in Hold. rewrite Hold.
    assert (Hrest : forall e, e ∈ es -> is_Some (initialOutputs l !! e.1)).
    { intros e He. apply Hall. by right. }
    case_match; simpl;
      match goal with
      | |- context [realiseAll host b l ?acc' es] =>
          destruct (IH acc' Hrest) as (bo & w' & -> & ? & ?)
      end; by exists bo, w'.
Qed.

(** After the first pass, the edges the sort follows are the references
    between outputs. *)
Lemma edge_refersTo initial l1 u v :
  FirstPass store host b initial (ordered (dom (drvOutputs b))) l1 ->
  edge (outputsToSort l1) (getChildren store b l1) u v <-> refersTo l1 u v.
Proof.
  intros Hfp. unfold edge, outputRefersTo, getChildren. split.
  - intros (refs & Hch & Hv & Hne & Hin).
    destruct (outputReferencesIfUnregistered l1 !! u) as [[p|rs]|]; [| |done].
    + by simplify_eq.
    + simplify_eq. apply elem_of_dom in Hv as [spv Hspv].
      apply map_lookup_filter_Some in Hspv as [Hspv Hrs]. simpl in Hrs.
      by exists rs, spv.
  - intros (rs & spv & -> & Hspv & Hrs & Hne & Hin). eexists. split; [done|].
    split; [|done]. apply elem_of_dom. exists spv.
    by apply map_lookup_filter_Some.
Qed.

Lemma firstPass_items initial l1 o :
  FirstPass store host b initial (ordered (dom (drvOutputs b))) l1 ->
  o ∈ outputsToSort l1 <-> o ∈ dom (drvOutputs b).
Proof.
  intros Hfp. rewrite (fp_sort _ _ _ _ _ _ Hfp), elem_of_list_to_set. apply elem_of_ordered.
Qed.

(** The order of the second pass: every output of the derivation once, an
    output after the outputs it refers to; or the cycle error for two
    outputs on a cycle of references. *)
Lemma sortedOutputNames_spec initial l1 :
  FirstPass store host b initial (ordered (dom (drvOutputs b))) l1 ->
  match sortedOutputNames store b l1 with
  | Returned names =>
      NoDup names /\ (forall o, o ∈ names <-> o ∈ dom (drvOutputs b))
      /\ forall u v, refersTo l1 u v -> before names v u
  | Threw f =>
      exists path parent,
        f = Raised (makeCycleError store b path parent)
        /\ refersTo l1 parent path /\ rtc (refersTo l1) path parent
  end.
Proof.
  intros Hfp. unfold sortedOutputNames.
  destruct (topoSort (outputsToSort l1) (getChildren store b l1) (makeCycleError store b))
    as [names|f] eqn:Hsort; simpl.
  - destruct (topoSort_returns _ _ _ _ Hsort) as (Hnd & Hmem & Hord).
    split; [by rewrite reverse_Permutation|].
    split.
    + intros o. rewrite elem_of_reverse, Hmem. by eapply firstPass_items.
    + intros u v Huv. apply before_reverse, Hord.
      * destruct Huv as (refs & spv & Hu & _).
        destruct (decide (u ∈ dom (drvOutputs b))) as [Hin|Hout].
        -- by eapply firstPass_items.
        -- destruct (fp_todo _ _ _ _ _ _ Hfp u) as [_ Hnone];
             [by rewrite elem_of_ordered|congruence].
      * by eapply edge_refersTo.
  - apply topoSort_fails in Hsort. destruct Hsort as [u e Hu Hch|path parent Hedge Hreach].
    + exfalso. apply (firstPass_items _ _ _ Hfp) in Hu.
      destruct (fp_entry _ _ _ _ _ _ Hfp u ltac:(by apply elem_of_ordered))
        as (sp & io & _ & _ & _ & Hcase).
      unfold getChildren in Hch.
      destruct (wantedOf b io).
      * destruct Hcase as (st & _ & _ & Hr & _). by rewrite Hr in Hch.
      * destruct Hcase as (k & _ & _ & Hr). by rewrite Hr in Hch.
    + exists path, parent. split; [done|]. split; [by eapply edge_refersTo|].
      eapply rtc_subrel; [|done]. intros x y Hxy. by eapply edge_refersTo.
Qed.


Lemma checkOutput_Raise l w o e l' w' :
  checkOutput store host b l w o = Raise e l' w' -> isDelayedKind e = false /\ sameStore w w'.
Proof.
  unfold checkOutput. intros Hrun.
  repeat (case_match; simplify_eq); split; try done; apply sameStore_refl.
Qed.

Lemma firstPass_Raise names l w e l' w' :
  forEach (checkOutput store host b) l w names = Raise e l' w' ->
  isDelayedKind e = false /\ sameStore w w'.
Proof.
  revert l w. induction names as [|n names IH]; intros l w Hrun; simpl in Hrun; [done|].
  destruct (checkOutput store host b l w n) as [l1 w1|e1 l1 w1] eqn:Hb.
  - destruct (IH _ _ Hrun) as [He Hs]. split; [done|].
    eapply sameStore_trans; [|done].
    destruct (checkOutput_Continue _ _ _ _ _ _ _ _ Hb)
      as (sp & io & _ & _ & _ & _ & _ & _ & _ & _ & Hcase).
    destruct (wantedOf b io).
    + destruct Hcase as (st & _ & _ & _ & _ & ->). apply sameStore_canonicalise, sameStore_refl.
    + destruct Hcase as (k & _ & _ & _ & _ & ->). apply sameStore_refl.
  - simplify_eq. by eapply checkOutput_Raise.
Qed.

(** Outside a check build [registerOutputs] ends in one of three ways. *)
Lemma registerOutputs_trace initial w w' res :
  buildMode b <> bmCheck ->
  registerOutputs' initial w = (w', res) ->
  RegisterTrace store host b initial w w' res.
Proof.
  intros Hmode. unfold registerOutputs.
  destruct (forEach (checkOutput store host b) (emptyLocals initial) w
              (ordered (dom (drvOutputs b)))) as [l1 w1|e l1 w1] eqn:Hfirst.
  2: { intros ?; simplify_eq. destruct (firstPass_Raise _ _ _ _ _ _ Hfirst).
       by eapply Trace_rejected. }
  destruct (firstPass_done _ _ _ _ _ _ _ Hfirst) as [Hfp Hs1].
  pose proof (sortedOutputNames_spec initial l1 Hfp) as Hsort.
  destruct (sortedOutputNames store b l1) as [names|f] eqn:Hnames.
  2: { destruct Hsort as (path & parent & -> & _). intros ?; simplify_eq.
       by eapply Trace_rejected. }
  destruct Hsort as (Hnd & Hmem & Hord).
  assert (Hstart : SecondPass store host b l1 w1 [] l1 w1).
  { apply SecondPass_start; [apply (fp_infos _ _ _ _ _ _ Hfp)|apply (fp_delayed _ _ _ _ _ _ Hfp)]. }
  destruct (forEach (finalizeOutput store host b) l1 w1 names) as [l2 w2|e l2 w2] eqn:Hsecond.
  2: { intros ?; simplify_eq.
       destruct (forEach_prefix_raise (finalizeOutput store host b)
                   (SecondPass store host b l1 w1)
                   ltac:(intros; by eapply finalizeOutput_SecondPass)
                   names [] l1 w1 e l2 w' Hnd Hstart Hsecond)
         as (seen & l0 & w0 & n & Hinv & _ & Hraise).
       destruct (finalizeOutput_Raise _ _ _ _ _ _ _ _ _ Hraise).
       by eapply Trace_stopped. }
  pose proof (forEach_prefix_ind (finalizeOutput store host b)
                (SecondPass store host b l1 w1)
                ltac:(intros; by eapply finalizeOutput_SecondPass)
                names [] l1 w1 l2 w2 Hnd Hstart Hsecond) as Hinv.
  simpl in Hinv.
  unfold commitOutputs. rewrite decide_False by done.
  destruct (checkOutputs w2 (infos l2)) as [msg|] eqn:Hcheck.
  { intros ?; simplify_eq. eapply Trace_stopped; first [done|apply sameStore_refl]. }
  destruct (delayedException l2) as [e|] eqn:Hdel.
  { intros ?; simplify_eq. eapply Trace_committed; try done. by rewrite Hdel. }
  destruct (realiseAll_spec l2 (ordered_entries (infos l2))
              (∅, registerValidPaths (infosByPath (infos l2)) w2))
    as (built & w3 & Hreal & Hv3 & Hc3).
  { intros [o i] Ho. simpl. apply elem_of_ordered_entries in Ho.
    assert (Hin : o ∈ names) by (apply (s2_keys _ _ _ _ _ _ _ _ Hinv); by eexists).
    apply Hmem in Hin.
    destruct (fp_entry _ _ _ _ _ _ Hfp o ltac:(by apply elem_of_ordered))
      as (sp & io & _ & _ & Hio & _).
    destruct (s2_tables _ _ _ _ _ _ _ _ Hinv) as (Hinit & _). rewrite Hinit. by eexists. }
  rewrite Hreal. intros ?; simplify_eq.
  eapply Trace_committed; try done. rewrite Hdel. by eexists.
Qed.

End RegisterFacts.
(** ** What registerOutputs registers, and when *)

Section RegisterTheorems.
Variable store : Store.
Variable host : Host.
Variable checkOutputs : World -> gmap string ValidPathInfo -> option string.
Variable b : Build.

Abbreviation registerOutputs'' := (registerOutputs store host checkOutputs b).

Lemma finalInfo_fields made :
  info_path (finalInfo host b made) = info_path made
  /\ references (finalInfo host b made) = references made
  /\ ca (finalInfo host b made) = ca made.
Proof. done. Qed.

(** With input-addressed outputs only, the second pass registers nothing. *)
Lemma input_addressed_no_early_commit l1 w1 seen l w :
  (forall o output, drvOutputs b !! o = Some output -> exists p, output = InputAddressed p) ->
  SecondPass store host b l1 w1 seen l w ->
  validPaths w = validPaths w1 /\ commits w = commits w1 /\ delayedException l = None.
Proof.
  intros Hia Hinv.
  destruct (s2_commits _ _ _ _ _ _ _ _ Hinv) as (new & Hc & Hv & Hb).
  assert (Hnew : new = []).
  { destruct new as [|batch new]; [done|]. exfalso.
    destruct (Hb batch ltac:(by left)) as (o & info & Ho & Hca & _).
    destruct (s2_infos _ _ _ _ _ _ _ _ Hinv o info Ho)
      as (output & sp & refs & made & l0 & l0' & Hout & _ & _ & Hmade & ->).
    destruct (Hia o output Hout) as [p ->].
    destruct Hmade as (_ & _ & _ & _ & _ & Hcam & _). unfold finalInfo in Hca. simpl in Hca.
    by rewrite Hcam in Hca. }
  subst new. simpl in *. rewrite (left_id_L ∅ (∪)) in Hv. split; [done|]. split; [done|].
  destruct (delayedException l) as [e|] eqn:Hdel; [|done]. exfalso.
  destruct (s2_delayed _ _ _ _ _ _ _ _ Hinv e Hdel) as (o & m & wh & made & got & Hout & _).
  destruct (Hia o _ Hout) as [p ?]. done.
Qed.

(** C2, as amended. Outside a check build, when every output of the
    derivation is input-addressed, the one call of [registerValidPaths] that
    follows the output checks is the only registration: either the build
    fails and the store is as it was, or that one call registers the paths
    of all outputs that were not valid before, and the build succeeds. (An
    output with a content address is registered on its own, at once, when
    the second pass is done with it.) *)
Theorem input_addressed_outputs_registered_together
    (initial : gmap string InitialOutput) (w w' : World)
    (res : Outcome Error (gmap string Realisation)) :
  buildMode b <> bmCheck ->
  (forall o output, drvOutputs b !! o = Some output -> exists p, output = InputAddressed p) ->
  registerOutputs'' initial w = (w', res) ->
  (validPaths w' = validPaths w /\ commits w' = commits w /\ exists e, res = Threw e)
  \/ (exists batch builtOutputs,
        commits w' = batch :: commits w /\ validPaths w' = batch ∪ validPaths w
        /\ res = Returned builtOutputs
        /\ (forall p i, batch !! p = Some i ->
              info_path i = p /\ exists o, drvOutputs b !! o = Some (InputAddressed p))
        /\ forall o p io, drvOutputs b !! o = Some (InputAddressed p) ->
             initial !! o = Some io -> wantedOf b io = true -> is_Some (batch !! p)).
Proof.
  intros Hmode Hia Hrun.
  destruct (registerOutputs_trace _ _ _ _ _ _ _ _ Hmode Hrun)
    as [e -> _ (Hv & Hc & _)
       |e l1 w1 seen l0 w0 -> _ Hfp (Hv1 & Hc1 & _) Hinv (Hv0 & Hc0 & _)
       |l1 w1 names l2 w2 Hfp (Hv1 & Hc1 & _) Hmem Hinv Hv' Hc' Hres].
  - left. eauto.
  - left. destruct (input_addressed_no_early_commit _ _ _ _ _ Hia Hinv) as (Hv & Hc & _).
    split; [congruence|]. split; [congruence|]. eauto.
  - right. destruct (input_addressed_no_early_commit _ _ _ _ _ Hia Hinv) as (Hv & Hc & Hdel).
    rewrite Hdel in Hres. destruct Hres as [built ->].
    exists (infosByPath (infos l2)), built.
    split; [congruence|]. split; [congruence|]. split; [done|].
    destruct (infosByPath_spec (infos l2)) as [Hfrom Hcover].
    split.
    + intros p i Hp. destruct (Hfrom p i Hp) as (o & Ho & Hpath). split; [done|].
      destruct (s2_infos _ _ _ _ _ _ _ _ Hinv o i Ho)
        as (output & sp & refs & made & l0 & l0' & Hout & _ & _ & Hmade & ->).
      destruct (Hia o output Hout) as [p' ->].
      destruct Hmade as (_ & _ & _ & _ & Hp' & _). simpl in *. exists o. congruence.
    + intros o p io Hout Hio Hwanted.
      assert (Hdom : o ∈ dom (drvOutputs b)) by (apply elem_of_dom; by eexists).
      destruct (fp_entry _ _ _ _ _ _ Hfp o ltac:(by apply elem_of_ordered))
        as (sp & io' & Hsp & Hio' & _ & Hcase).
      assert (io' = io) by congruence. subst io'. rewrite Hwanted in Hcase.
      destruct Hcase as (st & _ & _ & Hentry & _).
      destruct (s2_all _ _ _ _ _ _ _ _ Hinv o _ ltac:(by apply Hmem) Hentry) as [info Hinfo].
      destruct (s2_infos _ _ _ _ _ _ _ _ Hinv o info Hinfo)
        as (output & sp' & refs & made & l0 & l0' & Hout' & _ & _ & Hmade & ->).
      assert (output = InputAddressed p) by congruence. subst output.
      destruct Hmade as (_ & _ & _ & _ & Hp' & _).
      destruct (Hcover o _ Hinfo) as (i' & Hi' & _). simpl in Hi'. rewrite Hp' in Hi'.
      by eexists.
Qed.






Lemma singleton_list (o : string) (names : list string) :
  NoDup names -> (forall x, x ∈ names <-> x = o) -> names = [o].
Proof.
  intros Hnd Hmem. destruct names as [|x [|y rest]].
  - exfalso. by apply (not_elem_of_nil o), Hmem.
  - f_equal. apply Hmem. by left.
  - exfalso. assert (x = o) by (apply Hmem; by left).
    assert (y = o) by (apply Hmem; right; by left). subst.
    apply NoDup_cons in Hnd as [Hnd _]. apply Hnd. by left.
Qed.

(** The second pass of a derivation with one output takes that output. *)
Lemma sortedOutputNames_single initial l1 o output :
  drvOutputs b = {[o := output]} ->
  FirstPass store host b initial (ordered (dom (drvOutputs b))) l1 ->
  sortedOutputNames store b l1 = Returned [o].
Proof.
  intros Hone Hfp. pose proof (sortedOutputNames_spec store host b initial l1 Hfp) as Hsort.
  assert (Hdom : forall x, x ∈ dom (drvOutputs b) <-> x = o).
  { intros x. rewrite Hone, dom_singleton_L. set_solver. }
  destruct (sortedOutputNames store b l1) as [names|f].
  - destruct Hsort as (Hnd & Hmem & _). f_equal. apply singleton_list; [done|].
    intros x. by rewrite Hmem.
  - exfalso. destruct Hsort as (path & parent & _ & (refs & spv & Hentry & _ & _ & Hne & Hin) & _).
    apply (firstPass_items _ _ _ _ _ _ Hfp), Hdom in Hin. subst path.
    destruct (decide (parent = o)) as [->|Hpo]; [done|].
    destruct (fp_todo _ _ _ _ _ _ Hfp parent) as [_ Hnone]; [|congruence].
    rewrite elem_of_ordered, Hdom. done.
Qed.

(** C10. A fixed output whose hash differs from the declared one and whose
    reference set is not empty leaves one delayed exception behind: the
    error on references is assigned after the hash mismatch and takes its
    place. For a derivation whose one output it is, built outside a check
    build and passing the output checks, [registerOutputs] therefore throws
    the error on references; the mismatch is only noted to the scheduler,
    and the path is registered. *)
Theorem reference_error_replaces_hash_mismatch
    (initial : gmap string InitialOutput) (w : World) (o : string)
    (m : ContentAddressMethod) (wantedHash got : Hash) (sp : StorePath)
    (refs : gset StorePath) (l1 : Locals) (w1 wm : World) (made : ValidPathInfo) :
  drvOutputs b = {[o := CAFixed m wantedHash]} ->
  buildMode b <> bmCheck ->
  (forall w0 i, checkOutputs w0 i = None) ->
  forEach (checkOutput store host b) (emptyLocals initial) w (ordered (dom (drvOutputs b)))
    = Continue l1 w1 ->
  buildScratchOutputs b !! o = Some sp ->
  outputReferencesIfUnregistered l1 !! o = Some (PerhapsNeedToRegister refs) ->
  newInfoFromCA store host b l1 w1 o sp (actualPathOf store b sp) refs m (algo wantedHash)
    = Returned (made, wm) ->
  ca made = Some (mkCA m got) -> wantedHash <> got ->
  references made <> ∅ ->
  (forall l' w',
     makeInfo store host b l1 w1 o (CAFixed m wantedHash) sp (actualPathOf store b sp) refs
       = Returned (made, l', w') ->
     delayedException l' = Some (BuildError (FixedOutputReferences (drvPathS store b))))
  /\ exists w',
       registerOutputs'' initial w
         = (w', Threw (BuildError (FixedOutputReferences (drvPathS store b))))
       /\ noteHashMismatch ∈ notes w'
       /\ is_Some (validPaths w' !! info_path made).
Proof.
  intros Hone Hmode Hchecks Hfirst Hsp Hentry Hnew Hca Hmis Hrefs.
  assert (Hmake : makeInfo store host b l1 w1 o (CAFixed m wantedHash) sp
                    (actualPathOf store b sp) refs
                  = Returned (made,
                      setDelayedException
                        (Some (BuildError (FixedOutputReferences (drvPathS store b))))
                        (setDelayedException
                           (Some (BuildError
                                    (HashMismatch (drvPathS store b)
                                       (Hash_to_string host wantedHash SRI true)
                                       (Hash_to_string host got SRI true)))) l1),
                      addNote noteHashMismatch wm)).
  { unfold makeInfo. rewrite Hnew. simpl. rewrite Hca. simpl.
    rewrite decide_True by done. by rewrite decide_True. }
  split.
  { intros l' w'. rewrite Hmake. by intros ?; simplify_eq. }
  destruct (firstPass_done _ _ _ _ _ _ _ Hfirst) as [Hfp _].
  unfold registerOutputs. rewrite Hfirst.
  rewrite (sortedOutputNames_single initial l1 o _ Hone Hfp). simpl.
  unfold finalizeOutput. rewrite Hone, lookup_singleton_eq, Hsp, Hentry.
  fold (actualPathOf store b sp). rewrite Hmake.
  rewrite decide_False by done. rewrite Hca.
  unfold commitOutputs. rewrite decide_False by done. rewrite Hchecks.
  match goal with
  | |- context [delayedException (setInfos ?i (finish ?a ?c ?d ?l))] =>
      replace (delayedException (setInfos i (finish a c d l)))
        with (delayedException l)
        by (symmetry; apply (finish_frame a c d l))
  end.
  simpl. eexists. split; [done|]. split.
  - simpl. right. by left.
  - simpl. apply lookup_union_is_Some. right. apply lookup_union_is_Some. left.
    rewrite lookup_singleton_eq. by eexists.
Qed.

End RegisterTheorems.

(** ** The order of the second pass *)

Lemma continues_spec (s : Step) :
  continues s = true -> s = Continue (stepLocals s) (stepWorld s).
Proof. by destruct s. Qed.



Lemma before_prefix (pre post : list string) (o v : string) :
  NoDup (pre ++ o :: post) -> before (pre ++ o :: post) v o -> v ∈ pre.
Proof.
  intros Hnd (i & j & Hi & Hj & Hlt).
  assert (Ho : (pre ++ o :: post) !! length pre = Some o).
  { by rewrite lookup_app_r, Nat.sub_diag by lia. }
  assert (j = length pre) as -> by (eapply NoDup_lookup; eauto).
  rewrite lookup_app_l in Hi by done. by eapply list_elem_of_lookup_2.
Qed.

Section OrderTheorems.

Variable store : Store.
Variable host : Host.
Variable checkOutputs : World -> gmap string ValidPathInfo -> option string.
Variable b : Build.

Abbreviation firstPass initial w :=
  (forEach (checkOutput store host b) (emptyLocals initial) w (ordered (dom (drvOutputs b)))).

(** When the sort succeeds, the second pass takes every output of the
    derivation once, and an output that mentions the scratch path of
    another one after that one. An output that was valid before the build
    has no edge to another output. *)
Theorem second_pass_takes_referenced_outputs_first
    (initial : gmap string InitialOutput) (w : World) (l1 : Locals) (w1 : World)
    (names : list string) :
  firstPass initial w = Continue l1 w1 ->
  sortedOutputNames store b l1 = Returned names ->
  NoDup names
  /\ (forall o, o ∈ names <-> o ∈ dom (drvOutputs b))
  /\ (forall u v, outputRefersTo b l1 u v -> before names v u)
  /\ forall o p, outputReferencesIfUnregistered l1 !! o = Some (AlreadyRegistered p) ->
       getChildren store b l1 o = Returned ∅ /\ forall v, ~ outputRefersTo b l1 o v.
Proof.
  intros Hfirst Hsorted.
  destruct (firstPass_done _ _ _ _ _ _ _ Hfirst) as [Hfp _].
  pose proof (sortedOutputNames_spec store host b initial l1 Hfp) as Hspec.
  rewrite Hsorted in Hspec. destruct Hspec as (Hnd & Hmem & Hord).
  split; [done|]. split; [done|]. split; [done|].
  intros o p Hreg. split.
  - unfold getChildren. by rewrite Hreg.
  - intros v (refs & spv & Hentry & _). congruence.
Qed.


(** Outside a check build, when the second pass comes to hash the output
    [o], it is done with every output [v] that [o] mentions: the final path
    of [v] is known, and where it differs from the scratch path of [v], the
    rewrite of the scratch hash of [v] is in [outputRewrites]. *)
Theorem rewrites_installed_before_output_is_hashed
    (initial : gmap string InitialOutput) (w : World) (l1 : Locals) (w1 : World)
    (pre post : list string) (o : string) (l : Locals) (w2 : World) :
  buildMode b <> bmCheck ->
  firstPass initial w = Continue l1 w1 ->
  sortedOutputNames store b l1 = Returned (pre ++ o :: post) ->
  forEach (finalizeOutput store host b) l1 w1 pre = Continue l w2 ->
  forall v, outputRefersTo b l1 o v ->
    v ∈ pre
    /\ exists sp final,
         buildScratchOutputs b !! v = Some sp /\ finalOutputs l !! v = Some final
         /\ (sp <> final -> is_Some (outputRewrites l !! hashPart sp)).
Proof.
  intros Hmode Hfirst Hsorted Hpre v Hrefers.
  destruct (firstPass_done _ _ _ _ _ _ _ Hfirst) as [Hfp _].
  pose proof (sortedOutputNames_spec store host b initial l1 Hfp) as Hspec.
  rewrite Hsorted in Hspec. destruct Hspec as (Hnd & _ & Hord).
  assert (Hv : v ∈ pre) by (eapply before_prefix; eauto).
  split; [exact Hv|].
  assert (Hinv : SecondPass store host b l1 w1 ([] ++ pre) l w2).
  { eapply (forEach_prefix_ind (finalizeOutput store host b)
              (SecondPass store host b l1 w1)); [| |apply SecondPass_start|exact Hpre].
    - intros seen l0 w0 n l' w' HP Hn Hstep.
      by eapply finalizeOutput_SecondPass.
    - simpl. by apply NoDup_app in Hnd as (? & _ & _).
    - by destruct Hfp.
    - by destruct Hfp. }
  exact (s2_final _ _ _ _ _ _ _ _ Hinv v Hv).
Qed.

End OrderTheorems.
(** ** The facts above on the example builds *)

(** Witness of C1: without a chroot, an output whose final path is present
    and valid is built at the fallback path made from it. *)
Lemma scratch_path_chosen_by_table_witness :
  let initial : gmap string InitialOutput :=
    {[ "out" := mkInitialOutput true (Hash_zero SHA256) (Some (mkStatus helloOut true true)) ]} in
  let final :=
    startBuilder_outputs exampleStore (outputPathName (exampleHost ∅)) exampleHashPlaceholder
      Linux false bmNormal exampleDrvPath "hello" emptyScratchState initial in
  initial !! "out" =
    Some (mkInitialOutput true (Hash_zero SHA256) (Some (mkStatus helloOut true true)))
  /\ scratchOutputs final !! "out" = Some (makeFallbackPath exampleStore exampleDrvPath helloOut).
Proof.
  intros initial final. split; [reflexivity|].
  exact (proj1 (proj2 (scratch_path_chosen_by_table exampleStore (outputPathName (exampleHost ∅))
           exampleHashPlaceholder Linux false bmNormal exampleDrvPath "hello" emptyScratchState
           initial "out"
           (mkInitialOutput true (Hash_zero SHA256) (Some (mkStatus helloOut true true)))
           eq_refl))).
Defined.

(** Witness of C6 as amended: a sandboxed build fails while 4 MiB are
    free, and the failure is transient. *)
Lemma failed_builder_status_witness :
  statusOk (Exited 1) = false
  /\ unprepareBuild exampleStore (exampleHost ∅) noOutputChecks (helloBuild bmNormal)
       true (freeBlocks 1024) "/nix/store" "/tmp/nix-build-hello" true
       (Exited 1) helloInitial emptyWorld
     = (emptyWorld,
        Failure TransientFailure
          (BuildError (CannotBuild "/nix/store/drvhash-hello.drv" (Exited 1) true))).
Proof.
  split; [reflexivity|].
  exact (failed_builder_status exampleStore (exampleHost ∅) noOutputChecks (helloBuild bmNormal)
           true (freeBlocks 1024) "/nix/store" "/tmp/nix-build-hello" true
           (Exited 1) helloInitial emptyWorld eq_refl).
Defined.

(** Counterexample to C6 as stated: the builder of a derivation that is not
    sandboxed (a fixed-output one) exits with status 1 while [statvfs]
    reports about 4 GiB free on both file systems; the failure is
    [TransientFailure], not [PermanentFailure]. *)
Lemma unsandboxed_failure_is_transient :
  statusOk (Exited 1) = false
  /\ belowRequired (freeBlocks 1000000 "/nix/store") = false
  /\ belowRequired (freeBlocks 1000000 "/tmp/nix-build-hello") = false
  /\ (unprepareBuild exampleStore (exampleHost ∅) noOutputChecks (helloBuild bmNormal)
        true (freeBlocks 1000000) "/nix/store" "/tmp/nix-build-hello" false
        (Exited 1) helloInitial emptyWorld).2
     = Failure TransientFailure
         (BuildError (CannotBuild "/nix/store/drvhash-hello.drv" (Exited 1) false)).
Proof. repeat split; vm_compute; reflexivity. Qed.

(** Counterexample to C9 as stated: a request for a path that is an input
    of the build returns without an error and changes nothing. *)
Lemma duplicate_request_is_no_error :
  let st := mkDaemonState ∅ [] in
  isAllowed {[helloDev]} st helloDev = true
  /\ addDependency exampleStore (fun _ => false) (fun _ _ => 0%Z) Linux true "/chroot"
       {[helloDev]} st helloDev = (st, Returned tt).
Proof. split; vm_compute; reflexivity. Qed.



(** Decidable statements on the example builds are settled by evaluation. *)
Ltac evaluated :=
  first [ apply (bool_decide_eq_true_1 _) | apply (proj1 (bool_decide_eq_false _)) ];
  vm_compute; reflexivity.

(** Counterexample to C2 as stated: [dev], a content-addressed output, is
    registered in the second pass; [out], declared flat, is an executable
    file, and the build fails on it. The build ends with one of its two
    outputs valid. *)
Lemma content_addressed_output_registered_before_failure :
  let r := registerOutputs exampleStore (exampleHost (caFiles executableFile)) noOutputChecks
             (caBuild bmNormal camFlat) caInitial emptyWorld in
  dom (drvOutputs (caBuild bmNormal camFlat)) = {["out"; "dev"]}
  /\ r.2 = Threw (BuildError (NotRegularFile (printStorePath exampleStore caOut)))
  /\ dom (validPaths r.1) = {[mkStorePath "<ca:lib>" "hello-dev"]}
  /\ length (commits r.1) = 1%nat.
Proof. repeat split; vm_compute; reflexivity. Qed.

(** Witness of C2 as amended: the build of [hello], whose outputs are
    input-addressed. *)
Lemma input_addressed_outputs_registered_together_witness :
  let r := registerOutputs exampleStore (exampleHost helloFiles) noOutputChecks
             (helloBuild bmNormal) helloInitial emptyWorld in
  (validPaths r.1 = validPaths emptyWorld /\ commits r.1 = commits emptyWorld
   /\ exists e, r.2 = Threw e)
  \/ (exists batch builtOutputs,
        commits r.1 = batch :: commits emptyWorld
        /\ validPaths r.1 = batch ∪ validPaths emptyWorld
        /\ r.2 = Returned builtOutputs
        /\ (forall p i, batch !! p = Some i ->
              info_path i = p
              /\ exists o, drvOutputs (helloBuild bmNormal) !! o = Some (InputAddressed p))
        /\ forall o p io, drvOutputs (helloBuild bmNormal) !! o = Some (InputAddressed p) ->
             helloInitial !! o = Some io -> wantedOf (helloBuild bmNormal) io = true ->
             is_Some (batch !! p)).
Proof.
  intros r.
  apply (input_addressed_outputs_registered_together exampleStore (exampleHost helloFiles)
           noOutputChecks (helloBuild bmNormal) helloInitial emptyWorld r.1 r.2).
  - discriminate.
  - intros o output Hlook. cbn in Hlook.
    apply lookup_insert_Some in Hlook as [[_ <-]|[_ Hlook]]; [by eexists|].
    apply lookup_singleton_Some in Hlook as [_ <-]. by eexists.
  - apply surjective_pairing.
Defined.





(** Witness of C10: the tree of the fixed output [out] names the input of
    the build, so its hash differs from the declared one and its reference
    set is not empty. *)
Lemma reference_error_replaces_hash_mismatch_witness :
  let b := fixedBuild bmNormal in
  let host := exampleHost (fixedFiles "see cccc") in
  let made :=
    mkInfo (mkStorePath "<ca:see cccc>" "hello") (mkHash SHA256 "see cccc") 8 {[fixedInput]}
      (Some (mkCA camNixArchive (mkHash SHA256 "see cccc"))) None false [] in
  fixedHash <> mkHash SHA256 "see cccc"
  /\ references made <> ∅
  /\ exists w',
       registerOutputs exampleStore host noOutputChecks b (fixedInitial false) emptyWorld
         = (w', Threw (BuildError (FixedOutputReferences (drvPathS exampleStore b))))
       /\ noteHashMismatch ∈ notes w'
       /\ is_Some (validPaths w' !! info_path made).
Proof.
  intros b host made.
  assert (Hmis : fixedHash <> mkHash SHA256 "see cccc") by discriminate.
  assert (Hrefs : references made <> ∅) by evaluated.
  split; [exact Hmis|]. split; [exact Hrefs|].
  refine (proj2 (reference_error_replaces_hash_mismatch exampleStore host noOutputChecks b
                   (fixedInitial false) emptyWorld "out" camNixArchive fixedHash
                   (mkHash SHA256 "see cccc") fixedOut {[fixedInput]} _ _ _ made
                   eq_refl _ (fun _ _ => eq_refl) _ eq_refl _ _ eq_refl Hmis Hrefs)).
  - discriminate.
  - reflexivity.
  - vm_compute. reflexivity.
  - vm_compute. reflexivity.
Defined.

(** C5 on a check build. The outputs [out] and [dev] are content-addressed
    and floating, [out] mentions the scratch path of [dev], and both were
    registered by a normal build of the same trees. In the check build the
    second pass takes [dev] first, but leaves it through the [continue] of
    the check branch, before [finish]: no rewrite of the scratch hash of
    [dev] is installed. [out] is then hashed with that scratch hash still in
    its tree and its references, the path made for it is none the store
    knows, and the check ends without having compared [out] with anything.
    The normal build installs the rewrite before it hashes [out]. *)
Lemma check_build_hashes_output_before_rewrite :
  let host := exampleHost (caFiles regularFile) in
  let normal := caBuild bmNormal camNixArchive in
  let check := caBuild bmCheck camNixArchive in
  let w0 := (registerOutputs exampleStore host noOutputChecks normal caInitial emptyWorld).1 in
  let secondPassAfterDev (b : Build) (w : World) :=
    let first :=
      forEach (checkOutput exampleStore host b) (emptyLocals caInitial) w
        (ordered (dom (drvOutputs b))) in
    forEach (finalizeOutput exampleStore host b) (stepLocals first) (stepWorld first) ["dev"] in
  let first :=
    forEach (checkOutput exampleStore host check) (emptyLocals caInitial) w0
      (ordered (dom (drvOutputs check))) in
  let second := secondPassAfterDev check w0 in
  let hashed :=
    returned
      (newInfoFromCA exampleStore host check (stepLocals second) (stepWorld second) "out" caOut
         (actualPathOf exampleStore check caOut) {[caDev]} camNixArchive SHA256) in
  let r := registerOutputs exampleStore host noOutputChecks check caInitial w0 in
  dom (validPaths w0)
    = {[mkStorePath "<ca:lib>" "hello-dev"; mkStorePath "<ca:see <ca:lib>>" "hello"]}
  /\ continues first = true
  /\ getChildren exampleStore check (stepLocals first) "out" = Returned {["dev"]}
  /\ sortedOutputNames exampleStore check (stepLocals first) = Returned ["dev"; "out"]
  /\ continues second = true
  /\ outputRewrites (stepLocals second) !! hashPart caDev = None
  /\ (fun made => (info_path made.1, elements (references made.1))) <$> hashed
     = Some (mkStorePath ("<ca:see " ++ hashPart caDev ++ ">") "hello", [caDev])
  /\ validPaths w0 !! mkStorePath ("<ca:see " ++ hashPart caDev ++ ">") "hello" = None
  /\ r.2 = Returned ∅
  /\ dom (validPaths r.1) = dom (validPaths w0)
  /\ length (commits r.1) = length (commits w0)
  /\ continues (secondPassAfterDev normal emptyWorld) = true
  /\ outputRewrites (stepLocals (secondPassAfterDev normal emptyWorld)) !! hashPart caDev
     = Some "<ca:lib>".
Proof.
  intros host normal check w0 secondPassAfterDev first second hashed r.
  split; [evaluated|].
  split; [vm_compute; reflexivity|]. split; [vm_compute; reflexivity|].
  split; [vm_compute; reflexivity|]. split; [vm_compute; reflexivity|].
  split; [vm_compute; reflexivity|]. split; [vm_compute; reflexivity|].
  split; [vm_compute; reflexivity|]. split; [vm_compute; reflexivity|].
  split; [evaluated|]. split; [vm_compute; reflexivity|].
  split; vm_compute; reflexivity.
Qed.

(** The order of the second pass on the build whose [out] mentions the
    scratch path of [dev]. *)
Lemma second_pass_takes_referenced_outputs_first_witness :
  let host := exampleHost (caFiles regularFile) in
  let b := caBuild bmNormal camNixArchive in
  let first :=
    forEach (checkOutput exampleStore host b) (emptyLocals caInitial) emptyWorld
      (ordered (dom (drvOutputs b))) in
  let l1 := stepLocals first in
  let names := ["dev"; "out"] in
  NoDup names
  /\ (forall o, o ∈ names <-> o ∈ dom (drvOutputs b))
  /\ (forall u v, outputRefersTo b l1 u v -> before names v u)
  /\ forall o p, outputReferencesIfUnregistered l1 !! o = Some (AlreadyRegistered p) ->
       getChildren exampleStore b l1 o = Returned ∅ /\ forall v, ~ outputRefersTo b l1 o v.
Proof.
  intros host b first l1 names.
  apply (second_pass_takes_referenced_outputs_first exampleStore host b caInitial emptyWorld
           l1 (stepWorld first) names).
  - apply continues_spec. vm_compute. reflexivity.
  - vm_compute. reflexivity.
Defined.


(** When the normal build comes to hash [out], the rewrite of [dev] is there. *)
Lemma rewrites_installed_before_output_is_hashed_witness :
  let host := exampleHost (caFiles regularFile) in
  let b := caBuild bmNormal camNixArchive in
  let first :=
    forEach (checkOutput exampleStore host b) (emptyLocals caInitial) emptyWorld
      (ordered (dom (drvOutputs b))) in
  let l1 := stepLocals first in
  let second := forEach (finalizeOutput exampleStore host b) l1 (stepWorld first) ["dev"] in
  let l := stepLocals second in
  outputRefersTo b l1 "out" "dev"
  /\ "dev" ∈ ["dev"]
  /\ exists sp final,
       buildScratchOutputs b !! "dev" = Some sp /\ finalOutputs l !! "dev" = Some final
       /\ (sp <> final -> is_Some (outputRewrites l !! hashPart sp)).
Proof.
  intros host b first l1 second l.
  assert (Hrefers : outputRefersTo b l1 "out" "dev").
  { exists {[caDev]}, caDev.
    split; [vm_compute; reflexivity|]. split; [vm_compute; reflexivity|].
    split; [evaluated|]. split; [discriminate|evaluated]. }
  split; [exact Hrefers|].
  apply (rewrites_installed_before_output_is_hashed exampleStore host b caInitial emptyWorld
           l1 (stepWorld first) ["dev"] [] "out" l (stepWorld second)).
  - discriminate.
  - apply continues_spec. vm_compute. reflexivity.
  - vm_compute. reflexivity.
  - apply continues_spec. vm_compute. reflexivity.
  - exact Hrefers.
Defined.

(** ** [checkOutputs]: the closure of an output *)

Lemma elem_of_orderedPaths (s : gset StorePath) (x : StorePath) : x ∈ orderedPaths s <-> x ∈ s.
Proof.
  unfold orderedPaths. rewrite merge_sort_Permutation. apply elem_of_elements.
Qed.

Lemma length_orderedPaths (s : gset StorePath) : length (orderedPaths s) = size s.
Proof. unfold orderedPaths. by rewrite merge_sort_Permutation. Qed.

Section CheckOutputsFacts.

Variable store : Store.
Variable isStorePath : string -> bool.
Variable parseStorePath : string -> StorePath.
Variable drvPath : StorePath.
Variable outputChecks : OutputChecksOption.
Variable w : World.
Variable outputs : gmap string ValidPathInfo.

Abbreviation closureInfo' := (closureInfo store w outputs).
Abbreviation closureLoop' := (closureLoop store w outputs).
Abbreviation closureEdge' := (closureEdge store w outputs).
Abbreviation sizeOfPaths' := (sizeOfPaths store w outputs).
Abbreviation getClosure' := (getClosure store w outputs).

Lemma outputsByPath_fold (es : list (string * ValidPathInfo))
    (acc : gmap string ValidPathInfo) (k : string) (i : ValidPathInfo) :
  foldl (fun acc e => emplace (printStorePath store (info_path e.2)) e.2 acc) acc es !! k
    = Some i ->
  acc !! k = Some i \/ i ∈ es.*2.
Proof.
  revert acc. induction es as [|e es IH]; intros acc Hlook; simpl in *; [by left|].
  apply IH in Hlook as [Hlook|Hin]; [|right; by right].
  unfold emplace in Hlook.
  destruct (acc !! printStorePath store (info_path e.2)) eqn:Hacc; [by left|].
  destruct (decide (k = printStorePath store (info_path e.2))) as [->|Hne].
  - rewrite lookup_insert_eq in Hlook. injection Hlook as <-. right. by left.
  - rewrite lookup_insert_ne in Hlook by done. by left.
Qed.

Lemma closureInfo_universe (start p : StorePath) (i : ValidPathInfo) :
  closureInfo' p = Some i -> references i ⊆ closureUniverse w outputs start.
Proof.
  intros Hinfo q Hq. unfold closureUniverse. apply elem_of_union. right.
  apply elem_of_union_list. exists (references i). split; [|done].
  apply list_elem_of_fmap. exists i. split; [done|].
  apply elem_of_app. unfold closureInfo in Hinfo.
  destruct (outputsByPath store outputs !! printStorePath store p) as [i'|] eqn:Hby.
  - injection Hinfo as ->. left. unfold outputsByPath in Hby.
    apply outputsByPath_fold in Hby as [Hempty|Hin]; [by rewrite lookup_empty in Hempty|].
    apply list_elem_of_fmap in Hin as ([k i0] & -> & Hin).
    apply elem_of_ordered_entries in Hin.
    apply list_elem_of_fmap. exists (k, i0). split; [done|]. by apply elem_of_map_to_list.
  - right. apply list_elem_of_fmap. exists (p, i). split; [done|]. by apply elem_of_map_to_list.
Qed.

(** The loop ends before its fuel does. *)
Lemma closureLoop_ends (start : StorePath) (fuel : nat) (pathsLeft : list StorePath)
    (pathsDone : gset StorePath) (closureSize : Z) :
  let U := closureUniverse w outputs start in
  (forall q, q ∈ pathsLeft -> q ∈ U) ->
  (length pathsLeft + size (U ∖ pathsDone) * S (size U) < fuel)%nat ->
  is_Some (closureLoop' fuel pathsLeft pathsDone closureSize).
Proof.
  intros U. revert pathsLeft pathsDone closureSize.
  induction fuel as [|fuel IH]; intros pathsLeft pathsDone closureSize Hleft Hfuel; [lia|].
  destruct pathsLeft as [|path rest]; simpl; [by eexists|].
  assert (Hrest : forall q, q ∈ rest -> q ∈ U) by (intros q Hq; apply Hleft; by right).
  destruct (decide (path ∈ pathsDone)) as [Hdone|Hnew].
  - apply IH; [done|]. simpl in Hfuel. lia.
  - destruct (closureInfo' path) as [i|] eqn:Hinfo; [|by eexists].
    assert (Hrefs : references i ⊆ U) by (by eapply closureInfo_universe).
    assert (HpathU : path ∈ U) by (apply Hleft; by left).
    apply IH.
    + intros q Hq. apply elem_of_app in Hq as [Hq|Hq]; [by apply Hrest|].
      apply Hrefs. by apply elem_of_orderedPaths.
    + rewrite length_app, length_orderedPaths. simpl in Hfuel.
      assert (Hsplit : U ∖ pathsDone = {[path]} ∪ U ∖ ({[path]} ∪ pathsDone)).
      { apply set_eq. intros q. rewrite elem_of_union, !elem_of_difference, elem_of_union,
          elem_of_singleton. destruct (decide (q = path)) as [->|]; naive_solver. }
      assert (Hsize : size (U ∖ pathsDone) = S (size (U ∖ ({[path]} ∪ pathsDone)))).
      { rewrite Hsplit at 1. rewrite size_union by set_solver. by rewrite size_singleton. }
      rewrite Hsize in Hfuel.
      pose proof (subseteq_size _ _ Hrefs) as Hle. simpl in Hfuel. lia.
Qed.

Lemma sizeOfPaths_insert (path : StorePath) (pathsDone : gset StorePath) (i : ValidPathInfo) :
  path ∉ pathsDone -> closureInfo' path = Some i ->
  sizeOfPaths' ({[path]} ∪ pathsDone) = (narSize i + sizeOfPaths' pathsDone)%Z.
Proof.
  intros Hnew Hinfo. unfold sizeOfPaths.
  rewrite (foldr_permutation (=) _ 0%Z _ (path :: elements pathsDone)).
  - simpl. by rewrite Hinfo.
  - intros j1 a1 j2 a2 acc _ _ _. lia.
  - by apply elements_union_singleton.
Qed.

Lemma closureLoop_spec (start : StorePath) (fuel : nat) (pathsLeft : list StorePath)
    (pathsDone : gset StorePath) (closureSize : Z)
    (res : Outcome CheckError (gset StorePath * Z)) :
  ClosureInv store w outputs start pathsLeft pathsDone closureSize ->
  closureLoop' fuel pathsLeft pathsDone closureSize = Some res ->
  ClosurePost store w outputs start res.
Proof.
  revert pathsLeft pathsDone closureSize.
  induction fuel as [|fuel IH]; intros pathsLeft pathsDone closureSize Hinv Hrun; [done|].
  destruct pathsLeft as [|path rest]; simpl in Hrun.
  - injection Hrun as <-. destruct Hinv as [Hclosed Hinfo Hreached Hstart Hsize]. simpl.
    split; [|by split].
    intros q. split; [intros Hq; apply Hreached; by left|].
    assert (Hs : start ∈ pathsDone).
    { destruct Hstart as [?|Hnil]; [done|]. by apply not_elem_of_nil in Hnil. }
    assert (Hall : forall p q', rtc closureEdge' p q' -> p ∈ pathsDone -> q' ∈ pathsDone).
    { intros p q' Hrtc. induction Hrtc as [|p p' q' Hedge _ IHr]; [done|].
      intros Hp. apply IHr. destruct (Hclosed p p' Hp Hedge) as [?|Hnil]; [done|].
      by apply not_elem_of_nil in Hnil. }
    intros Hrtc. by apply (Hall start q).
  - destruct (decide (path ∈ pathsDone)) as [Hdone|Hnew].
    + apply (IH rest pathsDone closureSize); [|done].
      destruct Hinv as [Hclosed Hinfo Hreached Hstart Hsize]. split; [| done | | |done].
      * intros p q Hp Hedge. destruct (Hclosed p q Hp Hedge) as [?|Hq]; [by left|].
        apply elem_of_cons in Hq as [->|?]; [by left|by right].
      * intros q [?|?]; apply Hreached; [by left|right; by right].
      * destruct Hstart as [?|Hq]; [by left|].
        apply elem_of_cons in Hq as [->|?]; [by left|by right].
    + destruct (closureInfo' path) as [i|] eqn:Hinfo.
      * apply (IH _ _ _) in Hrun; [done|].
        destruct Hinv as [Hclosed Hinf Hreached Hstart Hsize].
        assert (Hpath : rtc closureEdge' start path) by (apply Hreached; right; by left).
        split.
        -- intros p q Hp Hedge. apply elem_of_union in Hp as [Hp|Hp].
           ++ apply elem_of_singleton in Hp as ->. destruct Hedge as (i' & Hi' & Hq).
              rewrite Hinfo in Hi'. injection Hi' as <-. right.
              apply elem_of_app. right. by apply elem_of_orderedPaths.
           ++ destruct (Hclosed p q Hp Hedge) as [?|Hq]; [left; set_solver|].
              apply elem_of_cons in Hq as [->|?]; [left; set_solver|].
              right. apply elem_of_app. by left.
        -- intros p Hp. apply elem_of_union in Hp as [Hp|Hp]; [|by apply Hinf].
           apply elem_of_singleton in Hp as ->. by eexists.
        -- intros q [Hq|Hq].
           ++ apply elem_of_union in Hq as [Hq|Hq]; [by apply elem_of_singleton in Hq as ->|].
              apply Hreached. by left.
           ++ apply elem_of_app in Hq as [Hq|Hq]; [apply Hreached; right; by right|].
              eapply rtc_r; [exact Hpath|]. exists i. split; [done|].
              by apply elem_of_orderedPaths.
        -- destruct Hstart as [?|Hq]; [left; set_solver|].
           apply elem_of_cons in Hq as [->|?]; [left; set_solver|].
           right. apply elem_of_app. by left.
        -- rewrite (sizeOfPaths_insert path pathsDone i Hnew Hinfo), Hsize.
           unfold uint64_add. rewrite Zplus_mod_idemp_l. f_equal. lia.
      * injection Hrun as <-. simpl. exists path. split; [done|]. split; [|done].
        destruct Hinv as [_ _ Hreached _ _]. apply Hreached. right. by left.
Qed.

(** [getClosure] ends, and it returns the paths that are reached from the
    start through references, read from the infos of this build's outputs
    first and from the store else, together with the sum of their sizes in
    64 bits. It throws when one of these paths has no info. *)
Theorem getClosure_returns_reachable_paths (start : StorePath) :
  exists res,
    getClosure' start = Some res
    /\ match res with
       | Returned (pathsDone, closureSize) =>
           (forall q, q ∈ pathsDone <-> rtc closureEdge' start q)
           /\ (forall q, q ∈ pathsDone -> is_Some (closureInfo' q))
           /\ closureSize = (sizeOfPaths' pathsDone mod 2 ^ 64)%Z
       | Threw e =>
           exists q, e = InvalidPath q /\ rtc closureEdge' start q /\ closureInfo' q = None
       end.
Proof.
  destruct (closureLoop_ends start (closureFuel w outputs start) [start] ∅ 0%Z) as [res Hres].
  - intros q Hq. apply list_elem_of_singleton in Hq as ->. unfold closureUniverse. set_solver.
  - unfold closureFuel. rewrite difference_empty_L. simpl. lia.
  - exists res. split; [exact Hres|].
    apply (closureLoop_spec start _ _ _ _ res) in Hres; [exact Hres|].
    split.
    + intros p q Hp. set_solver.
    + intros p Hp. set_solver.
    + intros q [Hq|Hq]; [set_solver|]. by apply list_elem_of_singleton in Hq as ->.
    + right. by left.
    + unfold sizeOfPaths. by rewrite elements_empty.
Qed.

Lemma getClosure_post (start : StorePath) :
  exists res, getClosure' start = Some res /\ ClosurePost store w outputs start res.
Proof.
  destruct (closureLoop_ends start (closureFuel w outputs start) [start] ∅ 0%Z) as [res Hres].
  - intros q Hq. apply list_elem_of_singleton in Hq as ->. unfold closureUniverse. set_solver.
  - unfold closureFuel. rewrite difference_empty_L. simpl. lia.
  - exists res. split; [exact Hres|].
    apply (closureLoop_spec start _ _ _ _ res) in Hres; [exact Hres|].
    split; [set_solver|set_solver| | |].
    + intros q [Hq|Hq]; [set_solver|]. by apply list_elem_of_singleton in Hq as ->.
    + right. by left.
    + unfold sizeOfPaths. by rewrite elements_empty.
Qed.

(** ** [checkOutputs]: which outputs pass *)

Abbreviation specifierPath' := (specifierPath isStorePath parseStorePath outputs).
Abbreviation namedBy' := (namedBy isStorePath parseStorePath outputs).
Abbreviation parseSpecifiers' :=
  (parseSpecifiers store isStorePath parseStorePath drvPath outputs).
Abbreviation checkRefs' := (checkRefs store isStorePath parseStorePath drvPath w outputs).
Abbreviation applyChecks' := (applyChecks store isStorePath parseStorePath drvPath w outputs).
Abbreviation RefsHold' := (RefsHold store isStorePath parseStorePath w outputs).
Abbreviation ChecksHold' := (ChecksHold store isStorePath parseStorePath w outputs).

Lemma parseSpecifiers_fold (outputName : string) (l : list string)
    (acc : Outcome CheckError (gset StorePath)) :
  let step := fun (acc : Outcome CheckError (gset StorePath)) (i : string) =>
    spec <- acc ;;
    if isStorePath i then Returned ({[parseStorePath i]} ∪ spec)
    else
      match outputs !! i with
      | Some output => Returned ({[info_path output]} ∪ spec)
      | None =>
          Threw (IllegalReferenceSpecifier (printStorePath store drvPath) outputName i
                   (outputsListing outputs))
      end in
  match acc, foldl step acc l with
  | Returned spec0, Returned spec =>
      (forall i, i ∈ l -> is_Some (specifierPath' i))
      /\ forall p, p ∈ spec <-> p ∈ spec0 \/ exists i, i ∈ l /\ specifierPath' i = Some p
  | Returned _, Threw e => exists i, i ∈ l /\ specifierPath' i = None
  | Threw e0, Threw e => e = e0
  | Threw _, Returned _ => False
  end.
Proof.
  intros step. revert acc. induction l as [|i l IH]; intros acc; simpl.
  - destruct acc as [spec0|e0]; [|done]. split; [intros i Hi; by apply not_elem_of_nil in Hi|].
    intros p. split; [by left|]. intros [?|(i & Hi & _)]; [done|by apply not_elem_of_nil in Hi].
  - specialize (IH (step acc i)). destruct acc as [spec0|e0]; simpl in *.
    + unfold specifierPath in *.
      destruct (isStorePath i) eqn:Hsp; simpl in IH.
      * destruct (foldl step _ l) as [spec|e].
        -- destruct IH as [Hlegal Hspec]. split.
           ++ intros j Hj. apply elem_of_cons in Hj as [->|Hj]; [|by apply Hlegal].
              rewrite Hsp. by eexists.
           ++ intros p. rewrite Hspec, elem_of_union, elem_of_singleton. split.
              ** intros [[->|?]|(j & Hj & Hp)]; [right|by left|right].
                 --- exists i. split; [by left|]. by rewrite Hsp.
                 --- exists j. split; [by right|done].
              ** intros [?|(j & Hj & Hp)]; [left; by right|].
                 apply elem_of_cons in Hj as [->|Hj].
                 --- rewrite Hsp in Hp. injection Hp as <-. left. by left.
                 --- right. by exists j.
        -- destruct IH as (j & Hj & Hnone). exists j. split; [by right|done].
      * destruct (outputs !! i) as [output|] eqn:Hout; simpl in IH.
        -- destruct (foldl step _ l) as [spec|e].
           ++ destruct IH as [Hlegal Hspec]. split.
              ** intros j Hj. apply elem_of_cons in Hj as [->|Hj]; [|by apply Hlegal].
                 rewrite Hsp, Hout. by eexists.
              ** intros p. rewrite Hspec, elem_of_union, elem_of_singleton. split.
                 --- intros [[->|?]|(j & Hj & Hp)]; [right|by left|right].
                     +++ exists i. split; [by left|]. by rewrite Hsp, Hout.
                     +++ exists j. split; [by right|done].
                 --- intros [?|(j & Hj & Hp)]; [left; by right|].
                     apply elem_of_cons in Hj as [->|Hj].
                     +++ rewrite Hsp, Hout in Hp. injection Hp as <-. left. by left.
                     +++ right. by exists j.
           ++ destruct IH as (j & Hj & Hnone). exists j. split; [by right|done].
        -- destruct (foldl step _ l) as [spec|e]; [done|].
           exists i. split; [by left|]. by rewrite Hsp, Hout.
    + destruct (foldl step (Threw e0) l); done.
Qed.

Lemma parseSpecifiers_spec (outputName : string) (value : gset string) :
  match parseSpecifiers' outputName value with
  | Returned spec =>
      (forall i, i ∈ value -> is_Some (specifierPath' i))
      /\ forall p, p ∈ spec <-> namedBy' value p
  | Threw e => exists i, i ∈ value /\ specifierPath' i = None
  end.
Proof.
  pose proof (parseSpecifiers_fold outputName (ordered value) (Returned ∅)) as Hfold.
  unfold parseSpecifiers. simpl in Hfold.
  destruct (foldl _ (Returned ∅) (ordered value)) as [spec|e].
  - destruct Hfold as [Hlegal Hspec]. split.
    + intros i Hi. apply Hlegal. by apply elem_of_ordered.
    + intros p. rewrite Hspec. unfold namedBy. split.
      * intros [?|(i & Hi & Hp)]; [set_solver|]. exists i. by rewrite <- elem_of_ordered.
      * intros (i & Hi & Hp). right. exists i. by rewrite elem_of_ordered.
  - destruct Hfold as (i & Hi & Hnone). exists i. by rewrite <- elem_of_ordered.
Qed.

Lemma badPaths_empty (spec used : gset StorePath) (value : gset string) (allowed : bool) :
  (forall p, p ∈ spec <-> namedBy' value p) ->
  filter (fun i => (if allowed then negb (bool_decide (i ∈ spec))
                    else bool_decide (i ∈ spec)) = true) used = ∅
  <-> forall q, q ∈ used -> if allowed then namedBy' value q else ~ namedBy' value q.
Proof.
  intros Hspec. split.
  - intros Hempty q Hq.
    assert (Hnot : q ∉ filter (fun i => (if allowed then negb (bool_decide (i ∈ spec))
                                         else bool_decide (i ∈ spec)) = true) used).
    { rewrite Hempty. apply not_elem_of_empty. }
    rewrite elem_of_filter in Hnot. destruct allowed.
    + apply Hspec. destruct (decide (q ∈ spec)) as [?|Hout]; [done|].
      exfalso. apply Hnot. split; [|done]. by rewrite bool_decide_eq_false_2.
    + intros Hnamed. apply Hnot. split; [|done]. apply bool_decide_eq_true_2. by apply Hspec.
  - intros Hall. apply set_eq. intros q. rewrite elem_of_filter. split; [|set_solver].
    intros [Hbad Hq]. exfalso. specialize (Hall q Hq). destruct allowed.
    + apply Hspec in Hall. by rewrite bool_decide_eq_true_2 in Hbad.
    + apply bool_decide_eq_true_1 in Hbad. by apply Hall, Hspec.
Qed.

Lemma checkRefs_spec (outputName : string) (info : ValidPathInfo) (checks : OutputChecks)
    (value : gset string) (allowed recursive : bool) :
  exists res,
    checkRefs' outputName info checks value allowed recursive = Some res
    /\ (res = Returned tt <-> RefsHold' info checks value allowed recursive).
Proof.
  unfold checkRefs, RefsHold.
  pose proof (parseSpecifiers_spec outputName value) as Hparse.
  destruct (parseSpecifiers' outputName value) as [spec|e].
  2:{ exists (Threw e). split; [done|]. split; [done|].
      intros (Hlegal & _). destruct Hparse as (i & Hi & Hnone).
      destruct (Hlegal i Hi) as [p Hp]. congruence. }
  destruct Hparse as [Hlegal Hspec]. destruct recursive; simpl.
  - destruct (getClosure_post (info_path info)) as (res & -> & Hpost).
    destruct res as [[pathsDone closureSize]|e]; simpl in *.
    + destruct Hpost as (Hreach & Hinfo & _).
      pose proof (badPaths_empty spec
                    (if ignoreSelfRefs checks then pathsDone ∖ {[info_path info]} else pathsDone)
                    value allowed Hspec) as Hbad.
      assert (Hused : forall q,
                q ∈ (if ignoreSelfRefs checks then pathsDone ∖ {[info_path info]} else pathsDone)
                <-> usedBy store w outputs info checks true q).
      { intros q. unfold usedBy. destruct (ignoreSelfRefs checks).
        - rewrite elem_of_difference, elem_of_singleton, Hreach. naive_solver.
        - rewrite Hreach. naive_solver. }
      destruct (decide (filter _ _ <> ∅)) as [Hne|Hempty].
      * eexists. split; [done|]. split; [done|]. intros (_ & _ & Hall).
        exfalso. apply Hne, Hbad. intros q Hq. by apply Hall, Hused.
      * exists (Returned tt). split; [done|]. split; [|done]. intros _.
        split; [done|]. split; [intros _ q Hq; by apply Hinfo, Hreach|].
        intros q Hq. apply dec_stable in Hempty. apply (proj1 Hbad Hempty). by apply Hused.
    + exists (Threw e). split; [done|]. split; [done|]. intros (_ & Hall & _).
      destruct Hpost as (q & _ & Hq & Hnone). destruct (Hall eq_refl q Hq) as [i Hi]. congruence.
  - pose proof (badPaths_empty spec (references info) value allowed Hspec) as Hbad.
    destruct (decide (filter _ _ <> ∅)) as [Hne|Hempty].
    + eexists. split; [done|]. split; [done|]. intros (_ & _ & Hall).
      exfalso. by apply Hne, Hbad.
    + exists (Returned tt). split; [done|]. split; [|done]. intros _.
      split; [done|]. split; [done|]. apply dec_stable in Hempty. by apply Hbad.
Qed.

(** Two steps in a row pass when both do. *)
Lemma bindR_spec {E} (m : option (Outcome E unit)) (k : unit -> option (Outcome E unit))
    (P Q : Prop) :
  (exists r, m = Some r /\ (r = Returned tt <-> P)) ->
  (exists r, k tt = Some r /\ (r = Returned tt <-> Q)) ->
  exists r, bindR m k = Some r /\ (r = Returned tt <-> P /\ Q).
Proof.
  intros (r1 & -> & H1) (r2 & H2 & HQ). destruct r1 as [[]|e]; simpl.
  - exists r2. split; [done|]. rewrite HQ. split; [intros ?; split; [by apply H1|done]|by intros [_ ?]].
  - exists (Threw e). split; [done|]. split; [done|]. intros [HP _]. by apply H1 in HP.
Qed.

Lemma applyChecks_spec (outputName : string) (info : ValidPathInfo) (checks : OutputChecks) :
  exists res,
    applyChecks' outputName info checks = Some res
    /\ (res = Returned tt <-> ChecksHold' info checks).
Proof.
  unfold applyChecks, ChecksHold.
  repeat apply bindR_spec.
  - destruct (maxSize checks) as [limit|].
    + destruct (Z.ltb_spec limit (narSize info)).
      * eexists. split; [done|]. split; [done|]. intros Hall. specialize (Hall limit eq_refl). lia.
      * exists (Returned tt). split; [done|]. split; [|done]. intros _ l [= <-]. lia.
    + exists (Returned tt). split; [done|]. split; [|done]. by intros _ l.
  - destruct (maxClosureSize checks) as [limit|].
    + destruct (getClosure_post (info_path info)) as (res & -> & Hpost).
      destruct res as [[pathsDone closureSize]|e]; simpl in *.
      * destruct Hpost as (Hreach & Hinfo & ->).
        destruct (Z.ltb_spec limit (sizeOfPaths' pathsDone mod 2 ^ 64)).
        -- eexists. split; [done|]. split; [done|]. intros Hall.
           destruct (Hall limit eq_refl) as (closure & Hc & _ & Hle).
           assert (closure = pathsDone) as ->.
           { apply set_eq. intros q. by rewrite Hc, Hreach. }
           lia.
        -- exists (Returned tt). split; [done|]. split; [|done]. intros _ l [= <-].
           by exists pathsDone.
      * exists (Threw e). split; [done|]. split; [done|]. intros Hall.
        destruct (Hall limit eq_refl) as (closure & Hc & Hinfo & _).
        destruct Hpost as (q & _ & Hq & Hnone). apply Hc, Hinfo in Hq as [i Hi]. congruence.
    + exists (Returned tt). split; [done|]. split; [|done]. by intros _ l.
  - destruct (allowedReferences checks) as [refs|].
    + destruct (checkRefs_spec outputName info checks refs true false) as (res & -> & Hres).
      exists res. split; [done|]. rewrite Hres. split; [by intros ? ? [= <-]|by intros Hall; apply Hall].
    + exists (Returned tt). split; [done|]. split; [|done]. by intros _ l.
  - destruct (allowedRequisites checks) as [refs|].
    + destruct (checkRefs_spec outputName info checks refs true true) as (res & -> & Hres).
      exists res. split; [done|]. rewrite Hres. split; [by intros ? ? [= <-]|by intros Hall; apply Hall].
    + exists (Returned tt). split; [done|]. split; [|done]. by intros _ l.
  - destruct (decide (disallowedReferences checks <> ∅)) as [Hne|Hempty].
    + destruct (checkRefs_spec outputName info checks (disallowedReferences checks) false false)
        as (res & -> & Hres).
      exists res. split; [done|]. rewrite Hres. split; [done|by intros Hall; apply Hall].
    + exists (Returned tt). split; [done|]. split; [|done]. by intros _ ?.
  - destruct (decide (disallowedRequisites checks <> ∅)) as [Hne|Hempty].
    + destruct (checkRefs_spec outputName info checks (disallowedRequisites checks) false true)
        as (res & -> & Hres).
      exists res. split; [done|]. rewrite Hres. split; [done|by intros Hall; apply Hall].
    + exists (Returned tt). split; [done|]. split; [|done]. by intros _ ?.
Qed.

Lemma checkEach_spec (es : list (string * ValidPathInfo)) :
  exists res,
    checkEach store isStorePath parseStorePath drvPath outputChecks w outputs es = Some res
    /\ (res = Returned tt <->
        forall e checks, e ∈ es -> checksOf outputChecks e.1 = Some checks ->
          ChecksHold' e.2 checks).
Proof.
  induction es as [|e es IH]; simpl.
  - exists (Returned tt). split; [done|]. split; [|done].
    intros _ e checks He. by apply not_elem_of_nil in He.
  - assert (Hone : exists r,
              checkOutput1 store isStorePath parseStorePath drvPath outputChecks w outputs e = Some r
              /\ (r = Returned tt <->
                  forall checks, checksOf outputChecks e.1 = Some checks -> ChecksHold' e.2 checks)).
    { unfold checkOutput1. destruct (checksOf outputChecks e.1) as [checks|].
      - destruct (applyChecks_spec e.1 e.2 checks) as (r & -> & Hr).
        exists r. split; [done|]. rewrite Hr. split; [by intros ? ? [= <-]|by intros Hall; apply Hall].
      - exists (Returned tt). split; [done|]. split; [|done]. by intros _ ?. }
    destruct (bindR_spec _ (fun _ => checkEach store isStorePath parseStorePath drvPath
                                       outputChecks w outputs es) _ _ Hone IH)
      as (r & Hr & Hiff).
    exists r. split; [exact Hr|]. rewrite Hiff. split.
    + intros [H1 H2] e' checks He'. apply elem_of_cons in He' as [->|He']; [apply H1|by apply H2].
    + intros Hall. split; [intros checks; apply Hall; by left|].
      intros e' checks He'. apply Hall. by right.
Qed.

(** [checkOutputs] ends, and it accepts the outputs exactly when every
    output meets the checks that apply to it: its size is within
    [maxSize]; the size of its closure, in 64 bits, is within
    [maxClosureSize]; all its references are named by [allowedReferences]
    and all paths of its closure by [allowedRequisites], where given; none
    of its references is named by [disallowedReferences] and no path of its
    closure by [disallowedRequisites]. A specifier names a store path or
    the path of an output of this build; one that is neither fails the
    check it stands in, and so does a path of the closure that has no
    info, but only in a check that is made: an empty [disallowed] set
    makes none. *)
Theorem checkOutputs_accepts_iff :
  exists res,
    checkOutputs store isStorePath parseStorePath drvPath outputChecks w outputs = Some res
    /\ (res = Returned tt <->
        forall outputName info checks,
          outputs !! outputName = Some info ->
          checksOf outputChecks outputName = Some checks ->
          ChecksHold' info checks).
Proof.
  unfold checkOutputs.
  destruct (checkEach_spec (ordered_entries outputs)) as (res & Hres & Hiff).
  exists res. split; [exact Hres|]. rewrite Hiff. split.
  - intros Hall outputName info checks Hout Hchecks.
    apply (Hall (outputName, info) checks); [|done]. by apply elem_of_ordered_entries.
  - intros Hall [outputName info] checks He Hchecks. simpl in *.
    apply (Hall outputName); [|done]. by apply elem_of_ordered_entries.
Qed.

(** The closure of an output holds the output itself, so a check on
    requisites counts it unless self-references are ignored: an output
    passes [allowedRequisites] only if the list names it, and it never
    passes [disallowedRequisites] if the list names it. A check on
    references never ignores a self-reference: an output that refers to
    itself passes [allowedReferences] only if the list names it, whatever
    [ignoreSelfRefs] says. *)
Theorem requisites_checks_count_the_output_itself
    (outputName : string) (info : ValidPathInfo) (checks : OutputChecks) :
  applyChecks' outputName info checks = Some (Returned tt) ->
  (forall refs, allowedRequisites checks = Some refs -> ignoreSelfRefs checks = false ->
     namedBy' refs (info_path info))
  /\ (disallowedRequisites checks <> ∅ -> ignoreSelfRefs checks = false ->
      ~ namedBy' (disallowedRequisites checks) (info_path info))
  /\ (forall refs, allowedReferences checks = Some refs ->
        info_path info ∈ references info -> namedBy' refs (info_path info)).
Proof.
  intros Hpass. destruct (applyChecks_spec outputName info checks) as (res & Hres & Hiff).
  rewrite Hpass in Hres. injection Hres as <-.
  destruct (proj1 Hiff eq_refl) as (_ & _ & Hrefs & Hreqs & _ & Hdis).
  assert (Hself : ignoreSelfRefs checks = false ->
            usedBy store w outputs info checks true (info_path info)).
  { intros Hignore. unfold usedBy. split; [done|]. by rewrite Hignore. }
  split; [|split].
  - intros refs Hsome Hignore. destruct (Hreqs refs Hsome) as (_ & _ & Hall).
    by apply (Hall (info_path info)), Hself.
  - intros Hne Hignore. destruct (Hdis Hne) as (_ & _ & Hall).
    by apply (Hall (info_path info)), Hself.
  - intros refs Hsome Hin. destruct (Hrefs refs Hsome) as (_ & _ & Hall).
    by apply (Hall (info_path info)).
Qed.

End CheckOutputsFacts.

(** ** The realisations [registerOutputs] returns *)

Section BuiltOutputsFacts.

Variable store : Store.
Variable host : Host.
Variable checkOutputs : World -> gmap string ValidPathInfo -> option string.
Variable b : Build.

(** The realisation the last loop makes for an output. *)
Lemma realiseAll_built (l : Locals) (es : list (string * ValidPathInfo))
    (acc : gmap string Realisation * World) (builtOutputs : gmap string Realisation)
    (w' : World) :
  NoDup es.*1 -> (forall e, e ∈ es -> acc.1 !! e.1 = None) ->
  realiseAll host b l acc es = Returned (builtOutputs, w') ->
  let linked := caDerivationsEnabled b && negb (drvIsImpure b) in
  (forall o r, builtOutputs !! o = Some r <->
     acc.1 !! o = Some r
     \/ exists info oldinfo,
          (o, info) ∈ es /\ initialOutputs l !! o = Some oldinfo
          /\ r = (if linked then signRealisation host else fun r0 => r0)
                   (mkRealisation (outputHash oldinfo, o) (info_path info) []))
  /\ (if linked
      then forall r, r ∈ drvOutputsRegistered w' <->
             r ∈ drvOutputsRegistered acc.2
             \/ exists o, acc.1 !! o = None /\ builtOutputs !! o = Some r
      else drvOutputsRegistered w' = drvOutputsRegistered acc.2)
  /\ validPaths w' = validPaths acc.2.
Proof.
  revert acc. induction es as [|[o info] es IH]; intros [built w] Hnd Hfresh Hrun; simpl in *.
  - injection Hrun as <- <-. split; [|split; [|done]].
    + intros o r. split; [by left|]. intros [?|(? & ? & Hin & _)]; [done|].
      by apply not_elem_of_nil in Hin.
    + destruct (caDerivationsEnabled b && negb (drvIsImpure b)); [|done].
      intros r. split; [by left|]. intros [?|(o & Hnone & Hsome)]; [done|]. congruence.
  - apply NoDup_cons in Hnd as [Ho Hnd].
    destruct (initialOutputs l !! o) as [oldinfo|] eqn:Hold; [|done].
    assert (Hbuilt : built !! o = None) by (apply (Hfresh (o, info)); by left).
    destruct (caDerivationsEnabled b && negb (drvIsImpure b)) eqn:Hlinked; simpl in Hrun.
    + apply IH in Hrun; [|done|]; simpl in *.
      2:{ intros [o' i'] He'. simpl. unfold emplace. rewrite Hbuilt.
          rewrite lookup_insert_ne; [apply (Hfresh (o', i')); by right|].
          intros ->. apply Ho. apply list_elem_of_fmap. by exists (o', i'). }
      unfold emplace in Hrun. rewrite Hbuilt in Hrun. destruct Hrun as (Hkeys & Hdrv & Hv).
      split; [|split; [|done]].
      * intros o' r. rewrite Hkeys. destruct (decide (o' = o)) as [->|Hne].
        -- rewrite lookup_insert_eq. split.
           ++ intros [[= <-]|(i' & old' & Hin & _)].
              ** right. exists info, oldinfo. split; [by left|done].
              ** exfalso. apply Ho. apply list_elem_of_fmap. by exists (o, i').
           ++ intros [?|(i' & old' & Hin & Hold' & ->)]; [congruence|].
              apply elem_of_cons in Hin as [[= <-]|Hin].
              ** left. congruence.
              ** exfalso. apply Ho. apply list_elem_of_fmap. by exists (o, i').
        -- rewrite lookup_insert_ne by done. split.
           ++ intros [?|(i' & old' & Hin & Hrest)]; [by left|].
              right. exists i', old'. split; [by right|done].
           ++ intros [?|(i' & old' & Hin & Hrest)]; [by left|].
              apply elem_of_cons in Hin as [[= -> ->]|Hin]; [done|].
              right. by exists i', old'.
      * intros r. rewrite Hdrv. simpl. rewrite elem_of_cons. split.
        -- intros [[->|?]|(o' & Hnone & Hsome)].
           ++ right. exists o. split; [done|]. apply Hkeys. left. by rewrite lookup_insert_eq.
           ++ by left.
           ++ right. exists o'. split; [|done].
              destruct (decide (o' = o)) as [->|Hne]; [done|].
              by rewrite lookup_insert_ne in Hnone.
        -- intros [?|(o' & Hnone & Hsome)]; [left; by right|].
           destruct (decide (o' = o)) as [->|Hne].
           ++ left. left. apply Hkeys in Hsome as [Hsome|(i' & old' & Hin & _)].
              ** rewrite lookup_insert_eq in Hsome. congruence.
              ** exfalso. apply Ho. apply list_elem_of_fmap. by exists (o, i').
           ++ right. exists o'. split; [|done]. by rewrite lookup_insert_ne.
    + apply IH in Hrun; [|done|]; simpl in *.
      2:{ intros [o' i'] He'. simpl. unfold emplace. rewrite Hbuilt.
          rewrite lookup_insert_ne; [apply (Hfresh (o', i')); by right|].
          intros ->. apply Ho. apply list_elem_of_fmap. by exists (o', i'). }
      unfold emplace in Hrun. rewrite Hbuilt in Hrun. destruct Hrun as (Hkeys & Hdrv & Hv).
      split; [|done].
      intros o' r. rewrite Hkeys. destruct (decide (o' = o)) as [->|Hne].
      * rewrite lookup_insert_eq. split.
        -- intros [[= <-]|(i' & old' & Hin & _)].
           ++ right. exists info, oldinfo. split; [by left|done].
           ++ exfalso. apply Ho. apply list_elem_of_fmap. by exists (o, i').
        -- intros [?|(i' & old' & Hin & Hold' & ->)]; [congruence|].
           apply elem_of_cons in Hin as [[= <-]|Hin].
           ++ left. congruence.
           ++ exfalso. apply Ho. apply list_elem_of_fmap. by exists (o, i').
      * rewrite lookup_insert_ne by done. split.
        -- intros [?|(i' & old' & Hin & Hrest)]; [by left|].
           right. exists i', old'. split; [by right|done].
        -- intros [?|(i' & old' & Hin & Hrest)]; [by left|].
           apply elem_of_cons in Hin as [[= -> ->]|Hin]; [done|].
           right. by exists i', old'.
Qed.

(** Outside a check build, a successful [registerOutputs] returns one
    realisation for each output that was not valid before the build, and
    none for an output that was: the realisation carries the output hash
    known before the build and the output name as its id, and its path is
    valid in the store. The realisations are registered with the store
    when the content-addressed derivations feature is enabled and the
    derivation is not impure; they are not otherwise. *)
Theorem built_outputs_are_the_new_outputs
    (initial : gmap string InitialOutput) (w w' : World)
    (builtOutputs : gmap string Realisation) :
  buildMode b <> bmCheck ->
  registerOutputs store host checkOutputs b initial w = (w', Returned builtOutputs) ->
  (forall o, is_Some (builtOutputs !! o) <->
     o ∈ dom (drvOutputs b) /\ exists io, initial !! o = Some io /\ wantedOf b io = true)
  /\ (forall o r, builtOutputs !! o = Some r ->
        exists io, initial !! o = Some io /\ realisation_id r = (outputHash io, o)
                   /\ is_Some (validPaths w' !! outPath r))
  /\ (if caDerivationsEnabled b && negb (drvIsImpure b)
      then forall r, r ∈ drvOutputsRegistered w' <->
             r ∈ drvOutputsRegistered w \/ exists o, builtOutputs !! o = Some r
      else drvOutputsRegistered w' = drvOutputsRegistered w).
Proof.
  intros Hmode. unfold registerOutputs.
  destruct (forEach (checkOutput store host b) (emptyLocals initial) w
              (ordered (dom (drvOutputs b)))) as [l1 w1|e l1 w1] eqn:Hfirst; [|done].
  destruct (firstPass_done _ _ _ _ _ _ _ Hfirst) as [Hfp (_ & _ & Hdrv1)].
  pose proof (sortedOutputNames_spec store host b initial l1 Hfp) as Hsort.
  destruct (sortedOutputNames store b l1) as [names|[e|]] eqn:Hnames; [|done|done].
  destruct Hsort as (Hnd & Hmem & _).
  assert (Hstart : SecondPass store host b l1 w1 [] l1 w1).
  { apply SecondPass_start; by destruct Hfp. }
  destruct (forEach (finalizeOutput store host b) l1 w1 names) as [l2 w2|e l2 w2] eqn:Hsecond;
    [|done].
  pose proof (forEach_prefix_ind (finalizeOutput store host b)
                (SecondPass store host b l1 w1)
                ltac:(intros; by eapply finalizeOutput_SecondPass)
                names [] l1 w1 l2 w2 Hnd Hstart Hsecond) as Hinv.
  simpl in Hinv. destruct Hinv as [Htables Hkeys Hinfos Hall _ _ Hdrv2 _].
  destruct Htables as (Hinit & _).
  unfold commitOutputs. rewrite decide_False by done.
  destruct (checkOutputs w2 (infos l2)) as [msg|]; [done|].
  destruct (delayedException l2) as [e|]; [done|].
  destruct (realiseAll host b l2 _ (ordered_entries (infos l2))) as [[built w3]|e] eqn:Hreal;
    [|done].
  intros [= <- <-].
  apply realiseAll_built in Hreal; [|apply NoDup_ordered_entries|done].
  simpl in Hreal. destruct Hreal as (Hbuilt & Hlinked & Hv).
  assert (Hentry : forall o, o ∈ dom (drvOutputs b) -> FirstPassEntry store host b initial l1 o).
  { intros o Ho. apply (fp_entry _ _ _ _ _ _ Hfp). by apply elem_of_ordered. }
  assert (Hnew : forall o, is_Some (infos l2 !! o) <->
            o ∈ dom (drvOutputs b) /\ exists io, initial !! o = Some io /\ wantedOf b io = true).
  { intros o. split.
    - intros Ho. assert (Hdom : o ∈ dom (drvOutputs b)) by by apply Hmem, Hkeys.
      split; [done|]. destruct Ho as [info Hinfo].
      destruct (Hinfos o info Hinfo) as (? & ? & refs & ? & ? & ? & _ & _ & Hrefs & _).
      destruct (Hentry o Hdom) as (sp & io & _ & Hio & _ & Hwanted).
      exists io. split; [done|]. destruct (wantedOf b io); [done|].
      destruct Hwanted as (k & _ & _ & Hreg). congruence.
    - intros (Hdom & io & Hio & Hwanted).
      destruct (Hentry o Hdom) as (sp & io' & _ & Hio' & _ & Hrest).
      assert (io' = io) as -> by congruence. rewrite Hwanted in Hrest.
      destruct Hrest as (st & _ & _ & Hrefs & _).
      eapply Hall; [by apply Hmem|exact Hrefs]. }
  split; [|split].
  - intros o. rewrite <- Hnew. split.
    + intros [r Hr]. apply Hbuilt in Hr as [Hr|(info & _ & Hin & _)];
        [by rewrite lookup_empty in Hr|].
      apply elem_of_ordered_entries in Hin. by eexists.
    + intros [info Hinfo].
      assert (Hdom : o ∈ dom (drvOutputs b)) by (apply Hnew; by eexists).
      destruct (Hentry o Hdom) as (sp & io & _ & _ & Hold & _).
      rewrite <- Hinit in Hold. eexists. apply Hbuilt. right.
      eexists info, _. split; [by apply elem_of_ordered_entries|]. split; [exact Hold|done].
  - intros o r Hr. apply Hbuilt in Hr as [Hr|(info & oldinfo & Hin & Hold & ->)];
      [by rewrite lookup_empty in Hr|].
    apply elem_of_ordered_entries in Hin.
    assert (Hdom : o ∈ dom (drvOutputs b)) by (apply Hnew; by eexists).
    destruct (Hentry o Hdom) as (sp & io & _ & Hio & Hold' & _).
    rewrite <- Hinit, Hold in Hold'. injection Hold' as ->.
    exists io. split; [done|].
    destruct (proj2 (infosByPath_spec (infos l2)) o info Hin) as (i' & Hi' & _).
    destruct (caDerivationsEnabled b && negb (drvIsImpure b)); simpl;
      (split; [done|]); rewrite Hv; simpl;
      apply lookup_union_is_Some; left; by eexists.
  - destruct (caDerivationsEnabled b && negb (drvIsImpure b)).
    + intros r. rewrite Hlinked. simpl. rewrite Hdrv2, Hdrv1. split.
      * intros [?|(o & _ & Hr)]; [by left|right; by exists o].
      * intros [?|(o & Hr)]; [by left|right]. exists o. split; [apply lookup_empty|done].
    + rewrite Hlinked. simpl. by rewrite Hdrv2, Hdrv1.
Qed.

End BuiltOutputsFacts.

(** ** Check builds *)

Lemma CheckKept_refl (w : World) : CheckKept w w.
Proof.
  split; [done|]. split; [|done]. intros p i Hi. exists i. by repeat split; try left.
Qed.

Lemma CheckKept_sameStore (w w' : World) : sameStore w w' -> CheckKept w w'.
Proof.
  intros (Hv & _ & Hd). split; [by rewrite Hv|]. split; [|done].
  intros p i Hi. rewrite Hv in Hi. exists i. by repeat split; try left.
Qed.

Lemma CheckKept_trans (w1 w2 w3 : World) : CheckKept w1 w2 -> CheckKept w2 w3 -> CheckKept w1 w3.
Proof.
  intros (Hd1 & Hi1 & Hr1) (Hd2 & Hi2 & Hr2). split; [|split].
  - intros p. by rewrite Hd2, Hd1.
  - intros p i3 Hp3. destruct (Hi2 p i3 Hp3) as (i2 & Hp2 & ? & ? & ? & ? & ? & ? & Hu2).
    destruct (Hi1 p i2 Hp2) as (i1 & Hp1 & ? & ? & ? & ? & ? & ? & Hu1).
    exists i1. repeat split; try congruence.
    destruct Hu2 as [->|[? ?]]; [done|]. right. split; [|done].
    destruct Hu1 as [->|[? ?]]; done.
  - congruence.
Qed.

Lemma WellKeyed_CheckKept (w w' : World) : WellKeyed w -> CheckKept w w' -> WellKeyed w'.
Proof.
  intros Hkeyed (_ & Hinfo & _) p i' Hi'.
  destruct (Hinfo p i' Hi') as (i & Hi & -> & _). by apply Hkeyed.
Qed.

Section CheckBuildFacts.

Variable store : Store.
Variable host : Host.
Variable checkOutputs : World -> gmap string ValidPathInfo -> option string.
Variable b : Build.

(** One output of a check build: what is there already is compared, and
    at most marked as ultimately trusted and signed. *)
Lemma finalizeOutput_check (l : Locals) (w : World) (o : string) (l' : Locals) (w' : World) :
  buildMode b = bmCheck -> WellKeyed w ->
  finalizeOutput store host b l w o = Continue l' w' -> CheckKept w w'.
Proof.
  intros Hmode Hkeyed. unfold finalizeOutput.
  destruct (drvOutputs b !! o) as [output|]; [|done].
  destruct (buildScratchOutputs b !! o) as [sp|]; [|done].
  destruct (outputReferencesIfUnregistered l !! o) as [[p|refs]|]; [| |done].
  - intros [= <- <-]. apply CheckKept_refl.
  - destruct (makeInfo store host b l w o output sp _ refs) as [[[newInfo l1] w1]|e] eqn:Hmake;
      [|done].
    apply makeInfo_spec in Hmake as [_ Hsame].
    rewrite decide_True by done. simpl.
    destruct Hsame as (Hv & Hc & Hd).
    rewrite Hv.
    destruct (validPaths w !! info_path newInfo) as [oldInfo|] eqn:Hold.
    2:{ intros [= <- <-]. apply CheckKept_sameStore. by repeat split. }
    destruct (decide (narHash newInfo <> narHash oldInfo)); [done|].
    destruct (ultimate oldInfo) eqn:Hult; simpl.
    { intros [= <- <-]. apply CheckKept_sameStore. by repeat split. }
    intros [= <- <-]. pose proof (Hkeyed _ _ Hold) as Hpath.
    split; [|split]; simpl.
    + intros p. rewrite Hv, lookup_union_is_Some. split; [|by right].
      intros [Hp|?]; [|done]. destruct (decide (p = info_path oldInfo)) as [->|Hne].
      * rewrite Hpath. by eexists.
      * rewrite lookup_singleton_ne in Hp by done. by destruct Hp.
    + intros p i'. rewrite Hv. destruct (decide (p = info_path oldInfo)) as [->|Hne].
      * erewrite lookup_union_Some_l by apply lookup_singleton_eq.
        intros [= <-]. exists oldInfo. rewrite Hpath. simpl. repeat split; try done.
        right. by split.
      * rewrite lookup_union_r by (by apply lookup_singleton_ne).
        intros Hi'. exists i'. by repeat split; try left.
    + done.
Qed.

Lemma secondPass_check (names : list string) (l : Locals) (w : World) :
  buildMode b = bmCheck -> WellKeyed w ->
  CheckKept w
    (match forEach (finalizeOutput store host b) l w names with
     | Continue _ w' | Raise _ _ w' => w'
     end).
Proof.
  intros Hmode. revert l w. induction names as [|n names IH]; intros l w Hkeyed; simpl.
  - apply CheckKept_refl.
  - destruct (finalizeOutput store host b l w n) as [l1 w1|e l1 w1] eqn:Hstep.
    + pose proof (finalizeOutput_check _ _ _ _ _ Hmode Hkeyed Hstep) as Hkept.
      eapply CheckKept_trans; [exact Hkept|]. apply IH. by eapply WellKeyed_CheckKept.
    + apply finalizeOutput_Raise in Hstep as [_ Hsame]. by apply CheckKept_sameStore.
Qed.

(** A check build leaves the valid paths of the store as they are: it
    registers no path that was not valid, and removes none; the hashes,
    sizes, references, content addresses and derivers of the valid paths
    stay as they were. All it may do to an info is to mark it as
    ultimately trusted and to sign it. It registers no realisation. *)
Theorem check_build_registers_no_new_path
    (initial : gmap string InitialOutput) (w w' : World)
    (res : Outcome Error (gmap string Realisation)) :
  buildMode b = bmCheck ->
  WellKeyed w ->
  registerOutputs store host checkOutputs b initial w = (w', res) ->
  CheckKept w w' /\ WellKeyed w'.
Proof.
  intros Hmode Hkeyed Hrun.
  assert (Hkept : CheckKept w w'); [|split; [done|by eapply WellKeyed_CheckKept]].
  revert Hrun. unfold registerOutputs.
  destruct (forEach (checkOutput store host b) (emptyLocals initial) w
              (ordered (dom (drvOutputs b)))) as [l1 w1|e l1 w1] eqn:Hfirst.
  2:{ intros [= <- <-]. apply firstPass_Raise in Hfirst as [_ Hsame].
      by apply CheckKept_sameStore. }
  destruct (firstPass_done _ _ _ _ _ _ _ Hfirst) as [_ Hsame].
  apply CheckKept_sameStore in Hsame.
  destruct (sortedOutputNames store b l1) as [names|[e|]]; [|by intros [= <- <-]..].
  pose proof (secondPass_check names l1 w1 Hmode
                (WellKeyed_CheckKept _ _ Hkeyed Hsame)) as Hsecond.
  destruct (forEach (finalizeOutput store host b) l1 w1 names) as [l2 w2|e l2 w2].
  - unfold commitOutputs. rewrite decide_True by done.
    destruct (delayedException l2); intros [= <- <-]; by eapply CheckKept_trans.
  - intros [= <- <-]. by eapply CheckKept_trans.
Qed.

End CheckBuildFacts.

(** ** Where [NotDeterministic] comes from *)

Section NotDeterministicFacts.

Variable store : Store.
Variable host : Host.
Variable checkOutputs : World -> gmap string ValidPathInfo -> option string.
Variable b : Build.

Lemma checkOutput_deterministic (l : Locals) (w : World) (o : string) (e : Error)
    (l' : Locals) (w' : World) :
  checkOutput store host b l w o = Raise e l' w' -> isNotDeterministic e = false.
Proof.
  unfold checkOutput. repeat case_match; by intros [= <- <- <-].
Qed.

Lemma firstPass_deterministic (names : list string) (l : Locals) (w : World) (e : Error)
    (l' : Locals) (w' : World) :
  forEach (checkOutput store host b) l w names = Raise e l' w' -> isNotDeterministic e = false.
Proof.
  revert l w. induction names as [|n names IH]; intros l w; simpl; [done|].
  destruct (checkOutput store host b l w n) as [l1 w1|e1 l1 w1] eqn:Hstep; [apply IH|].
  intros [= <- <- <-]. by eapply checkOutput_deterministic.
Qed.

Lemma newInfoFromCA_deterministic l w o sp actualPath refs m a e :
  newInfoFromCA store host b l w o sp actualPath refs m a = Threw e ->
  isNotDeterministic e = false.
Proof.
  unfold newInfoFromCA. repeat case_match; by intros [= <-].
Qed.

Lemma makeInfo_deterministic l w o output sp actualPath refs e :
  makeInfo store host b l w o output sp actualPath refs = Threw e ->
  isNotDeterministic e = false.
Proof.
  unfold makeInfo. destruct output as [p|m h|m a| |m a].
  - repeat case_match; done.
  - destruct (newInfoFromCA _ _ _ _ _ _ _ _ _ _ _) as [[i w1]|e1] eqn:Hnew; simpl.
    + repeat case_match; by intros [= <-].
    + intros [= <-]. by eapply newInfoFromCA_deterministic.
  - destruct (newInfoFromCA _ _ _ _ _ _ _ _ _ _ _) as [[i w1]|e1] eqn:Hnew; simpl; [done|].
    intros [= <-]. by eapply newInfoFromCA_deterministic.
  - by intros [= <-].
  - destruct (newInfoFromCA _ _ _ _ _ _ _ _ _ _ _) as [[i w1]|e1] eqn:Hnew; simpl; [done|].
    intros [= <-]. by eapply newInfoFromCA_deterministic.
Qed.

Lemma finalizeOutput_delayed (l : Locals) (w : World) (o : string) (l' : Locals) (w' : World) :
  delayedIsBuildError l ->
  finalizeOutput store host b l w o = Continue l' w' -> delayedIsBuildError l'.
Proof.
  intros Hdel. unfold finalizeOutput.
  destruct (drvOutputs b !! o) as [output|]; [|done].
  destruct (buildScratchOutputs b !! o) as [sp|]; [|done].
  destruct (outputReferencesIfUnregistered l !! o) as [[p|refs]|]; [| |done].
  - intros [= <- <-]. intros e.
    destruct (finish_frame o sp p l) as (_ & _ & -> & _). apply Hdel.
  - destruct (makeInfo store host b l w o output sp _ refs) as [[[newInfo l1] w1]|e] eqn:Hmake;
      [|done].
    apply makeInfo_spec in Hmake as [(_ & _ & _ & _ & Hmade) _].
    assert (Hdel1 : delayedIsBuildError l1).
    { intros e He. destruct output as [p|m h|m a| |m a].
      - destruct Hmade as (_ & _ & _ & Heq). rewrite Heq in He. by apply Hdel.
      - destruct Hmade as (got & _ & _ & Heq). rewrite Heq in He.
        repeat case_decide; [by injection He as <-..|by apply Hdel].
      - destruct Hmade as (got & _ & _ & Heq). rewrite Heq in He. by apply Hdel.
      - done.
      - destruct Hmade as (got & _ & _ & Heq). rewrite Heq in He. by apply Hdel. }
    repeat case_match; intros [= <- <-]; try exact Hdel1;
      intros e; simpl;
      destruct (finish_frame o sp (info_path newInfo) l1) as (_ & _ & -> & _); apply Hdel1.
Qed.

Lemma finalizeOutput_NotDeterministic (l : Locals) (w : World) (o : string) (e : Error)
    (l' : Locals) (w' : World) :
  finalizeOutput store host b l w o = Raise e l' w' -> isNotDeterministic e = true ->
  buildMode b = bmCheck /\ noteCheckMismatch ∈ notes w'.
Proof.
  unfold finalizeOutput.
  destruct (drvOutputs b !! o) as [output|]; [|by intros [= <- <- <-]].
  destruct (buildScratchOutputs b !! o) as [sp|]; [|by intros [= <- <- <-]].
  destruct (outputReferencesIfUnregistered l !! o) as [[p|refs]|]; [done| |by intros [= <- <- <-]].
  destruct (makeInfo store host b l w o output sp _ refs) as [[[newInfo l1] w1]|e1] eqn:Hmake.
  - destruct (decide (buildMode b = bmCheck)) as [Hmode|]; [|done].
    repeat case_match; try done; intros [= <- <- <-] _; (split; [done|]); simpl; by left.
  - intros [= <- <- <-] Hnd. apply makeInfo_deterministic in Hmake. congruence.
Qed.

Lemma secondPass_NotDeterministic (names : list string) (l : Locals) (w : World) :
  delayedIsBuildError l ->
  match forEach (finalizeOutput store host b) l w names with
  | Continue l' _ => delayedIsBuildError l'
  | Raise e _ w' =>
      isNotDeterministic e = true -> buildMode b = bmCheck /\ noteCheckMismatch ∈ notes w'
  end.
Proof.
  revert l w. induction names as [|n names IH]; intros l w Hdel; simpl; [done|].
  destruct (finalizeOutput store host b l w n) as [l1 w1|e l1 w1] eqn:Hstep.
  - apply IH. by eapply finalizeOutput_delayed.
  - by eapply finalizeOutput_NotDeterministic.
Qed.

Lemma realiseAll_throws (l : Locals) (es : list (string * ValidPathInfo))
    (acc : gmap string Realisation * World) (e : Error) :
  realiseAll host b l acc es = Threw e -> e = AssertionFailure.
Proof.
  revert acc. induction es as [|[o i] es IH]; intros [built w]; simpl; [done|].
  destruct (initialOutputs l !! o); [|by intros [= <-]].
  case_match; simpl; apply IH.
Qed.

Lemma registerOutputs_NotDeterministic
    (initial : gmap string InitialOutput) (w w' : World) (e : Error) :
  registerOutputs store host checkOutputs b initial w = (w', Threw e) ->
  isNotDeterministic e = true -> buildMode b = bmCheck.
Proof.
  unfold registerOutputs.
  destruct (forEach (checkOutput store host b) (emptyLocals initial) w
              (ordered (dom (drvOutputs b)))) as [l1 w1|e1 l1 w1] eqn:Hfirst.
  2:{ intros [= <- <-] Hnd. apply firstPass_deterministic in Hfirst. congruence. }
  destruct (firstPass_done _ _ _ _ _ _ _ Hfirst) as [Hfp _].
  pose proof (sortedOutputNames_spec store host b initial l1 Hfp) as Hsort.
  destruct (sortedOutputNames store b l1) as [names|[e1|]].
  2:{ destruct Hsort as (path & parent & [= ->] & _). by intros [= <- <-]. }
  2:{ by intros [= <- <-]. }
  assert (Hdel : delayedIsBuildError l1).
  { intros e1. by rewrite (fp_delayed _ _ _ _ _ _ Hfp). }
  pose proof (secondPass_NotDeterministic names l1 w1 Hdel) as Hsecond.
  destruct (forEach (finalizeOutput store host b) l1 w1 names) as [l2 w2|e2 l2 w2].
  2:{ intros [= <- <-] Hnd. by apply Hsecond. }
  unfold commitOutputs. destruct (decide (buildMode b = bmCheck)) as [Hmode|Hmode]; [done|].
  destruct (checkOutputs w2 (infos l2)); [by intros [= <- <-]|].
  destruct (delayedException l2) as [e2|] eqn:Hd.
  { intros [= <- <-] Hnd. apply Hsecond in Hd. congruence. }
  destruct (realiseAll host b l2 _ _) as [[built w3]|e3] eqn:Hreal; [done|].
  intros [= <- <-]. by apply realiseAll_throws in Hreal as ->.
Qed.

(** A build is reported as not deterministic only by a check build whose
    builder has exited with status 0. *)
Theorem not_deterministic_only_from_check_builds
    (haveStatvfs : bool) (statvfs : string -> option StatVfs) (realStoreDir tmpDir : string)
    (isSandboxed : bool) (status : ExitStatus) (initial : gmap string InitialOutput)
    (w w' : World) (e : Error) :
  unprepareBuild store host checkOutputs b haveStatvfs statvfs realStoreDir tmpDir isSandboxed
    status initial w = (w', Failure NotDeterministicStatus e) ->
  buildMode b = bmCheck /\ statusOk status = true /\ isNotDeterministic e = true.
Proof.
  unfold unprepareBuild. destruct (statusOk status) eqn:Hok; simpl.
  - destruct (registerOutputs store host checkOutputs b initial w) as [w1 [built|e1]] eqn:Hrun;
      [done|].
    unfold failureStatus. rewrite Hok.
    destruct e1 as [m|m|]; simpl; [done| |done].
    intros [= <- <-]. split; [|done].
    by eapply registerOutputs_NotDeterministic.
  - unfold failureStatus. rewrite Hok. simpl. by repeat case_match.
Qed.

End NotDeterministicFacts.

(** ** The facts on output checks and check builds, on the example builds *)

(** [out] of the example refers to itself and passes the checks, which
    name it. *)
Lemma requisites_checks_count_the_output_itself_witness :
  let info := helloInfo helloOut {[helloOut; helloDev]} 100 in
  let named := namedBy exampleIsStorePath exampleParseStorePath helloOutputs in
  (forall refs, allowedRequisites helloChecks = Some refs -> ignoreSelfRefs helloChecks = false ->
     named refs (info_path info))
  /\ (disallowedRequisites helloChecks <> ∅ -> ignoreSelfRefs helloChecks = false ->
      ~ named (disallowedRequisites helloChecks) (info_path info))
  /\ (forall refs, allowedReferences helloChecks = Some refs ->
        info_path info ∈ references info -> named refs (info_path info)).
Proof.
  intros info named.
  apply (requisites_checks_count_the_output_itself exampleStore exampleIsStorePath
           exampleParseStorePath exampleDrvPath emptyWorld helloOutputs "out" info helloChecks).
  vm_compute. reflexivity.
Defined.

(** The build of [hello] returns a realisation for [out], which was not
    valid, and none for [dev], which was. *)
Lemma built_outputs_are_the_new_outputs_witness :
  let b := helloBuild bmNormal in
  let r := registerOutputs exampleStore (exampleHost helloFiles) noOutputChecks b
             helloInitial emptyWorld in
  let builtOutputs := default ∅ (returned r.2) in
  dom builtOutputs = {["out"]}
  /\ (forall o, is_Some (builtOutputs !! o) <->
        o ∈ dom (drvOutputs b)
        /\ exists io, helloInitial !! o = Some io /\ wantedOf b io = true)
  /\ (forall o r0, builtOutputs !! o = Some r0 ->
        exists io, helloInitial !! o = Some io /\ realisation_id r0 = (outputHash io, o)
                   /\ is_Some (validPaths r.1 !! outPath r0))
  /\ (if caDerivationsEnabled b && negb (drvIsImpure b)
      then forall r0, r0 ∈ drvOutputsRegistered r.1 <->
             r0 ∈ drvOutputsRegistered emptyWorld \/ exists o, builtOutputs !! o = Some r0
      else drvOutputsRegistered r.1 = drvOutputsRegistered emptyWorld).
Proof.
  intros b r builtOutputs. split; [evaluated|].
  apply (built_outputs_are_the_new_outputs exampleStore (exampleHost helloFiles) noOutputChecks
           b helloInitial emptyWorld r.1 builtOutputs).
  - discriminate.
  - vm_compute. reflexivity.
Defined.

(** The check build of the fixed output, whose tree has the declared hash:
    the info of the declared path becomes ultimately trusted, and that is
    all. *)
Lemma check_build_registers_no_new_path_witness :
  let r := registerOutputs exampleStore (exampleHost (fixedFiles "expected")) noOutputChecks
             (fixedBuild bmCheck) (fixedInitial true) untrustedWorld in
  (ultimate <$> validPaths r.1 !! fixedOut) = Some true
  /\ CheckKept untrustedWorld r.1 /\ WellKeyed r.1.
Proof.
  intros r. split; [vm_compute; reflexivity|].
  apply (check_build_registers_no_new_path exampleStore (exampleHost (fixedFiles "expected"))
           noOutputChecks (fixedBuild bmCheck) (fixedInitial true) untrustedWorld r.1 r.2).
  - reflexivity.
  - intros p i Hi. cbn in Hi. apply lookup_singleton_Some in Hi as [<- <-]. reflexivity.
  - apply surjective_pairing.
Defined.

(** The check build of the fixed output against a store that holds
    another archive hash for it. *)
Lemma not_deterministic_only_from_check_builds_witness :
  let b := fixedBuild bmCheck in
  let e := NotDeterministic
             (MayNotBeDeterministic "/nix/store/drvhash-hello.drv"
                "/nix/store/<ca:expected>-hello" None) in
  (unprepareBuild exampleStore (exampleHost (fixedFiles "expected")) noOutputChecks b
     true (freeBlocks 1000000) "/nix/store" "/tmp/nix-build-hello" false
     (Exited 0) (fixedInitial true) staleWorld).2 = Failure NotDeterministicStatus e
  /\ buildMode b = bmCheck /\ statusOk (Exited 0) = true /\ isNotDeterministic e = true.
Proof.
  intros b e.
  set (r := unprepareBuild exampleStore (exampleHost (fixedFiles "expected")) noOutputChecks b
              true (freeBlocks 1000000) "/nix/store" "/tmp/nix-build-hello" false
              (Exited 0) (fixedInitial true) staleWorld).
  assert (Hr : r = (r.1, Failure NotDeterministicStatus e)) by (vm_compute; reflexivity).
  split; [by rewrite Hr|].
  exact (not_deterministic_only_from_check_builds exampleStore
           (exampleHost (fixedFiles "expected")) noOutputChecks b
           true (freeBlocks 1000000) "/nix/store" "/tmp/nix-build-hello" false
           (Exited 0) (fixedInitial true) staleWorld r.1 e Hr).
Defined.

(** ** Repeated requests to the recursive daemon *)

Section AddDependencyComposition.

Variable store : Store.
Variable pathExists : string -> bool.
Variable bindInSandbox : string -> string -> Z.
Variable platform : Platform.
Variable useChroot : bool.
Variable chrootRootDir : string.
Variable inputPaths : gset StorePath.

Abbreviation addDependency'' :=
  (addDependency store pathExists bindInSandbox platform useChroot chrootRootDir inputPaths).

(** Whatever [addDependency] answers, the path is allowed afterwards and
    every path that was allowed stays so: the path is put into
    [addedPaths] before the sandbox is touched. A second request for the
    path therefore returns at once, also when the first one has thrown and
    the path never appeared in the sandbox. A bind mount is made only by a
    request that returns, for a path that was not allowed, in a chroot
    build; it is the mount of the real path of the store path at its place
    under the chroot. *)
Theorem addDependency_allows_path_even_when_it_throws (st : DaemonState) (p : StorePath) :
  let st' := (addDependency'' st p).1 in
  isAllowed inputPaths st' p = true
  /\ (forall q, isAllowed inputPaths st q = true -> isAllowed inputPaths st' q = true)
  /\ addDependency'' st' p = (st', Returned tt)
  /\ (bindMounts st' = bindMounts st
      \/ (bindMounts st' =
            (toRealPath store (printStorePath store p),
             (chrootRootDir ++ printStorePath store p)%string) :: bindMounts st
          /\ (addDependency'' st p).2 = Returned tt
          /\ isAllowed inputPaths st p = false /\ useChroot = true)).
Proof.
  intros st'.
  assert (Hallowed : isAllowed inputPaths st' p = true).
  { unfold st', addDependency, isAllowed.
    destruct (bool_decide (p ∈ inputPaths) || bool_decide (p ∈ addedPaths st)) eqn:Hal;
      [exact Hal|].
    apply orb_true_iff. right. apply bool_decide_eq_true.
    destruct useChroot; [destruct platform|]; repeat case_match; simpl; set_solver. }
  split; [exact Hallowed|]. split; [|split].
  - intros q. unfold st', addDependency, isAllowed.
    destruct (bool_decide (p ∈ inputPaths) || bool_decide (p ∈ addedPaths st)); [done|].
    rewrite !orb_true_iff, !bool_decide_eq_true. intros [?|Hq]; [by left|right].
    destruct useChroot; [destruct platform|]; repeat case_match; simpl; set_solver.
  - unfold addDependency at 1. by rewrite Hallowed.
  - unfold st', addDependency.
    destruct (isAllowed inputPaths st p) eqn:Hal; [by left|].
    destruct useChroot; [|by left]. destruct platform; try by left.
    destruct (pathExists _); [by left|]. case_bool_decide; [by left|]. right. done.
Qed.

End AddDependencyComposition.

(** ** Whether a prepared build runs in a chroot *)

Section PrepareChrootFacts.

Variable acquireUserLock : Z -> bool -> option UserLock.
Variable env : PrepareEnv.

(** When [prepareBuild] does not throw, the build runs in a chroot exactly
    when the sandbox mode asks for one (always when enabled, never when
    disabled, for a sandboxed derivation without [__noChroot] when relaxed)
    or the store is diverted, and, on Linux, the kernel namespaces are
    there. With the sandbox enabled a build therefore runs outside a
    chroot only on Linux without the namespaces, and only when the
    fallback is allowed; a diverted store gets a chroot even when the
    sandbox is disabled. The build user, once there, is never replaced. *)
Theorem prepareBuild_decides_chroot (st st' : PrepareState) (ok : bool) :
  prepareBuild acquireUserLock env st = Returned (st', ok) ->
  let wanted :=
    match pe_sandboxMode env with
    | smEnabled => true
    | smDisabled => false
    | smRelaxed => pe_isSandboxed env && negb (pe_noChroot env)
    end || bool_decide (pe_storeDir env <> pe_realStoreDir env) in
  let noNamespaces :=
    bool_decide (pe_platform env = Linux) && negb (pe_namespacesSupported env) in
  ps_useChroot st' = wanted && negb noNamespaces
  /\ (wanted && noNamespaces = true -> pe_sandboxFallback env = true)
  /\ (pe_storeDir env <> pe_realStoreDir env -> pe_platform env = Linux)
  /\ (forall u, ps_buildUser st = Some u -> ps_buildUser st' = Some u).
Proof.
  unfold prepareBuild, decideChroot, chrootFromSandboxMode, chrootFromDivertedStore,
    chrootFromNamespaces, acquireBuildUser.
  destruct env as [platform mode noChroot profile sandboxed storeDir realStoreDir ns fallback
                     useUsers uidRange drv]; simpl.
  destruct st as [chroot0 user0]; simpl.
  intros Hrun.
  destruct mode, noChroot, sandboxed, platform, ns, fallback, useUsers;
    repeat (case_bool_decide; simpl in * ); try done;
    repeat (case_match; simpl in * ); simplify_eq; simpl;
    repeat split; try done; try congruence.
Qed.

End PrepareChrootFacts.

(** ** The entries of [sandbox-paths] *)

Lemma append_empty_r (x : string) : (x ++ "")%string = x.
Proof.
  induction x as [|a x IH]; [done|].
  change (String a x ++ "")%string with (String a (x ++ "")%string). by rewrite IH.
Qed.






(** ** The output of the pre-build hook *)

Lemma append_snoc (cur : string) (c : ascii) (l : string) :
  ((cur ++ String c "") ++ l)%string = (cur ++ String c l)%string.
Proof.
  induction cur as [|a cur IH]; [done|].
  change ((String a cur ++ String c "") ++ l)%string
    with (String a ((cur ++ String c "") ++ l)%string).
  by rewrite IH.
Qed.

Lemma hookLines_line (cur line rest : string) :
  splitFirst newline line = None ->
  hookLines cur (line ++ String newline rest)%string
    = (cur ++ line)%string :: hookLines "" rest.
Proof.
  revert cur. induction line as [|c line IH]; intros cur Hline.
  - change ("" ++ String newline rest)%string with (String newline rest). simpl.
    by rewrite append_empty_r.
  - change (String c line ++ String newline rest)%string
      with (String c (line ++ String newline rest)%string).
    simpl in *. destruct (Ascii.eqb c newline); [done|].
    destruct (splitFirst newline line) as [[? ?]|] eqn:Hrest; [done|].
    rewrite IH by done. by rewrite append_snoc.
Qed.

Lemma hookLines_no_newline (cur tail : string) :
  splitFirst newline tail = None -> hookLines cur tail = [].
Proof.
  revert cur. induction tail as [|c tail IH]; intros cur Htail; [done|].
  simpl in *. destruct (Ascii.eqb c newline); [done|].
  destruct (splitFirst newline tail) as [[? ?]|]; [done|]. by apply IH.
Qed.

Lemma hookLines_tail (cur s tail : string) :
  splitFirst newline tail = None -> hookLines cur (s ++ tail)%string = hookLines cur s.
Proof.
  intros Htail. revert cur. induction s as [|c s IH]; intros cur.
  - change ("" ++ tail)%string with tail. by apply hookLines_no_newline.
  - change (String c s ++ tail)%string with (String c (s ++ tail)%string). simpl.
    destruct (Ascii.eqb c newline); by rewrite IH.
Qed.

Lemma append_assoc (x y z : string) : ((x ++ y) ++ z)%string = (x ++ (y ++ z))%string.
Proof.
  induction x as [|a x IH]; [done|].
  change ((String a x ++ y) ++ z)%string with (String a ((x ++ y) ++ z)%string).
  by rewrite IH.
Qed.

Lemma hookLines_foldr (lines : list string) (rest : string) :
  Forall (fun line => splitFirst newline line = None) lines ->
  hookLines "" (foldr (fun line rest => line ++ String newline rest)%string rest lines)
    = lines ++ hookLines "" rest.
Proof.
  intros Hlines. induction Hlines as [|line lines Hline _ IH]; simpl; [done|].
  rewrite hookLines_line by done. by rewrite IH.
Qed.

Lemma foldr_lines_app (lines : list string) (rest more : string) :
  (foldr (fun line rest => line ++ String newline rest) rest lines ++ more)%string
    = foldr (fun line rest => line ++ String newline rest)%string (rest ++ more)%string lines.
Proof.
  induction lines as [|line lines IH]; simpl; [done|].
  rewrite append_assoc.
  change (String newline ?r ++ more)%string with (String newline (r ++ more)%string).
  by rewrite IH.
Qed.

Lemma hookLines_block (lines : list string) (more : string) :
  Forall (fun line => splitFirst newline line = None) lines ->
  hookLines "" (hookBlock lines ++ more)%string
    = "extra-sandbox-paths" :: lines ++ "" :: hookLines "" more.
Proof.
  intros Hlines. unfold hookBlock. rewrite append_assoc.
  change (String newline ?r ++ more)%string with (String newline (r ++ more)%string).
  rewrite (hookLines_line "" "extra-sandbox-paths") by done.
  change ("" ++ "extra-sandbox-paths")%string with "extra-sandbox-paths". f_equal.
  rewrite foldr_lines_app, hookLines_foldr by done.
  change (String newline "" ++ more)%string with (String newline more). done.
Qed.

Lemma hookLoop_entries (lines : list string) (paths : gmap string ChrootPath) :
  Forall (fun line => line <> "") lines ->
  hookLoop (lines ++ [""]) (stExtraChrootDirs, paths)
    = Returned (stBegin,
                foldl (fun m line => <[(hookEntry line).1 := (hookEntry line).2]> m)
                  paths lines).
Proof.
  intros Hlines. revert paths. induction Hlines as [|line lines Hline _ IH]; intros paths.
  - done.
  - simpl. unfold hookStep at 1. simpl.
    destruct (String.eqb_spec line ""); [done|].
    unfold hookEntry. destruct (splitFirst "=" line) as [[target src]|]; simpl; apply IH.
Qed.

Lemma hookLoop_app (lines more : list string) (acc : BuildHookState * gmap string ChrootPath) :
  hookLoop (lines ++ more) acc = (acc' <- hookLoop lines acc ;; hookLoop more acc').
Proof.
  revert acc. induction lines as [|line lines IH]; intros acc; simpl; [done|].
  destruct (hookStep acc line); simpl; [apply IH|done].
Qed.

(** What the hook adds does not depend on the paths that are there. *)
Lemma hookLoop_base (lines : list string) (st : BuildHookState)
    (m base : gmap string ChrootPath) :
  hookLoop lines (st, m ∪ base)
    = (r <- hookLoop lines (st, m) ;; Returned (r.1, r.2 ∪ base)).
Proof.
  revert st m. induction lines as [|line lines IH]; intros st m; simpl; [done|].
  unfold hookStep. simpl. destruct st.
  - destruct (_ || _); simpl; [apply IH|done].
  - destruct (String.eqb line ""); simpl; [apply IH|].
    destruct (splitFirst "=" line) as [[target src]|]; simpl;
      rewrite insert_union_l; apply IH.
Qed.

Section SandboxPathsFacts.

Variable store : Store.
Variable b : Build.
Variable env : SandboxEnv.
Variable isInStore : string -> bool.
Variable toStorePath : string -> StorePath.
Variable computeFSClosure : StorePath -> ClosureResult.
Variable canonPath : string -> string.
Variable isDirOrInDir : string -> string -> bool.
Variable outputPath : string -> DerivationOutput -> option StorePath.

Abbreviation hookArgs := [printStorePath store (drvPath b); chrootRootDir b].

(** What the hook prints after its last newline is not read: a last line
    that is not ended by a newline is lost. *)
Theorem pre_build_hook_drops_unterminated_line
    (runPreBuildHook : list string -> string) (tail : string)
    (pathsInChroot : gmap string ChrootPath) :
  splitFirst newline tail = None ->
  preBuildHookPaths store b (fun args => (runPreBuildHook args ++ tail)%string) pathsInChroot
    = preBuildHookPaths store b runPreBuildHook pathsInChroot.
Proof.
  intros Htail. unfold preBuildHookPaths. by rewrite hookLines_tail.
Qed.

(** A block of the hook (the command, one line for each path, a blank
    line) puts each of its paths into the sandbox, as a path that must be
    there, over what was there for the same target; a line [target=source]
    is cut at its first [=]. A blank line after the block is no command,
    and fails the build, as any other line outside a block does. *)
Theorem pre_build_hook_block_adds_its_paths
    (lines : list string) (pathsInChroot : gmap string ChrootPath) :
  Forall (fun line => splitFirst newline line = None) lines ->
  Forall (fun line => line <> "") lines ->
  preBuildHookPaths store b (fun _ => hookBlock lines) pathsInChroot
    = Returned (foldl (fun m line => <[(hookEntry line).1 := (hookEntry line).2]> m)
                  pathsInChroot lines)
  /\ preBuildHookPaths store b (fun _ => (hookBlock lines ++ String newline "")%string)
       pathsInChroot
     = Threw (UnknownHookCommand "").
Proof.
  intros Hnl Hne. unfold preBuildHookPaths. split.
  - rewrite <- (append_empty_r (hookBlock lines)), hookLines_block by done. simpl.
    by rewrite hookLoop_entries.
  - rewrite hookLines_block by done. simpl.
    change (lines ++ ["" ; ""]) with (lines ++ [""] ++ [""]).
    rewrite app_assoc, hookLoop_app. by rewrite hookLoop_entries.
Qed.

Abbreviation knownOutput' := (knownOutput store b outputPath).

Lemma eraseOutputs_fold_None (es : list (string * DerivationOutput))
    (m : gmap string ChrootPath) (k : string) :
  m !! k = None ->
  foldl (fun acc i => match outputPath i.1 i.2 with
                      | Some p => delete (printStorePath store p) acc
                      | None => acc
                      end) m es !! k = None.
Proof.
  revert m. induction es as [|e es IH]; intros m Hm; simpl; [done|].
  apply IH. destruct (outputPath e.1 e.2); [|done].
  rewrite lookup_delete_None. by right.
Qed.

Lemma eraseOutputs_known (m : gmap string ChrootPath) (k : string) :
  knownOutput' k -> eraseOutputs store b outputPath m !! k = None.
Proof.
  intros (o & output & p & Hout & Hpath & <-). unfold eraseOutputs.
  apply elem_of_ordered_entries in Hout. revert m.
  induction (ordered_entries (drvOutputs b)) as [|e es IH]; intros m;
    [by apply not_elem_of_nil in Hout|].
  apply elem_of_cons in Hout as [<-|Hin]; simpl.
  - rewrite Hpath. apply eraseOutputs_fold_None. apply lookup_delete_eq.
  - by apply IH.
Qed.

Lemma eraseOutputs_other (m : gmap string ChrootPath) (k : string) :
  ~ knownOutput' k -> eraseOutputs store b outputPath m !! k = m !! k.
Proof.
  intros Hk. unfold eraseOutputs.
  assert (Hall : forall e, e ∈ ordered_entries (drvOutputs b) ->
            forall p, outputPath e.1 e.2 = Some p -> printStorePath store p <> k).
  { intros [o output] He p Hp Heq. apply Hk. exists o, output, p.
    split; [by apply elem_of_ordered_entries|done]. }
  revert m. induction (ordered_entries (drvOutputs b)) as [|e es IH]; intros m; [done|].
  simpl. rewrite IH by (intros e' He'; apply Hall; by right).
  destruct (outputPath e.1 e.2) as [p|] eqn:Hp; [|done].
  apply lookup_delete_ne. eapply Hall; [by left|done].
Qed.

Lemma addInputPaths_input (m : gmap string ChrootPath) (i : StorePath) :
  i ∈ inputPaths b ->
  addInputPaths store b m !! printStorePath store i
    = Some (mkChrootPath (toRealPath store (printStorePath store i)) false).
Proof.
  intros Hi. unfold addInputPaths. apply elem_of_orderedPaths in Hi.
  induction (orderedPaths (inputPaths b)) as [|j l IH] using rev_ind;
    [by apply not_elem_of_nil in Hi|].
  rewrite foldl_app. simpl.
  destruct (decide (printStorePath store j = printStorePath store i)) as [Heq|Hne].
  - rewrite Heq. apply lookup_insert_eq.
  - rewrite lookup_insert_ne by done. apply IH.
    apply elem_of_app in Hi as [?|Hi]; [done|]. apply list_elem_of_singleton in Hi. congruence.
Qed.

Lemma addImpurePaths_fold (l : list string) (acc : Outcome SandboxError (gmap string ChrootPath)) :
  match acc,
        foldl (fun acc i =>
                 paths <- acc ;;
                 if impurePathAllowed env canonPath isDirOrInDir i
                 then Returned (<[i := mkChrootPath i true]> paths)
                 else Threw (ImpurePathNotAllowed (printStorePath store (drvPath b)) i))
          acc l with
  | Returned _, Returned _ =>
      forall i, i ∈ l -> impurePathAllowed env canonPath isDirOrInDir i = true
  | Returned _, Threw e =>
      exists i, i ∈ l /\ impurePathAllowed env canonPath isDirOrInDir i = false
                /\ e = ImpurePathNotAllowed (printStorePath store (drvPath b)) i
  | Threw e0, Threw e => e = e0
  | Threw _, Returned _ => False
  end.
Proof.
  revert acc. induction l as [|i l IH]; intros acc; simpl.
  - destruct acc; [|done]. intros i Hi. by apply not_elem_of_nil in Hi.
  - specialize (IH (paths <- acc ;;
                    if impurePathAllowed env canonPath isDirOrInDir i
                    then Returned (<[i := mkChrootPath i true]> paths)
                    else Threw (ImpurePathNotAllowed (printStorePath store (drvPath b)) i))).
    destruct acc as [paths|e0]; simpl in *; [|exact IH].
    destruct (impurePathAllowed env canonPath isDirOrInDir i) eqn:Hal.
    + destruct (foldl _ _ l) as [paths'|e].
      * intros j Hj. apply elem_of_cons in Hj as [->|Hj]; [done|by apply IH].
      * destruct IH as (j & Hj & Hrest). exists j. split; [by right|done].
    + destruct (foldl _ _ l) as [paths'|e]; [done|]. subst e.
      exists i. split; [by left|done].
Qed.

Lemma impurePathAllowed_spec (i : string) :
  impurePathAllowed env canonPath isDirOrInDir i = true <->
  exists a, a ∈ allowedImpureHostPrefixes env
            /\ isDirOrInDir (canonPath i) (canonPath a) = true.
Proof.
  unfold impurePathAllowed. rewrite existsb_exists. split.
  - intros (a & Ha & Hdir). exists a. split; [|done].
    by apply elem_of_ordered, list_elem_of_In.
  - intros (a & Ha & Hdir). exists a. split; [|done].
    by apply list_elem_of_In, elem_of_ordered.
Qed.

Lemma hookLoop_throws (lines : list string) (acc : BuildHookState * gmap string ChrootPath)
    (e : SandboxError) :
  hookLoop lines acc = Threw e -> exists line, e = UnknownHookCommand line.
Proof.
  revert acc. induction lines as [|x l IH]; intros acc; simpl; [done|].
  destruct (hookStep acc x) as [acc'|e'] eqn:Hstep; simpl; [apply IH|].
  intros [= ->]. unfold hookStep in Hstep. repeat case_match; try done.
  injection Hstep as <-. by eexists.
Qed.

Abbreviation startBuilder_sandbox' :=
  (startBuilder_sandbox store b env isInStore toStorePath computeFSClosure canonPath
     isDirOrInDir outputPath).

(** On Linux, the sandbox of a chroot build holds every input path, bound
    to its real path, and no path of an output that is known before the
    build, whatever [sandbox-paths], their closure and the impure paths of
    the derivation say: the inputs are put in and the outputs are taken
    out after these. Only the pre-build hook, which runs last, can name
    such a path again. *)
Theorem known_outputs_stay_out_of_the_sandbox
    (runPreBuildHook : list string -> string) (pathsInChroot paths : gmap string ChrootPath) :
  platform b = Linux -> useChroot b = true ->
  startBuilder_sandbox' runPreBuildHook pathsInChroot = Returned paths ->
  exists hookPaths,
    (if String.eqb (preBuildHook env) "" then hookPaths = ∅
     else exists st,
            hookLoop (hookLines "" (runPreBuildHook hookArgs)) (stBegin, ∅)
              = Returned (st, hookPaths))
    /\ (forall k, knownOutput' k -> paths !! k = hookPaths !! k)
    /\ (forall i, i ∈ inputPaths b -> ~ knownOutput' (printStorePath store i) ->
          paths !! printStorePath store i
            = Some (default (mkChrootPath (toRealPath store (printStorePath store i)) false)
                      (hookPaths !! printStorePath store i))).
Proof.
  intros Hlinux Hchroot. unfold startBuilder_sandbox, chrootPaths. rewrite Hchroot, Hlinux.
  destruct (String.prefix _ _); [done|]. simpl.
  destruct (sandboxClosure _ _ _ _) as [closure|e]; [|done]. simpl.
  destruct (addImpurePaths _ _ _ _ _ _) as [paths4|e]; [|done]. simpl.
  destruct (useUidRange env && _); [done|]. simpl.
  set (base := eraseOutputs store b outputPath (addInputPaths store b paths4)).
  assert (Hknown : forall k, knownOutput' k -> base !! k = None)
    by (intros k Hk; by apply eraseOutputs_known).
  assert (Hinput : forall i, i ∈ inputPaths b -> ~ knownOutput' (printStorePath store i) ->
            base !! printStorePath store i
              = Some (mkChrootPath (toRealPath store (printStorePath store i)) false)).
  { intros i Hi Hk. unfold base. rewrite eraseOutputs_other by done.
    by apply addInputPaths_input. }
  destruct (String.eqb (preBuildHook env) ""); simpl.
  - intros [= <-]. exists ∅. split; [done|]. split.
    + intros k Hk. by rewrite Hknown, lookup_empty.
    + intros i Hi Hk. by rewrite Hinput, lookup_empty.
  - unfold preBuildHookPaths.
    rewrite <- (left_id_L ∅ (∪) base), hookLoop_base.
    destruct (hookLoop _ (stBegin, ∅)) as [[st hookPaths]|e]; [|done]. simpl.
    intros [= <-]. exists hookPaths. split; [by exists st|]. split.
    + intros k Hk. rewrite lookup_union, (Hknown k Hk). by destruct (hookPaths !! k).
    + intros i Hi Hk. rewrite lookup_union, (Hinput i Hi Hk).
      by destruct (hookPaths !! printStorePath store i).
Qed.

(** A chroot build starts only if every impure path the derivation asks
    for lies in or under one of the allowed prefixes, both taken in
    canonical form; the first one that does not is the one the error
    names. *)
Theorem impure_host_deps_lie_under_allowed_prefixes
    (runPreBuildHook : list string -> string) (pathsInChroot : gmap string ChrootPath) :
  useChroot b = true ->
  (forall paths, startBuilder_sandbox' runPreBuildHook pathsInChroot = Returned paths ->
     forall i, i ∈ impureHostDeps env ->
       exists a, a ∈ allowedImpureHostPrefixes env
                 /\ isDirOrInDir (canonPath i) (canonPath a) = true)
  /\ (forall drv i,
        startBuilder_sandbox' runPreBuildHook pathsInChroot
          = Threw (ImpurePathNotAllowed drv i) ->
        i ∈ impureHostDeps env
        /\ forall a, a ∈ allowedImpureHostPrefixes env ->
             isDirOrInDir (canonPath i) (canonPath a) = false).
Proof.
  intros Hchroot. unfold startBuilder_sandbox, chrootPaths. rewrite Hchroot.
  destruct (String.prefix _ _); [done|]. simpl.
  destruct (sandboxClosure _ _ _ _) as [closure|e] eqn:Hclosure; simpl.
  2:{ split; [done|]. intros drv i [= ->]. exfalso. revert Hclosure. unfold sandboxClosure.
      generalize (ordered_entries (<[tmpDirInSandbox env := mkChrootPath (tmpDir env) false]>
                                     (addSandboxPaths (sandboxPaths env)))).
      intros l. assert (Hgen : forall acc,
        (forall d j, acc <> Threw (ImpurePathNotAllowed d j)) ->
        foldl (fun acc i =>
                 closure <- acc ;;
                 if isInStore (source i.2) then
                   match computeFSClosure (toStorePath (source i.2)) with
                   | ClosureAdded paths => Returned (paths ∪ closure)
                   | ClosureInvalidPath partial => Returned (partial ∪ closure)
                   | ClosureFailed msg => Threw (SandboxPathsFailed msg)
                   end
                 else Returned closure) acc l <> Threw (ImpurePathNotAllowed drv i)).
      { induction l as [|x l IH]; intros acc Hacc; simpl; [apply Hacc|].
        apply IH. intros d j. destruct acc as [c|e0]; simpl; [|apply Hacc].
        destruct (isInStore _); [|done]. by destruct (computeFSClosure _). }
      by apply Hgen. }
  pose proof (addImpurePaths_fold (ordered (impureHostDeps env))
                (Returned (addClosure store closure
                             (<[tmpDirInSandbox env := mkChrootPath (tmpDir env) false]>
                                (addSandboxPaths (sandboxPaths env)))))) as Himpure.
  unfold addImpurePaths. simpl in Himpure.
  destruct (foldl _ _ (ordered (impureHostDeps env))) as [paths4|e]; simpl.
  - split.
    + intros paths _ i Hi. apply impurePathAllowed_spec, Himpure. by apply elem_of_ordered.
    + intros drv i. destruct (platform b); repeat case_match; try done.
      all: unfold preBuildHookPaths; cbv zeta; simpl.
      all: match goal with
      | |- context [hookLoop ?l ?a] => destruct (hookLoop l a) as [r|e] eqn:Hhook
      end; [done|].
      all: simpl; intros [= ->]; by apply hookLoop_throws in Hhook as (line & ?).
  - destruct Himpure as (j & Hj & Hnot & ->). split; [done|].
    intros drv i [= _ <-]. split; [by apply elem_of_ordered|].
    intros a Ha. destruct (isDirOrInDir (canonPath j) (canonPath a)) eqn:Hdir; [|done].
    assert (impurePathAllowed env canonPath isDirOrInDir j = true)
      by (apply impurePathAllowed_spec; by exists a).
    congruence.
Qed.

End SandboxPathsFacts.

(** A diverted store with the sandbox disabled, on Linux with the
    namespaces: the build runs in a chroot. *)
Lemma prepareBuild_decides_chroot_witness :
  let env :=
    mkPrepareEnv Linux smDisabled false "" true "/nix/store" "/mnt/nix/store" true false
      false false "/nix/store/drvhash-hello.drv" in
  let st := mkPrepareState false None in
  prepareBuild (fun _ _ => None) env st = Returned (mkPrepareState true None, true)
  /\ ps_useChroot (mkPrepareState true None) = true
  /\ (false = true -> pe_sandboxFallback env = true)
  /\ (pe_storeDir env <> pe_realStoreDir env -> pe_platform env = Linux)
  /\ (forall u, ps_buildUser st = Some u -> ps_buildUser (mkPrepareState true None) = Some u).
Proof.
  intros env st.
  assert (Hrun : prepareBuild (fun _ _ => None) env st
                 = Returned (mkPrepareState true None, true)) by reflexivity.
  split; [exact Hrun|].
  exact (prepareBuild_decides_chroot (fun _ _ => None) env st (mkPrepareState true None) true
           Hrun).
Defined.

(** ** The facts on the sandbox, on the example build *)

Lemma returned_spec {E A : Type} (r : Outcome E A) (d : A) :
  match r with Returned _ => true | Threw _ => false end = true ->
  r = Returned (default d (returned r)).
Proof. by destruct r. Qed.


(** A hook that ends its output in the middle of a line. *)
Lemma pre_build_hook_drops_unterminated_line_witness :
  preBuildHookPaths exampleStore helloBuildWithInput
    (fun args => (hookBlock ["/dev/kvm"] ++ "extra-sandbox-paths")%string) ∅
  = preBuildHookPaths exampleStore helloBuildWithInput (fun args => hookBlock ["/dev/kvm"]) ∅.
Proof.
  apply (pre_build_hook_drops_unterminated_line exampleStore helloBuildWithInput
           (fun args => hookBlock ["/dev/kvm"]) "extra-sandbox-paths" ∅).
  reflexivity.
Defined.

(** A block of two paths. *)
Lemma pre_build_hook_block_adds_its_paths_witness :
  let lines := ["/nix/store/aaaa-hello"; "/dev/kvm=/dev/null"] in
  preBuildHookPaths exampleStore helloBuildWithInput (fun _ => hookBlock lines) ∅
    = Returned (foldl (fun m line => <[(hookEntry line).1 := (hookEntry line).2]> m) ∅ lines)
  /\ preBuildHookPaths exampleStore helloBuildWithInput
       (fun _ => (hookBlock lines ++ String newline "")%string) ∅
     = Threw (UnknownHookCommand "").
Proof.
  intros lines.
  apply (pre_build_hook_block_adds_its_paths exampleStore helloBuildWithInput lines ∅).
  - repeat constructor.
  - by repeat constructor.
Defined.

(** The sandbox of the example build: [out] is named by [sandbox-paths]
    and is not in the sandbox; the input is. *)
Lemma known_outputs_stay_out_of_the_sandbox_witness :
  let paths := default ∅ (returned (exampleSandbox "")) in
  paths !! "/nix/store/aaaa-hello" = None
  /\ "/nix/store/aaaa-hello" ∈ sandboxPaths (exampleSandboxEnv "")
  /\ exists hookPaths : gmap string ChrootPath,
       hookPaths = ∅
       /\ (forall k, knownOutput exampleStore helloBuildWithInput exampleOutputPath k ->
             paths !! k = hookPaths !! k)
       /\ (forall i, i ∈ inputPaths helloBuildWithInput ->
             ~ knownOutput exampleStore helloBuildWithInput exampleOutputPath
                 (printStorePath exampleStore i) ->
             paths !! printStorePath exampleStore i
               = Some (default (mkChrootPath
                                  (toRealPath exampleStore (printStorePath exampleStore i)) false)
                         (hookPaths !! printStorePath exampleStore i))).
Proof.
  intros paths. split; [vm_compute; reflexivity|]. split; [evaluated|].
  apply (known_outputs_stay_out_of_the_sandbox exampleStore helloBuildWithInput
           (exampleSandboxEnv "") exampleIsInStore exampleToStorePath exampleFSClosure
           (fun p => p) exampleIsDirOrInDir exampleOutputPath (fun _ => "") ∅ paths).
  - reflexivity.
  - reflexivity.
  - apply (returned_spec (exampleSandbox "") ∅). vm_compute. reflexivity.
Defined.

(** The impure path of the example lies under the allowed [/usr/lib]. *)
Lemma impure_host_deps_lie_under_allowed_prefixes_witness :
  let env := exampleSandboxEnv "" in
  (forall paths, exampleSandbox "" = Returned paths ->
     forall i, i ∈ impureHostDeps env ->
       exists a, a ∈ allowedImpureHostPrefixes env /\ exampleIsDirOrInDir i a = true)
  /\ (forall drv i, exampleSandbox "" = Threw (ImpurePathNotAllowed drv i) ->
        i ∈ impureHostDeps env
        /\ forall a, a ∈ allowedImpureHostPrefixes env -> exampleIsDirOrInDir i a = false).
Proof.
  intros env.
  apply (impure_host_deps_lie_under_allowed_prefixes exampleStore helloBuildWithInput
           (exampleSandboxEnv "") exampleIsInStore exampleToStorePath exampleFSClosure
           (fun p => p) exampleIsDirOrInDir exampleOutputPath (fun _ => "") ∅).
  reflexivity.
Defined.
